(** * Isha2.0: the RAG core, embedded in Rocq

    A shallow embedding of the chunker ([createTextChunks], and the same loop
    inlined in [parsePDFChunks]), of the embedder's [similarity] and
    [embedBatch], of the RAG service's [prepareContext] and
    [addDocumentToKnowledgeBase], of the vector store's [addDocuments], and of
    the webhook service's long-running task orchestration.

    JavaScript numbers are IEEE-754 binary64 values; they are modelled with
    the Standard Library's [spec_float] at precision 53 and exponent bound
    1024, so [chunkSize * 0.7] and the cosine similarity are computed with
    the roundings the program performs.  Array indices, lengths and
    millisecond clocks are integers ([Z]).  Strings are [String.string].
    The norm of an embedding is measured in the real numbers: [Rounding]
    relates each operation on doubles to the exact result. *)

From Stdlib Require Import ZArith List Bool Lia.
From Stdlib Require Import Ascii String DecimalString.
From Stdlib Require Import SpecFloat.
From Stdlib Require Import Reals Lra.
Import ListNotations.

Open Scope string_scope.
Open Scope Z_scope.

(* ================================================================== *)
(** * JavaScript numbers *)
(* ================================================================== *)

Module JsNumber.

Definition prec : Z := 53.
Definition emax : Z := 1024.

Definition number := spec_float.

(** An integer as a double (exact below 2^53). *)
Definition of_Z (z : Z) : number := binary_normalize prec emax z 0 false.

Definition add : number -> number -> number := SFadd prec emax.
Definition sub : number -> number -> number := SFsub prec emax.
Definition mul : number -> number -> number := SFmul prec emax.
Definition div : number -> number -> number := SFdiv prec emax.
Definition sqrt : number -> number := SFsqrt prec emax.

(** [a < b] and [a > b]; both are false when an operand is NaN. *)
Definition lt (a b : number) : bool := SFltb a b.
Definition gt (a b : number) : bool := SFltb b a.
Definition le (a b : number) : bool := SFleb a b.

Definition is_nan (a : number) : bool :=
  match a with S754_nan => true | _ => false end.

Definition zero : number := S754_zero false.
Definition one : number := of_Z 1.
Definition hundred : number := of_Z 100.

(** The literal [0.7]: the double nearest to 7/10, 0x3FE6666666666666. *)
Definition lit_0_7 : number := S754_finite false 6305039478318694 (-53).

(** [Math.min(a, b)] and [Math.max(a, b)]: NaN if either argument is NaN;
    [-0] counts as smaller than [+0]. *)
Definition math_min (a b : number) : number :=
  if is_nan a || is_nan b then S754_nan
  else match a, b with
       | S754_zero sa, S754_zero sb => S754_zero (sa || sb)
       | _, _ => if lt b a then b else a
       end.

Definition math_max (a b : number) : number :=
  if is_nan a || is_nan b then S754_nan
  else match a, b with
       | S754_zero sa, S754_zero sb => S754_zero (sa && sb)
       | _, _ => if lt a b then b else a
       end.

(** [Math.round(x)]: the integer nearest to [x], ties towards +infinity;
    NaN, infinities and zeros are returned unchanged, and a negative [x]
    that rounds to zero gives [-0]. *)
Definition math_round (x : number) : number :=
  match x with
  | S754_finite s m e =>
      if 0 <=? e then x
      else
        let sm := if s then Z.neg m else Z.pos m in
        let n := (2 * sm + 2 ^ (- e)) / 2 ^ (1 - e) in
        binary_normalize prec emax n 0 s
  | _ => x
  end.

(** JavaScript truthiness of a number: [0], [-0] and NaN are falsy. *)
Definition truthy (x : number) : bool :=
  match x with
  | S754_zero _ | S754_nan => false
  | _ => true
  end.

End JsNumber.

(* ================================================================== *)
(** * JavaScript strings *)
(* ================================================================== *)

Module JsString.

Definition len (s : string) : Z := Z.of_nat (String.length s).

(** [s.slice(b, e)]: negative indices count from the end, both bounds are
    clamped to the string, an empty range gives the empty string. *)
Definition slice (s : string) (b e : Z) : string :=
  let n := len s in
  let from := if b <? 0 then Z.max (n + b) 0 else Z.min b n in
  let to := if e <? 0 then Z.max (n + e) 0 else Z.min e n in
  substring (Z.to_nat from) (Z.to_nat (Z.max (to - from) 0)) s.

(** [s.lastIndexOf(c)] for a one-character needle; -1 when absent. *)
Fixpoint lastIndexOf_from (c : ascii) (s : string) (i best : Z) : Z :=
  match s with
  | EmptyString => best
  | String a r => lastIndexOf_from c r (i + 1) (if Ascii.eqb a c then i else best)
  end.

Definition lastIndexOf (s : string) (c : ascii) : Z :=
  lastIndexOf_from c s 0 (-1).

(** White space and line terminators removed by [trim] (code units below
    256): TAB, LF, VT, FF, CR, SP, NBSP. *)
Definition is_space (a : ascii) : bool :=
  let n := nat_of_ascii a in
  (Nat.eqb n 9 || Nat.eqb n 10 || Nat.eqb n 11 || Nat.eqb n 12
   || Nat.eqb n 13 || Nat.eqb n 32 || Nat.eqb n 160)%bool.

Fixpoint trimStart (s : string) : string :=
  match s with
  | EmptyString => EmptyString
  | String a r => if is_space a then trimStart r else s
  end.

Fixpoint trimEnd (s : string) : string :=
  match s with
  | EmptyString => EmptyString
  | String a r =>
      match trimEnd r with
      | EmptyString => if is_space a then EmptyString else String a EmptyString
      | r' => String a r'
      end
  end.

Definition trim (s : string) : string := trimEnd (trimStart s).

Definition newline : ascii := ascii_of_nat 10.

End JsString.

(* ================================================================== *)
(** * The chunker: [createTextChunks] *)
(* ================================================================== *)

Module Chunker.

Import JsNumber JsString.

(** An element of the [chunks] array. *)
Record Chunk := mkChunk {
  text : string;
  startIndex : Z;
  length : Z
}.

(** What the function returns: [{success: true, chunks, totalChunks,
    originalText, metadata}] or, from the [catch], [{success: false,
    error}]. *)
Inductive ChunkResult (M : Type) :=
| Success (chunks : list Chunk) (totalChunks : Z) (originalText : string) (metadata : M)
| Failure (error : string).
Arguments Success {M}.
Arguments Failure {M}.

(** The loop variables. *)
Record LoopState := mkState {
  cursor : Z;            (* [startIndex] *)
  pushed : list Chunk    (* [chunks], in push order *)
}.

(** [point > startIndex + chunkSize * 0.7], in doubles. *)
Definition in_last_30 (startIndex chunkSize point : Z) : bool :=
  gt (of_Z point) (add (of_Z startIndex) (mul (of_Z chunkSize) lit_0_7)).

(** [Math.max(...breakPoints)] on a non-empty array of integers. *)
Definition max_of (first : Z) (rest : list Z) : Z := fold_left Z.max rest first.

(** The sentence-boundary search: the four [lastIndexOf] results on the
    window, filtered by the threshold. *)
Definition breakPoints (chunk : string) (startIndex chunkSize : Z) : list Z :=
  let lastPeriod := lastIndexOf chunk "."%char in
  let lastQuestion := lastIndexOf chunk "?"%char in
  let lastExclamation := lastIndexOf chunk "!"%char in
  let lastNewline := lastIndexOf chunk newline in
  filter (in_last_30 startIndex chunkSize)
         [lastPeriod; lastQuestion; lastExclamation; lastNewline].

(** The first half of the loop body: the chunk text before trimming and the
    value of [startIndex] after the cut. *)
Definition cut (txt : string) (chunkSize startIndex : Z) : string * Z :=
  let endIndex := Z.min (startIndex + chunkSize) (len txt) in
  let chunk := slice txt startIndex endIndex in
  if endIndex <? len txt then
    match breakPoints chunk startIndex chunkSize with
    | p :: ps =>
        let bestBreak := max_of p ps in
        (slice txt startIndex (bestBreak + 1), bestBreak + 1)
    | [] => (chunk, endIndex)
    end
  else (chunk, endIndex).

(** One iteration of the [while] loop. *)
Definition loop_body (txt : string) (chunkSize overlap : Z) (st : LoopState) : LoopState :=
  let '(chunk, startIndex) := cut txt chunkSize (cursor st) in
  let chunk := trim chunk in
  let chunks :=
    if 0 <? len chunk
    then (pushed st ++ [mkChunk chunk startIndex (len chunk)])%list
    else pushed st in
  let startIndex :=
    if startIndex <? len txt then Z.max 0 (startIndex - overlap) else startIndex in
  mkState startIndex chunks.

(** [while (startIndex < text.length) { ... }]; [None] when the fuel runs
    out before the guard fails. *)
Fixpoint while_loop (fuel : nat) (txt : string) (chunkSize overlap : Z)
         (st : LoopState) : option LoopState :=
  if cursor st <? len txt then
    match fuel with
    | O => None
    | S fuel' => while_loop fuel' txt chunkSize overlap (loop_body txt chunkSize overlap st)
    end
  else Some st.

(** [createTextChunks(text, chunkSize, overlap, metadata)].  Nothing in the
    [try] block throws on a string, so the [catch] branch is never taken. *)
Definition createTextChunks {M : Type} (fuel : nat) (txt : string)
           (chunkSize overlap : Z) (metadata : M) : option (ChunkResult M) :=
  match while_loop fuel txt chunkSize overlap (mkState 0 []) with
  | Some st => Some (Success (pushed st) (Z.of_nat (List.length (pushed st))) txt metadata)
  | None => None
  end.

Definition texts_of {M : Type} (r : option (ChunkResult M)) : list string :=
  match r with
  | Some (Success cs _ _ _) => map text cs
  | _ => []
  end.

Definition is_failure {M : Type} (r : ChunkResult M) : bool :=
  match r with
  | Failure _ => true
  | Success _ _ _ _ => false
  end.

(** The chunks pushed for a text that fits in one window. *)
Definition single_chunk (txt : string) : list Chunk :=
  if 0 <? len (trim txt) then [mkChunk (trim txt) (len txt) (len (trim txt))] else [].

(** ** The cut as the specification words it

    In a window that does not reach the end of the text, the rightmost of
    [.], [?], [!] and newline in the last 30% of the window ends the chunk
    (inclusive); without one the chunk ends at the hard boundary. *)
Definition is_boundary (a : ascii) : bool :=
  (Ascii.eqb a "." || Ascii.eqb a "?" || Ascii.eqb a "!" || Ascii.eqb a newline)%bool.

(** Offsets of a window of [chunkSize] characters that lie in its last 30%:
    those beyond seven tenths of [chunkSize]. *)
Definition spec_in_tail (chunkSize offset : Z) : bool := 7 * chunkSize <? 10 * offset.

Fixpoint spec_rightmost (window : string) (chunkSize offset : Z) (best : option Z)
  : option Z :=
  match window with
  | EmptyString => best
  | String a r =>
      spec_rightmost r chunkSize (offset + 1)
        (if (is_boundary a && spec_in_tail chunkSize offset)%bool
         then Some offset else best)
  end.

Definition spec_cut (txt : string) (chunkSize startIndex : Z) : Z :=
  let window := slice txt startIndex (startIndex + chunkSize) in
  match spec_rightmost window chunkSize 0 None with
  | Some offset => startIndex + offset + 1
  | None => startIndex + chunkSize
  end.

End Chunker.

(* ================================================================== *)
(** * The embedder: [embedText], [embedBatch], [similarity] *)
(* ================================================================== *)

Module Embeddings.

Import JsNumber.

Definition Embedding := list number.

(** A JavaScript value used where an embedding array is expected. *)
Inductive EmbeddingSlot :=
| Vector (v : Embedding)
| Null
| Undefined.

Inductive EmbedResult :=
| EmbedOk (embedding : Embedding) (dimensions : Z)
| EmbedError (error : string).

Inductive BatchResult :=
| BatchOk (embeddings : list EmbeddingSlot) (count : Z)
| BatchError (error : string).

Inductive SimilarityResult :=
| SimilarityOk (similarity : number)
| SimilarityError (error : string).

Section Embedder.

(** [createSimpleEmbedding]: the hand-built feature vector.  It is total
    on strings; its entries involve [Math.sin], which the language
    leaves to the platform, so it is taken as given here. *)
Variable createSimpleEmbedding : string -> Embedding.

(** [embedText(text)]; [None] stands for a value that is not a string.
    The guard is [!text || typeof text !== 'string']. *)
Definition embedText (text : option string) : EmbedResult :=
  match text with
  | Some (String a r) =>
      let embedding := createSimpleEmbedding (String a r) in
      EmbedOk embedding (Z.of_nat (List.length embedding))
  | _ => EmbedError "Invalid text input for embedding"
  end.

(** The [for (const text of texts)] loop of [embedBatch]. *)
Definition embedEach (texts : list (option string)) : list EmbeddingSlot :=
  map (fun text =>
         match embedText text with
         | EmbedOk embedding _ => Vector embedding
         | EmbedError _ => Null
         end) texts.

Definition embedBatch (texts : list (option string)) : BatchResult :=
  match texts with
  | [] => BatchError "Invalid texts array for batch embedding"
  | _ =>
      let embeddings := embedEach texts in
      BatchOk embeddings (Z.of_nat (List.length embeddings))
  end.

End Embedder.

(** The accumulation loop of [similarity]: [dotProduct], [norm1], [norm2]
    over the indices of [embedding1] (the lengths are equal when it
    runs). *)
Fixpoint accumulate (e1 e2 : Embedding) (acc : number * number * number)
  : number * number * number :=
  match e1, e2 with
  | a :: r1, b :: r2 =>
      let '(dotProduct, norm1, norm2) := acc in
      accumulate r1 r2
        (add dotProduct (mul a b), add norm1 (mul a a), add norm2 (mul b b))
  | _, _ => acc
  end.

(** [Math.max(0, Math.min(1, similarity))]. *)
Definition clamp01 (x : number) : number := math_max zero (math_min one x).

(** [similarity(embedding1, embedding2)]; [None] is an absent (falsy)
    argument. *)
Definition similarity (embedding1 embedding2 : option Embedding) : SimilarityResult :=
  match embedding1, embedding2 with
  | Some e1, Some e2 =>
      if negb (Nat.eqb (List.length e1) (List.length e2))
      then SimilarityError "Embeddings must have the same dimensions"
      else
        let '(dotProduct, norm1, norm2) := accumulate e1 e2 (zero, zero, zero) in
        let sim := div dotProduct (mul (sqrt norm1) (sqrt norm2)) in
        SimilarityOk (clamp01 sim)
  | _, _ => SimilarityError "Both embeddings are required for similarity calculation"
  end.

(** The closed interval [0,1] on doubles; NaN is outside. *)
Definition in_unit_interval (x : number) : bool := le zero x && le x one.

End Embeddings.

(* ================================================================== *)
(** * The vector store client: [addDocuments] *)
(* ================================================================== *)

Module VectorStore.

Import Embeddings.

Record Metadata := mkMetadata {
  filename : option string;
  fileType : option string;
  chunkIndex : option Z;
  uploadDate : option string;
  fileSize : option Z
}.

(** An element of the [documents] array. *)
Record Document := mkDocument {
  id : option string;
  text : option string;
  embedding : EmbeddingSlot;
  metadata : Metadata
}.

Inductive AddResult :=
| AddOk (count : Z)
| AddError (error : string).

(** Truthiness of a string-valued field: absent and [""] are falsy. *)
Definition truthy_string (s : option string) : bool :=
  match s with
  | Some (String _ _) => true
  | _ => false
  end.

(** Truthiness of an embedding slot: every array is truthy. *)
Definition truthy_slot (e : EmbeddingSlot) : bool :=
  match e with
  | Vector _ => true
  | _ => false
  end.

(** The negation of the skip test [!doc.id || !doc.text || !doc.embedding]. *)
Definition valid_document (doc : Document) : bool :=
  truthy_string (id doc) && truthy_string (text doc) && truthy_slot (embedding doc).

Section Store.

(** [await this.collection.add({ids, documents, metadatas, embeddings})]:
    the call to the database.  [None] when it resolves, [Some message]
    when it throws. *)
Variable collection_add : list Document -> option string.

Definition addDocuments (documents : list Document) : AddResult :=
  match documents with
  | [] => AddError "Invalid documents array"
  | _ =>
      let kept := filter valid_document documents in
      match kept with
      | [] => AddError "No valid documents to add"
      | _ =>
          match collection_add kept with
          | Some message => AddError message
          | None => AddOk (Z.of_nat (List.length kept))
          end
      end
  end.

End Store.

End VectorStore.

(* ================================================================== *)
(** * The RAG service: [prepareContext], [addDocumentToKnowledgeBase] *)
(* ================================================================== *)

Module Rag.

Import JsNumber Embeddings VectorStore.

Definition nl : string := String JsString.newline EmptyString.

(** [`${n}`] for an integer [n]. *)
Definition decimal (n : Z) : string := NilZero.string_of_int (Z.to_int n).

(** The integer value of a double, when it has one. *)
Definition integer_value (x : number) : option Z :=
  match x with
  | S754_zero _ => Some 0
  | S754_finite s m e =>
      let sm := if s then Z.neg m else Z.pos m in
      if 0 <=? e then Some (sm * 2 ^ e)
      else if sm mod 2 ^ (- e) =? 0 then Some (sm / 2 ^ (- e)) else None
  | _ => None
  end.

(** The result of a search, as [prepareContext] reads it. *)
Record SearchResult := mkSearchResult {
  results : option (list string);
  metadatas : list (option Metadata);
  distances : list (option number)
}.

Definition sentinel : string := "No relevant documents found in the knowledge base.".
Definition header : string := "Based on the following documents:" ++ nl ++ nl.

(** [searchResult.metadatas[index] || {}]. *)
Definition metadata_at (sr : SearchResult) (index : nat) : Metadata :=
  match nth_error (metadatas sr) index with
  | Some (Some m) => m
  | _ => mkMetadata None None None None None
  end.

(** [searchResult.distances[index] || 0]. *)
Definition distance_at (sr : SearchResult) (index : nat) : number :=
  match nth_error (distances sr) index with
  | Some (Some d) => if truthy d then d else zero
  | _ => zero
  end.

(** [Math.round((1 - distance) * 100)]. *)
Definition relevance_of (distance : number) : number :=
  math_round (mul (sub one distance) hundred).

Section Context.

(** [`${x}`] for a double that is not an integer of magnitude at most
    2^53, NaN or an infinity: the language's number-to-string conversion
    with its shortest round-trip digits, fraction and exponent forms. *)
Variable other_number_to_string : number -> string.

(** [`${x}`].  An integer of magnitude at most 2^53 is written with all its
    digits: consecutive doubles are at most 1 apart there, so no shorter
    numeral reads back as the same double. *)
Definition number_to_string (x : number) : string :=
  match x with
  | S754_nan => "NaN"
  | S754_infinity false => "Infinity"
  | S754_infinity true => "-Infinity"
  | _ =>
      match integer_value x with
      | Some n =>
          if Z.abs n <=? 2 ^ 53 then decimal n else other_number_to_string x
      | None => other_number_to_string x
      end
  end.

(** The body of the [forEach] callback: the text appended to [context]
    for [doc] at [index]. *)
Definition appended (sr : SearchResult) (index : nat) (doc : string) : string :=
  let metadata := metadata_at sr index in
  let distance := distance_at sr index in
  let relevance := relevance_of distance in
  let s1 := "Document " ++ decimal (Z.of_nat index + 1) ++ " ("
            ++ number_to_string relevance ++ "% relevant" in
  let s2 := match filename metadata with
            | Some (String a r) => s1 ++ ", from: " ++ String a r
            | _ => s1
            end in
  s2 ++ "):" ++ nl ++ doc ++ nl ++ nl.

(** [results.forEach((doc, index) => { context += ... })]. *)
Fixpoint forEach (sr : SearchResult) (docs : list string) (index : nat)
         (context : string) : string :=
  match docs with
  | [] => context
  | doc :: rest =>
      (forEach sr rest (S index) (context ++ appended sr index doc))%string
  end.

Definition prepareContext (sr : SearchResult) : string :=
  match results sr with
  | None | Some [] => sentinel
  | Some docs => forEach sr docs 0%nat header
  end.

(** ** The context as the specification words it

    A result set is a list of results, each with its text, its distance
    and the filename of its metadata, where the store supplied them.  The
    context is the sentinel for an empty set, else the header and a numbered
    list: entry [i] (from 1) carries the relevance percentage
    [round((1 - distance_i) * 100)] and, when there is one, the filename. *)
Record Entry := mkEntry {
  entry_text : string;
  entry_distance : option number;
  entry_filename : option string
}.

Definition filename_of (m : option Metadata) : option string :=
  match m with
  | Some m => filename m
  | None => None
  end.

(** The result set held by the three arrays of a search result: the texts,
    each with the metadata and the distance at its own position. *)
Fixpoint entries_of (docs : list string) (mds : list (option Metadata))
         (ds : list (option number)) : list Entry :=
  match docs with
  | [] => []
  | doc :: docs' =>
      mkEntry doc
              (match ds with d :: _ => d | [] => None end)
              (match mds with m :: _ => filename_of m | [] => None end)
        :: entries_of docs' (tl mds) (tl ds)
  end.

Definition spec_annotation (name : option string) : string :=
  match name with
  | Some (String a r) => ", from: " ++ String a r
  | _ => ""
  end.

(** One entry of the list; [read] says which number a result's distance
    stands for. *)
Definition spec_entry (read : option number -> number) (position : Z) (e : Entry)
  : string :=
  "Document " ++ decimal position ++ " ("
    ++ number_to_string (math_round (mul (sub one (read (entry_distance e))) hundred))
    ++ "% relevant" ++ spec_annotation (entry_filename e)
    ++ "):" ++ nl ++ entry_text e ++ nl ++ nl.

Fixpoint spec_entries (read : option number -> number) (position : Z)
         (es : list Entry) : list string :=
  match es with
  | [] => []
  | e :: rest => spec_entry read position e :: spec_entries read (position + 1) rest
  end.

Definition join (parts : list string) : string := fold_right append "" parts.

Definition spec_context_with (read : option number -> number) (sr : SearchResult)
  : string :=
  match results sr with
  | None | Some [] => sentinel
  | Some docs =>
      header ++ join (spec_entries read 1 (entries_of docs (metadatas sr) (distances sr)))
  end.

(** The distance as it is: in arithmetic a missing one is NaN. *)
Definition as_given (d : option number) : number :=
  match d with
  | Some d => d
  | None => S754_nan
  end.

(** The distance with a missing one and NaN counted as 0. *)
Definition or_zero (d : option number) : number :=
  match d with
  | Some d => if is_nan d then zero else d
  | None => zero
  end.

(** A result whose distance is there and is a number. *)
Definition measured (e : Entry) : bool :=
  match entry_distance e with
  | Some d => negb (is_nan d)
  | None => false
  end.

(** The context with every distance as it is. *)
Definition claimed_context : SearchResult -> string := spec_context_with as_given.

(** The context with a missing or NaN distance counted as 0. *)
Definition spec_context : SearchResult -> string := spec_context_with or_zero.

End Context.

(** A chunk as [parseDocumentChunks] produces it and the upload route
    passes it on; [None] in [text] is a value that is not a string. *)
Record DocumentChunk := mkDocumentChunk {
  chunk_id : option string;
  chunk_text : option string;
  chunk_filename : option string;
  chunk_fileType : option string;
  chunk_chunkIndex : option Z;
  chunk_uploadDate : option string;
  chunk_fileSize : option Z
}.

Inductive IngestResult :=
| IngestOk (chunksAdded totalChunks : Z)
| IngestError (error : string).

Section Ingest.

Variable createSimpleEmbedding : string -> Embedding.
Variable collection_add : list Document -> option string.

(** [documentChunks.map((chunk, index) => ({...})).filter(doc =>
    doc.embedding !== null)]; an index beyond [embeddings] reads
    [undefined]. *)
Fixpoint zip_documents (chunks : list DocumentChunk) (index : nat)
         (embeddings : list EmbeddingSlot) : list Document :=
  match chunks with
  | [] => []
  | chunk :: rest =>
      mkDocument (chunk_id chunk) (chunk_text chunk)
                 (nth index embeddings Undefined)
                 (mkMetadata (chunk_filename chunk) (chunk_fileType chunk)
                             (chunk_chunkIndex chunk) (chunk_uploadDate chunk)
                             (chunk_fileSize chunk))
        :: zip_documents rest (S index) embeddings
  end.

Definition not_null (doc : Document) : bool :=
  match embedding doc with
  | Null => false
  | _ => true
  end.

Definition prepareDocuments (chunks : list DocumentChunk)
           (embeddings : list EmbeddingSlot) : list Document :=
  filter not_null (zip_documents chunks 0 embeddings).

(** The documents handed to the store for [documentChunks]. *)
Definition documentsFor (documentChunks : list DocumentChunk) : list Document :=
  prepareDocuments documentChunks
    (embedEach createSimpleEmbedding (map chunk_text documentChunks)).

Definition addDocumentToKnowledgeBase (documentChunks : list DocumentChunk)
  : IngestResult :=
  match documentChunks with
  | [] => IngestError "Invalid document chunks provided"
  | _ =>
      let texts := map chunk_text documentChunks in
      match embedBatch createSimpleEmbedding texts with
      | BatchError error => IngestError ("Failed to generate embeddings: " ++ error)
      | BatchOk embeddings _ =>
          let documents := prepareDocuments documentChunks embeddings in
          match addDocuments collection_add documents with
          | AddError error =>
              IngestError ("Failed to add documents to vector store: " ++ error)
          | AddOk count =>
              IngestOk count (Z.of_nat (List.length documentChunks))
          end
      end
  end.

(** Whether [embedText] succeeds on the chunk's text. *)
Definition embeds (chunk : DocumentChunk) : bool :=
  match embedText createSimpleEmbedding (chunk_text chunk) with
  | EmbedOk _ _ => true
  | EmbedError _ => false
  end.

(** The document built from a chunk whose text was embedded. *)
Definition document_of (chunk : DocumentChunk) : Document :=
  mkDocument (chunk_id chunk) (chunk_text chunk)
             (match embedText createSimpleEmbedding (chunk_text chunk) with
              | EmbedOk embedding _ => Vector embedding
              | EmbedError _ => Null
              end)
             (mkMetadata (chunk_filename chunk) (chunk_fileType chunk)
                         (chunk_chunkIndex chunk) (chunk_uploadDate chunk)
                         (chunk_fileSize chunk)).

(** The number of chunks whose batch-embedding result is [null]. *)
Definition failedCount (documentChunks : list DocumentChunk) : nat :=
  List.length
    (filter (fun e => match e with Null => true | _ => false end)
            (embedEach createSimpleEmbedding (map chunk_text documentChunks))).

End Ingest.

End Rag.

(* ================================================================== *)
(** * The runtime: clock, timers, random numbers, HTTP calls *)
(* ================================================================== *)

Module Runtime.

(** How an HTTP exchange ends: the server answers with a status, or no
    answer arrives and the client library reports a failure with its
    message. *)
Inductive Exchange :=
| Answered (status : Z)
| Failed (message : string).

(** How an [axios.post] settles. *)
Inductive HttpOutcome :=
| Resolved (status : Z)
| Rejected (message : string).

(** What the program can observe of its environment.  Time passes only
    where the lists say so: before a clock observation ([elapse]), while a
    timer is pending (its delay plus [lateness]) and while an HTTP call is
    in flight (its latency).  The clock is the wall clock: a negative entry
    of [elapse] is the clock being set back before the next observation.
    Timers fire no earlier than asked and a request takes no negative time:
    negative entries of [lateness] and negative latencies count as zero. *)
Record World := mkWorld {
  now : Z;                        (* milliseconds since the epoch *)
  elapse : list Z;                (* clock change before the next clock observations *)
  randoms : list string;          (* next values of [Math.random().toString(36).substr(2, 9)] *)
  lateness : list Z;              (* how late the next timers fire *)
  http : list (Exchange * Z)      (* ending and latency of the next HTTP exchanges *)
}.

Definition Run (A : Type) : Type := World -> A * World.

Definition ret {A : Type} (a : A) : Run A := fun w => (a, w).

Definition bind {A B : Type} (m : Run A) (k : A -> Run B) : Run B :=
  fun w => let '(a, w') := m w in k a w'.

Definition advance (d : Z) (w : World) : World :=
  mkWorld (now w + d) (elapse w) (randoms w) (lateness w) (http w).

(** [Date.now()], and the instant of [new Date()]. *)
Definition date_now : Run Z := fun w =>
  let w1 := advance (hd 0 (elapse w)) w in
  (now w1, mkWorld (now w1) (tl (elapse w)) (randoms w) (lateness w) (http w)).

(** [Math.random().toString(36).substr(2, 9)]. *)
Definition random36 : Run string := fun w =>
  (hd "" (randoms w),
   mkWorld (now w) (elapse w) (tl (randoms w)) (lateness w) (http w)).

(** [await new Promise(resolve => setTimeout(resolve, ms))]. *)
Definition sleep (ms : Z) : Run unit := fun w =>
  let w1 := advance (ms + Z.max 0 (hd 0 (lateness w))) w in
  (tt, mkWorld (now w1) (elapse w) (randoms w) (tl (lateness w)) (http w)).

(** A wall clock that is not set back before any of its next observations. *)
Definition steady_clock (w : World) : bool := forallb (Z.leb 0) (elapse w).

(** Computations after which a clock that was not set back still is not. *)
Definition keeps_steady {A : Type} (m : Run A) : Prop :=
  forall w, steady_clock w = true -> steady_clock (snd (m w)) = true.

Definition decimal (n : Z) : string := NilZero.string_of_int (Z.to_int n).

(** The client library's default [validateStatus]: the promise resolves for
    a status from 200 to 299 and rejects for any other. *)
Definition settle (exchange : Exchange) : HttpOutcome :=
  match exchange with
  | Answered status =>
      if (200 <=? status) && (status <? 300) then Resolved status
      else Rejected ("Request failed with status code " ++ decimal status)
  | Failed message => Rejected message
  end.

(** [await axios.post(url, payload, {timeout: 10000, ...})]: an exchange
    that has not ended after 10000 ms is aborted. *)
Definition axios_post : Run HttpOutcome := fun w =>
  match http w with
  | [] => (Rejected "Network Error", w)
  | (exchange, latency) :: rest =>
      if 10000 <? latency then
        (Rejected "timeout of 10000ms exceeded",
         mkWorld (now w + 10000) (elapse w) (randoms w) (lateness w) rest)
      else
        (settle exchange,
         mkWorld (now w + Z.max 0 latency) (elapse w) (randoms w) (lateness w) rest)
  end.

End Runtime.

Declare Scope run_scope.
Delimit Scope run_scope with run.
Notation "x <- m ;; k" := (Runtime.bind m (fun x => k))
  (at level 61, m at next level, right associativity) : run_scope.
Notation "m ;;; k" := (Runtime.bind m (fun _ => k))
  (at level 61, right associativity) : run_scope.

(* ================================================================== *)
(** * The webhook service: [triggerN8nTask], [processLongRunningTask] *)
(* ================================================================== *)

Module Webhooks.

Import JsNumber Runtime VectorStore.
Local Open Scope run_scope.

(** The service's fields, read from the environment at construction. *)
Record Config := mkConfig {
  n8nWebhookUrl : option string;
  flowiseWebhookUrl : option string;
  taskTimeout : Z
}.

(** The [taskData] object; timestamps are kept as instants. *)
Record TaskData := mkTaskData {
  td_message : string;
  td_timestamp : Z;
  td_type : string;
  td_taskId : option string
}.

(** The trigger envelope posted to the workflow engine. *)
Record Envelope := mkEnvelope {
  env_timestamp : Z;
  env_taskId : string;
  env_type : string;
  env_data : TaskData;
  env_source : string
}.

Inductive TriggerResult :=
| TriggerOk (taskId : string)
| TriggerError (error : string).

(** The simulated task result built by the polling loop. *)
Record TaskResult := mkTaskResult {
  res_taskId : string;
  res_status : string;
  res_processedData : TaskData;
  res_processingTime : Z;
  res_completedAt : Z
}.

(** An argument passed to [onProgress]. *)
Record Progress := mkProgress {
  pr_taskId : string;
  pr_status : string;
  pr_progress : number
}.

Inductive TaskOutcome :=
| TaskOk (taskId : string) (result : TaskResult) (flowiseNotified : bool)
| TaskError (error : string).

(** [generateTaskId()]: [`task_${Date.now()}_${Math.random()...}`]. *)
Definition generateTaskId : Run string :=
  t <- date_now ;;
  r <- random36 ;;
  ret ("task_" ++ decimal t ++ "_" ++ r).

(** Strings without the separator ["_"] of a task id. *)
Fixpoint no_underscore (s : string) : bool :=
  match s with
  | EmptyString => true
  | String c r => negb (Ascii.eqb c "_") && no_underscore r
  end.

(** [taskData.taskId || this.generateTaskId()]. *)
Definition taskId_or_fresh (taskId : option string) : Run string :=
  match taskId with
  | Some (String a r) => ret (String a r)
  | _ => generateTaskId
  end.

(** [triggerN8nTask] up to the point where the request is on its way:
    [None] when the URL is not configured (the function throws), else the
    envelope. *)
Definition triggerN8nTask_begin (cfg : Config) (taskData : TaskData)
  : Run (option Envelope) :=
  if truthy_string (n8nWebhookUrl cfg) then
    timestamp <- date_now ;;
    taskId <- taskId_or_fresh (td_taskId taskData) ;;
    ret (Some (mkEnvelope timestamp taskId "task_trigger" taskData "chatbot"))
  else ret None.

(** The rest of [triggerN8nTask]: the awaited response and the result.  The
    test of the status is the program's own; the client library has already
    rejected every status it would refuse. *)
Definition triggerN8nTask_finish (started : option Envelope) : Run TriggerResult :=
  match started with
  | None => ret (TriggerError "N8N webhook URL not configured")
  | Some payload =>
      response <- axios_post ;;
      match response with
      | Resolved status =>
          if (200 <=? status) && (status <? 300)
          then ret (TriggerOk (env_taskId payload))
          else ret (TriggerError ("N8N webhook returned status: " ++ decimal status))
      | Rejected message => ret (TriggerError message)
      end
  end.

Definition triggerN8nTask (cfg : Config) (taskData : TaskData) : Run TriggerResult :=
  started <- triggerN8nTask_begin cfg taskData ;;
  triggerN8nTask_finish started.

(** [notifyFlowiseTaskComplete(result)]: whether the notification succeeded. *)
Definition notifyFlowiseTaskComplete (cfg : Config) (result : TaskResult) : Run bool :=
  if truthy_string (flowiseWebhookUrl cfg) then
    _timestamp <- date_now ;;
    response <- axios_post ;;
    match response with
    | Resolved status => ret ((200 <=? status) && (status <? 300))
    | Rejected _ => ret false
    end
  else ret false.

(** [Math.min(100, ((Date.now() - startTime) / 5000) * 100)]. *)
Definition progress_of (elapsed : Z) : number :=
  math_min hundred (mul (div (of_Z elapsed) (of_Z 5000)) hundred).

(** [if (onProgress) onProgress({...})] when the callback, if there is one,
    returns; [onProgress] tells whether there is one, and the calls are
    collected.  A callback that may throw is [report_to] below. *)
Definition report (onProgress : bool) (startTime : Z) (taskId status : string)
           (events : list Progress) : Run (list Progress) :=
  if onProgress then
    t <- date_now ;;
    ret (events ++ [mkProgress taskId status (progress_of (t - startTime))])%list
  else ret events.

(** The polling loop with such a callback.  [Some (None, _)] is the exit
    with [taskCompleted] still false; the outer [None] is the fuel running
    out. *)
Fixpoint poll (fuel : nat) (timeout startTime : Z) (taskId : string)
         (taskData : TaskData) (onProgress : bool) (events : list Progress)
  : Run (option (option TaskResult * list Progress)) :=
  t <- date_now ;;
  if t - startTime <? timeout then
    match fuel with
    | O => ret None
    | S fuel' =>
        sleep 2000 ;;;
        t2 <- date_now ;;
        if 5000 <? t2 - startTime then
          t3 <- date_now ;;
          completedAt <- date_now ;;
          let result :=
            mkTaskResult taskId "completed" taskData (t3 - startTime) completedAt in
          events' <- report onProgress startTime taskId "completed" events ;;
          ret (Some (Some result, events'))
        else
          events' <- report onProgress startTime taskId "processing" events ;;
          poll fuel' timeout startTime taskId taskData onProgress events'
    end
  else ret (Some (None, events)).

(** Step 2 of [processLongRunningTask]: [startTime = Date.now()] and the
    loop.  The result carries [startTime]. *)
Definition waitForCompletion (fuel : nat) (cfg : Config) (taskId : string)
           (taskData : TaskData) (onProgress : bool)
  : Run (option (Z * option TaskResult * list Progress)) :=
  startTime <- date_now ;;
  polled <- poll fuel (taskTimeout cfg) startTime taskId taskData onProgress [] ;;
  match polled with
  | Some (result, events) => ret (Some (startTime, result, events))
  | None => ret None
  end.

(** ** Any callback

    What a call of [onProgress] does: it returns, or it throws an error
    with a message. *)
Inductive CallbackOutcome :=
| Returned
| Threw (message : string).

(** The [onProgress] argument: absent (or another falsy value), or a value
    that is called.  A called value is given by what each call does, as a
    function of the arguments of the calls made so far, the current one
    last; a value that is not a function throws at its first call. *)
Definition Callback := option (list Progress -> CallbackOutcome).

(** The callbacks of [report]. *)
Definition quiet (onProgress : bool) : Callback :=
  if onProgress then Some (fun _ => Returned) else None.

(** [if (onProgress) onProgress({...})]: the calls made, and the message of
    the error when the call throws. *)
Definition report_to (onProgress : Callback) (startTime : Z) (taskId status : string)
           (events : list Progress) : Run (list Progress * option string) :=
  match onProgress with
  | Some call =>
      t <- date_now ;;
      let events' :=
        (events ++ [mkProgress taskId status (progress_of (t - startTime))])%list in
      match call events' with
      | Returned => ret (events', None)
      | Threw message => ret (events', Some message)
      end
  | None => ret (events, None)
  end.

(** How the loop is left. *)
Inductive Waited :=
| Completed (result : TaskResult)   (* [taskCompleted] is true *)
| TimedOut                          (* the guard failed with [taskCompleted] false *)
| Interrupted (message : string).   (* [onProgress] threw *)

(** How the loop of [poll] is left. *)
Definition waited_of (result : option TaskResult) : Waited :=
  match result with
  | Some result => Completed result
  | None => TimedOut
  end.

(** The polling loop. *)
Fixpoint poll_calling (fuel : nat) (timeout startTime : Z) (taskId : string)
         (taskData : TaskData) (onProgress : Callback) (events : list Progress)
  : Run (option (Waited * list Progress)) :=
  t <- date_now ;;
  if t - startTime <? timeout then
    match fuel with
    | O => ret None
    | S fuel' =>
        sleep 2000 ;;;
        t2 <- date_now ;;
        if 5000 <? t2 - startTime then
          t3 <- date_now ;;
          completedAt <- date_now ;;
          let result :=
            mkTaskResult taskId "completed" taskData (t3 - startTime) completedAt in
          reported <- report_to onProgress startTime taskId "completed" events ;;
          match reported with
          | (events', Some message) => ret (Some (Interrupted message, events'))
          | (events', None) => ret (Some (Completed result, events'))
          end
        else
          reported <- report_to onProgress startTime taskId "processing" events ;;
          match reported with
          | (events', Some message) => ret (Some (Interrupted message, events'))
          | (events', None) =>
              poll_calling fuel' timeout startTime taskId taskData onProgress events'
          end
    end
  else ret (Some (TimedOut, events)).

(** [processLongRunningTask] after the synchronous start of the trigger.
    Every [throw] of the [try] block ends in the [catch], which returns the
    error's message. *)
Definition processLongRunningTask_continue (fuel : nat) (cfg : Config)
           (taskData : TaskData) (onProgress : Callback) (started : option Envelope)
  : Run (option (TaskOutcome * list Progress)) :=
  triggerResult <- triggerN8nTask_finish started ;;
  match triggerResult with
  | TriggerError error => ret (Some (TaskError ("Failed to trigger task: " ++ error), []))
  | TriggerOk taskId =>
      startTime <- date_now ;;
      polled <- poll_calling fuel (taskTimeout cfg) startTime taskId taskData
                             onProgress [] ;;
      match polled with
      | None => ret None
      | Some (Interrupted message, events) => ret (Some (TaskError message, events))
      | Some (TimedOut, events) => ret (Some (TaskError "Task timeout exceeded", events))
      | Some (Completed result, events) =>
          notified <- notifyFlowiseTaskComplete cfg result ;;
          ret (Some (TaskOk taskId result notified, events))
      end
  end.

Definition processLongRunningTask (fuel : nat) (cfg : Config)
           (taskData : TaskData) (onProgress : Callback)
  : Run (option (TaskOutcome * list Progress)) :=
  started <- triggerN8nTask_begin cfg taskData ;;
  processLongRunningTask_continue fuel cfg taskData onProgress started.

End Webhooks.

(* ================================================================== *)
(** * The chat route: [handleLongRunningTask] *)
(* ================================================================== *)

Module ChatRoute.

Import Runtime Webhooks.
Local Open Scope run_scope.

(** The JSON body of the immediate response. *)
Record Response := mkResponse {
  resp_success : bool;
  resp_message : string;
  resp_taskId : string;
  resp_status : string
}.

(** What has happened when the response is returned. *)
Record Started := mkStarted {
  st_response : Response;
  st_taskData : TaskData;         (* the payload handed to the orchestration *)
  st_envelope : option Envelope   (* the envelope on its way, if any *)
}.

(** [handleLongRunningTask(message)].  The call to
    [processLongRunningTask] is not awaited: it runs up to its first
    pending request, then the response is built. *)
Definition handleLongRunningTask (cfg : Config) (message : string) : Run Started :=
  timestamp <- date_now ;;
  let taskData := mkTaskData message timestamp "long-running-task" None in
  started <- triggerN8nTask_begin cfg taskData ;;
  taskId <- taskId_or_fresh (td_taskId taskData) ;;
  ret (mkStarted (mkResponse true "Processing started..." taskId "processing")
                 taskData started).

End ChatRoute.


(* ================================================================== *)
(** * Vocabulary for facts about numbers *)
(* ================================================================== *)

Module JsNumberSpec.

(** Doubles that are not negative numbers: NaN, the zeros, and the
    positive finite and infinite values. *)
Definition not_negative (x : spec_float) : Prop :=
  match x with
  | S754_infinity s | S754_finite s _ _ => s = false
  | _ => True
  end.

End JsNumberSpec.

(* ================================================================== *)
(** * Vocabulary for the chunker's invariants *)
(* ================================================================== *)

Module ChunkerSpec.

Import JsString Chunker.

(** [c] occurs in [txt] as a run of consecutive characters. *)
Definition piece_of (c txt : string) : Prop :=
  exists before after, txt = (before ++ c ++ after)%string.

(** Whether a sentence boundary ([.], [?], [!] or newline) occurs in [s]. *)
Fixpoint has_boundary (s : string) : bool :=
  match s with
  | EmptyString => false
  | String a r => is_boundary a || has_boundary r
  end.

(** What every pushed chunk satisfies, whatever the parameters. *)
Definition sound_chunk (txt : string) (c : Chunk) : Prop :=
  text c <> ""
  /\ trim (text c) = text c
  /\ length c = len (text c)
  /\ piece_of (text c) txt.

(** What every pushed chunk satisfies when [chunkSize] is positive. *)
Definition bounded_chunk (txt : string) (chunkSize : Z) (c : Chunk) : Prop :=
  len (text c) <= chunkSize /\ 0 <= startIndex c <= len txt.

End ChunkerSpec.

(* ================================================================== *)
(** * Document parsing: [parseText], [parseMarkdown], [parsePDF] and the
      chunking entry points *)
(* ================================================================== *)

Module ParseDocuments.

Import JsString Chunker.

Definition CR : ascii := ascii_of_nat 13.
Definition LF : ascii := ascii_of_nat 10.
Definition SP : ascii := ascii_of_nat 32.

(** [s.replace(/\r\n/g, '\n')]. *)
Fixpoint replaceCRLF (s : string) : string :=
  match s with
  | EmptyString => EmptyString
  | String a rest =>
      match rest with
      | String b r =>
          if (Ascii.eqb a CR && Ascii.eqb b LF)%bool
          then String LF (replaceCRLF r)
          else String a (replaceCRLF rest)
      | EmptyString => String a EmptyString
      end
  end.

(** [s.replace(/\s+/g, ' ')]: every maximal run of white space becomes one
    space.  [inRun] tells that the previous character was white space. *)
Fixpoint collapseSpaces (s : string) (inRun : bool) : string :=
  match s with
  | EmptyString => EmptyString
  | String a r =>
      if is_space a
      then if inRun then collapseSpaces r true else String SP (collapseSpaces r true)
      else String a (collapseSpaces r false)
  end.

(** [s.replace(/\n\s*\n/g, '\n')]: a match runs from a newline to the last
    newline of the white space that follows it.  [pending] holds, once a
    newline has been read, the white space read since the last newline; a
    newline without a second one is written back unchanged. *)
Fixpoint squeezeNewlines (s : string) (pending : option string) : string :=
  match s with
  | EmptyString =>
      match pending with
      | Some held => String LF held
      | None => EmptyString
      end
  | String a r =>
      match pending with
      | None =>
          if Ascii.eqb a LF then squeezeNewlines r (Some EmptyString)
          else String a (squeezeNewlines r None)
      | Some held =>
          if Ascii.eqb a LF then squeezeNewlines r (Some EmptyString)
          else if is_space a then squeezeNewlines r (Some (held ++ String a EmptyString))
          else String LF (held ++ String a (squeezeNewlines r None))
      end
  end.

(** The cleaning chain of [parseText] and [parseMarkdown]. *)
Definition cleanText (text : string) : string :=
  trim (squeezeNewlines (collapseSpaces (replaceCRLF text) false) None).

(** The cleaning chain of [parsePDF] (no line-ending step). *)
Definition cleanPDFText (fullText : string) : string :=
  trim (squeezeNewlines (collapseSpaces fullText false) None).

(** A [Buffer]: its text as decoded by [toString('utf-8')] and its length in
    bytes. *)
Record Buffer := mkBuffer {
  decoded : string;
  byteLength : Z
}.

(** The [metadata] of a parse result. *)
Record ParseMetadata := mkParseMetadata {
  pageCount : option Z;
  textLength : Z;
  fileSize : Z
}.

Inductive ParseResult :=
| ParseOk (text : string) (metadata : ParseMetadata)
| ParseError (error : string).

(** [parseText(buffer)]; the guard is
    [!text || text.trim().length === 0]. *)
Definition parseText (buffer : Buffer) : ParseResult :=
  let text := decoded buffer in
  if len (trim text) =? 0 then ParseError "No content found in text file"
  else
    let cleanedText := cleanText text in
    ParseOk cleanedText (mkParseMetadata None (len cleanedText) (byteLength buffer)).

(** [parseMarkdown(buffer)]. *)
Definition parseMarkdown (buffer : Buffer) : ParseResult :=
  let text := decoded buffer in
  if len (trim text) =? 0 then ParseError "No content found in Markdown file"
  else
    let cleanedText := cleanText text in
    ParseOk cleanedText (mkParseMetadata None (len cleanedText) (byteLength buffer)).

(** [items.map(item => item.str).join(' ')]. *)
Fixpoint joinItems (items : list string) : string :=
  match items with
  | [] => EmptyString
  | [item] => item
  | item :: rest => (item ++ String SP (joinItems rest))%string
  end.

(** The page loop of [parsePDF]: [fullText += pageText + '\n']. *)
Definition pagesText (pages : list (list string)) : string :=
  fold_left (fun fullText items => (fullText ++ joinItems items ++ String LF "")%string)
            pages EmptyString.

Section Parsers.

(** The PDF library: for a buffer, the text items of each page, or the
    message of the error it throws. *)
Variable pdf_pages : Buffer -> string + list (list string).

(** [parsePDF(buffer)]. *)
Definition parsePDF (buffer : Buffer) : ParseResult :=
  match pdf_pages buffer with
  | inl message => ParseError message
  | inr pages =>
      let fullText := pagesText pages in
      if len (trim fullText) =? 0 then ParseError "No text content found in PDF"
      else
        let cleanedText := cleanPDFText fullText in
        ParseOk cleanedText
                (mkParseMetadata (Some (Z.of_nat (List.length pages)))
                                 (len cleanedText) (byteLength buffer))
  end.

(** [parseTextChunks], [parseMarkdownChunks] and [parsePDFChunks]: parse,
    then chunk the cleaned text (the loop of [parsePDFChunks] is the loop of
    [createTextChunks], character for character). *)
Definition chunksOf (fuel : nat) (parsed : ParseResult) (chunkSize overlap : Z)
  : option (ChunkResult ParseMetadata) :=
  match parsed with
  | ParseError error => Some (Failure error)
  | ParseOk text metadata => createTextChunks fuel text chunkSize overlap metadata
  end.

Definition parseTextChunks (fuel : nat) (buffer : Buffer) (chunkSize overlap : Z) :=
  chunksOf fuel (parseText buffer) chunkSize overlap.

Definition parseMarkdownChunks (fuel : nat) (buffer : Buffer) (chunkSize overlap : Z) :=
  chunksOf fuel (parseMarkdown buffer) chunkSize overlap.

Definition parsePDFChunks (fuel : nat) (buffer : Buffer) (chunkSize overlap : Z) :=
  chunksOf fuel (parsePDF buffer) chunkSize overlap.

(** [c.toLowerCase()] on a code unit below 256: the letters A-Z and the
    capital letters of Latin-1. *)
Definition lower_char (a : ascii) : ascii :=
  let n := nat_of_ascii a in
  if ((65 <=? n) && (n <=? 90))%nat then ascii_of_nat (n + 32)
  else if ((192 <=? n) && (n <=? 222) && negb (n =? 215))%nat then ascii_of_nat (n + 32)
  else a.

Fixpoint toLowerCase (s : string) : string :=
  match s with
  | EmptyString => EmptyString
  | String a r => String (lower_char a) (toLowerCase r)
  end.

(** [getSupportedFileTypes()]. *)
Definition getSupportedFileTypes : list string :=
  ["pdf"; "md"; "markdown"; "txt"; "text"].

(** [supportedTypes.includes(fileType.toLowerCase())]. *)
Definition validateFileType (fileType : string) : bool :=
  existsb (String.eqb (toLowerCase fileType)) getSupportedFileTypes.

(** The branches of the [switch] on [fileType.toLowerCase()]. *)
Inductive Parser := PdfParser | MarkdownParser | TextParser.

Definition parser_for (fileType : string) : option Parser :=
  let t := toLowerCase fileType in
  if String.eqb t "pdf" then Some PdfParser
  else if (String.eqb t "md" || String.eqb t "markdown")%bool then Some MarkdownParser
  else if (String.eqb t "txt" || String.eqb t "text")%bool then Some TextParser
  else None.

(** A chunk with the file's data added by [parseDocumentChunks]. *)
Record EnrichedChunk := mkEnrichedChunk {
  e_text : string;
  e_startIndex : Z;
  e_length : Z;
  e_id : string;
  e_filename : string;
  e_fileType : string;
  e_chunkIndex : Z;
  e_uploadDate : string;
  e_fileSize : Z
}.

Inductive DocumentResult :=
| DocumentOk (chunks : list EnrichedChunk) (totalChunks : Z) (originalText : string)
             (metadata : ParseMetadata) (filename fileType uploadDate : string)
| DocumentError (error : string).

(** [uuidv4()] and [new Date().toISOString()] for the chunk at [index]; the
    last date is the one of the result's metadata. *)
Variable uuidv4 : nat -> string.
Variable isoDate : nat -> string.

(** [chunks.map((chunk, index) => ({...chunk, id: uuidv4(), ...}))]. *)
Fixpoint enrich (chunks : list Chunk) (index : nat) (filename fileType : string)
         (size : Z) : list EnrichedChunk :=
  match chunks with
  | [] => []
  | chunk :: rest =>
      mkEnrichedChunk (Chunker.text chunk) (Chunker.startIndex chunk)
                      (Chunker.length chunk) (uuidv4 index) filename fileType
                      (Z.of_nat index) (isoDate index) size
        :: enrich rest (S index) filename fileType size
  end.

(** [parseDocumentChunks(buffer, filename, fileType, chunkSize, overlap)];
    [None] for [buffer] is a value that is not a [Buffer]. *)
Definition parseDocumentChunks (fuel : nat) (buffer : option Buffer)
           (filename fileType : string) (chunkSize overlap : Z)
  : option DocumentResult :=
  match buffer with
  | None => Some (DocumentError "Invalid file buffer provided")
  | Some buffer =>
      match parser_for fileType with
      | None => Some (DocumentError ("Unsupported file type: " ++ fileType))
      | Some parser =>
          let chunkResult :=
            match parser with
            | PdfParser => parsePDFChunks fuel buffer chunkSize overlap
            | MarkdownParser => parseMarkdownChunks fuel buffer chunkSize overlap
            | TextParser => parseTextChunks fuel buffer chunkSize overlap
            end in
          match chunkResult with
          | None => None
          | Some (Failure error) => Some (DocumentError error)
          | Some (Success chunks _ originalText metadata) =>
              let lowered := toLowerCase fileType in
              let enrichedChunks :=
                enrich chunks 0 filename lowered (byteLength buffer) in
              Some (DocumentOk enrichedChunks
                               (Z.of_nat (List.length enrichedChunks))
                               originalText metadata filename lowered
                               (isoDate (List.length chunks)))
          end
      end
  end.

End Parsers.

(** ** What a chunking run determines

    The text and the boundaries of a chunk, with its position in the list:
    what a chunk holds apart from the id, the date and the file's data that
    [parseDocumentChunks] adds. *)
Definition chunk_outline (c : EnrichedChunk) : string * Z * Z * Z :=
  (e_text c, e_startIndex c, e_length c, e_chunkIndex c).

(** The outcome of a run apart from ids, dates and file names: the chunks'
    outlines in order, their count and the text they were cut from, or the
    error. *)
Definition result_outline (r : DocumentResult)
  : list (string * Z * Z * Z) * Z * string + string :=
  match r with
  | DocumentOk chunks totalChunks originalText _ _ _ _ =>
      inl (map chunk_outline chunks, totalChunks, originalText)
  | DocumentError error => inr error
  end.

(** The chunks of a result of [createTextChunks], with their count and the
    text they were cut from. *)
Definition chunks_of {M : Type} (r : ChunkResult M) : list Chunk * Z * string + string :=
  match r with
  | Success chunks totalChunks originalText _ => inl (chunks, totalChunks, originalText)
  | Failure error => inr error
  end.

(** ** Shapes of cleaned text *)

(** Every white-space character of [s] is a space followed by something
    that is not white space, and [s] does not begin with white space when
    [afterSpace] holds. *)
Fixpoint single_spaced (s : string) (afterSpace : bool) : bool :=
  match s with
  | EmptyString => true
  | String a r =>
      if is_space a
      then Ascii.eqb a SP && negb afterSpace && single_spaced r true
      else single_spaced r false
  end.

(** Whether [s] has a character that is not white space. *)
Fixpoint has_ink (s : string) : bool :=
  match s with
  | EmptyString => false
  | String a r => negb (is_space a) || has_ink r
  end.

(** Whether one of [.], [?], [!] occurs in [s]. *)
Fixpoint has_punctuation (s : string) : bool :=
  match s with
  | EmptyString => false
  | String a r =>
      (Ascii.eqb a "." || Ascii.eqb a "?" || Ascii.eqb a "!" || has_punctuation r)%bool
  end.

End ParseDocuments.

(* ================================================================== *)
(** * The embedder's feature vector: [hashCode], [createSimpleEmbedding] *)
(* ================================================================== *)

Module SimpleEmbedding.

Import JsNumber JsString Embeddings.

(** The conversion of bitwise operators: the integer congruent to [z] modulo
    2^32 in the range of 32-bit signed integers. *)
Definition to_int32 (z : Z) : Z := (z + 2 ^ 31) mod 2 ^ 32 - 2 ^ 31.

Definition charCode (a : ascii) : Z := Z.of_nat (nat_of_ascii a).

(** The body of the loop of [hashCode]:
    [hash = ((hash << 5) - hash) + char; hash = hash & hash]. *)
Definition hash_step (hash char : Z) : Z :=
  let hash := to_int32 (hash * 32) - hash + char in
  to_int32 hash.

Fixpoint hash_loop (str : string) (hash : Z) : Z :=
  match str with
  | EmptyString => hash
  | String a r => hash_loop r (hash_step hash (charCode a))
  end.

(** [hashCode(str)]: [Math.abs] of the final [hash]. *)
Definition hashCode (str : string) : Z := Z.abs (hash_loop str 0).

(** The polynomial [c0 * 31^(n-1) + c1 * 31^(n-2) + ... + c(n-1)] of the
    character codes, continued from [acc]. *)
Fixpoint polynomial31 (str : string) (acc : Z) : Z :=
  match str with
  | EmptyString => acc
  | String a r => polynomial31 r (31 * acc + charCode a)
  end.

(** The characters that [replace(/[^a-z0-9\s]/g, '')] keeps. *)
Definition kept (a : ascii) : bool :=
  let n := nat_of_ascii a in
  (((97 <=? n) && (n <=? 122)) || ((48 <=? n) && (n <=? 57)))%nat || is_space a.

Fixpoint strip (s : string) : string :=
  match s with
  | EmptyString => EmptyString
  | String a r => if kept a then String a (strip r) else strip r
  end.

(** [text.toLowerCase().replace(/[^a-z0-9\s]/g, '')]. *)
Definition normalizeText (text : string) : string :=
  strip (ParseDocuments.toLowerCase text).

(** Every character of [s] is one that the normalisation keeps. *)
Fixpoint all_kept (s : string) : bool :=
  match s with
  | EmptyString => true
  | String a r => kept a && all_kept r
  end.

(** The number of characters of [s] equal to [c]: [charFreq[c]] after the
    counting loop. *)
Fixpoint countChar (c : ascii) (s : string) : Z :=
  match s with
  | EmptyString => 0
  | String a r => (if Ascii.eqb a c then 1 else 0) + countChar c r
  end.

(** The number of maximal runs of characters satisfying [sep] in [s];
    [inRun] tells that the previous character satisfied it. *)
Fixpoint countRuns (sep : ascii -> bool) (s : string) (inRun : bool) : Z :=
  match s with
  | EmptyString => 0
  | String a r =>
      if sep a then (if inRun then 0 else 1) + countRuns sep r true
      else countRuns sep r false
  end.

(** [s.split(/\s+/).length]: one more than the number of runs of white
    space. *)
Definition wordPieces (s : string) : Z := 1 + countRuns is_space s false.

Definition is_sentence_mark (a : ascii) : bool :=
  (Ascii.eqb a "." || Ascii.eqb a "!" || Ascii.eqb a "?")%bool.

(** [s.split(/[.!?]+/).length]. *)
Definition sentencePieces (s : string) : Z := 1 + countRuns is_sentence_mark s false.

(** The characters matched by [\w]. *)
Definition is_word_char (a : ascii) : bool :=
  let n := nat_of_ascii a in
  (((97 <=? n) && (n <=? 122)) || ((65 <=? n) && (n <=? 90))
   || ((48 <=? n) && (n <=? 57)) || (n =? 95))%nat.

(** Whether [s] begins with [word] followed by the end of [s] or a
    character that [\w] does not match. *)
Fixpoint word_here (word s : string) : bool :=
  match word with
  | EmptyString =>
      match s with
      | EmptyString => true
      | String a _ => negb (is_word_char a)
      end
  | String w word' =>
      match s with
      | EmptyString => false
      | String a r => Ascii.eqb a w && word_here word' r
      end
  end.

(** The number of matches of [new RegExp(`\\b${word}\\b`, 'g')] in [s], for
    a [word] made of letters; [afterWord] tells that the previous character
    is matched by [\w]. *)
Fixpoint countWord (word s : string) (afterWord : bool) : Z :=
  match s with
  | EmptyString => 0
  | String a r =>
      (if negb afterWord && word_here word s then 1 else 0)
      + countWord word r (is_word_char a)
  end.

Definition alphabet : list ascii :=
  map ascii_of_nat (seq 97 26).

Definition commonWords : list string :=
  ["the"; "and"; "or"; "but"; "in"; "on"; "at"; "to"; "for"; "of"; "with"; "by"].

(** The literal [0.5]. *)
Definition half : number := S754_finite false 4503599627370496 (-53).

Section Sine.

(** [Math.sin], which the language leaves to the platform. *)
Variable math_sin : number -> number.

(** The array [embedding] before it is normalised. *)
Definition features (normalizedText : string) : list number :=
  let n := len normalizedText in
  let letters :=
    map (fun c => div (of_Z (countChar c normalizedText)) (of_Z (Z.max 1 n)))
        alphabet in
  let shape :=
    [math_min one (div (of_Z n) (of_Z 1000));
     div (of_Z (wordPieces normalizedText)) hundred;
     div (of_Z (sentencePieces normalizedText)) (of_Z 10)] in
  let words :=
    map (fun word =>
           div (of_Z (countWord word normalizedText false))
               (of_Z (Z.max 1 (wordPieces normalizedText))))
        commonWords in
  let textHash := hashCode normalizedText in
  let filler :=
    map (fun idx => add (mul (math_sin (of_Z (textHash + Z.of_nat idx))) half) half)
        (seq 41 343) in
  (letters ++ shape ++ words ++ filler)%list.

(** [Math.sqrt(embedding.reduce((sum, val) => sum + val * val, 0))]. *)
Definition magnitude (embedding : list number) : number :=
  sqrt (fold_left (fun sum val => add sum (mul val val)) embedding zero).

(** [createSimpleEmbedding(text)]. *)
Definition createSimpleEmbedding (text : string) : Embedding :=
  let embedding := features (normalizeText text) in
  let m := magnitude embedding in
  map (fun val => div val m) embedding.

End Sine.

End SimpleEmbedding.

(* ================================================================== *)
(** * The upload route *)
(* ================================================================== *)

Module UploadRoute.

Import JsString Chunker Embeddings VectorStore Rag ParseDocuments.

(** The uploaded file of the form. *)
Record File := mkFile {
  file_name : string;
  file_size : Z;
  file_bytes : Buffer
}.

(** [name.split('.').pop()]: what follows the last dot, the whole name when
    it has none.  [current] is the segment read so far. *)
Fixpoint lastSegment (name current : string) : string :=
  match name with
  | EmptyString => current
  | String a r =>
      if Ascii.eqb a "." then lastSegment r EmptyString
      else lastSegment r (current ++ String a EmptyString)
  end.

Inductive UploadResponse :=
| Upload400 (error : string)
| Upload500 (error details : string)
| Upload200 (filename fileType : string) (fileSize chunksProcessed totalChunks : Z)
            (metadata : ParseMetadata).

(** The fields of a chunk that [addDocumentToKnowledgeBase] reads. *)
Definition as_document_chunk (c : EnrichedChunk) : DocumentChunk :=
  mkDocumentChunk (Some (e_id c)) (Some (e_text c)) (Some (e_filename c))
                  (Some (e_fileType c)) (Some (e_chunkIndex c))
                  (Some (e_uploadDate c)) (Some (e_fileSize c)).

Section Route.

Variable pdf_pages : Buffer -> string + list (list string).
Variable uuidv4 : nat -> string.
Variable isoDate : nat -> string.
Variable createSimpleEmbedding : string -> Embedding.
Variable collection_add : list Document -> option string.

(** [parseInt(process.env.MAX_FILE_SIZE) || 10485760]. *)
Variable maxFileSize : Z.

(** [POST]: the file of the form, if any, to the response.  The chunker is
    called with its default [chunkSize] 1000 and [overlap] 200. *)
Definition POST (fuel : nat) (file : option File) : option UploadResponse :=
  match file with
  | None => Some (Upload400 "No file provided")
  | Some file =>
      let fileExtension := toLowerCase (lastSegment (file_name file) EmptyString) in
      if negb (validateFileType fileExtension)
      then Some (Upload400 "Unsupported file type")
      else if maxFileSize <? file_size file
      then Some (Upload400 "File too large")
      else
        match parseDocumentChunks pdf_pages uuidv4 isoDate fuel
                                  (Some (file_bytes file)) (file_name file)
                                  fileExtension 1000 200 with
        | None => None
        | Some (DocumentError error) =>
            Some (Upload500 "Failed to parse document" error)
        | Some (DocumentOk chunks totalChunks _ metadata _ _ _) =>
            match addDocumentToKnowledgeBase createSimpleEmbedding collection_add
                                             (map as_document_chunk chunks) with
            | IngestError error => Some (Upload500 "Failed to ingest document" error)
            | IngestOk chunksAdded _ =>
                Some (Upload200 (file_name file) fileExtension (file_size file)
                                chunksAdded totalChunks metadata)
            end
        end
  end.

End Route.

End UploadRoute.

(* ================================================================== *)
(** * The query pipeline: the store's [search], the LLM client's
      [generateResponse], [processQuery] *)
(* ================================================================== *)

Module RagQuery.

Import JsNumber Embeddings VectorStore Rag.

(** What [collection.query] gives: the message of the error it throws, or
    the first entries of [documents], [metadatas], [distances] and [ids]
    ([None] where an entry is missing). *)
Inductive QueryOutcome :=
| QueryThrew (message : string)
| QueryReturned (documents0 : option (list string))
                (metadatas0 : option (list (option Metadata)))
                (distances0 : option (list (option number)))
                (ids0 : option (list string)).

(** The successful result of [search]. *)
Record SearchHit := mkSearchHit {
  hit_results : list string;
  hit_metadatas : list (option Metadata);
  hit_distances : list (option number);
  hit_ids : list string
}.

Inductive SearchOutcome :=
| SearchOk (hit : SearchHit)
| SearchError (error : string).

(** A chat message. *)
Record Message := mkMessage {
  role : string;
  content : string
}.

(** The reply of the chat endpoint: the message of the error met, or the
    [message.content] of the answer ([None] when it has none). *)
Inductive ChatReply :=
| ChatFailed (error : string)
| ChatAnswered (content : option string).

(** What [generateResponse] returns: [content] is absent after a failure. *)
Record Generated := mkGenerated {
  gen_success : bool;
  gen_content : option string;
  gen_model : string
}.

Inductive QueryResult :=
| QueryOk (response : option string) (context : string) (sources : list string)
          (query : string) (documentsRetrieved : Z) (model : string)
| QueryError (error : string).

Section Pipeline.

Variable createSimpleEmbedding : string -> Embedding.
Variable collection_query : Embedding -> Z -> QueryOutcome.
Variable chat : list Message -> ChatReply.
Variable model : string.
Variable systemPrompt : string.
Variable other_number_to_string : number -> string.

Definition or_empty {A : Type} (entry : option (list A)) : list A :=
  match entry with
  | Some l => l
  | None => []
  end.

(** [search(query, k)] of the vector store, for [query = {embedding}];
    the guard is [!query || !query.embedding]. *)
Definition search (embedding : EmbeddingSlot) (k : Z) : SearchOutcome :=
  match embedding with
  | Vector v =>
      match collection_query v k with
      | QueryThrew message => SearchError message
      | QueryReturned documents0 metadatas0 distances0 ids0 =>
          SearchOk (mkSearchHit (or_empty documents0) (or_empty metadatas0)
                                (or_empty distances0) (or_empty ids0))
      end
  | _ => SearchError "Query must include embedding"
  end.

(** [generateResponse(messages, systemPrompt)] of the LLM client: the system
    prompt, when it is not empty, goes first. *)
Definition formatMessages (messages : list Message) (system : option string)
  : list Message :=
  match system with
  | Some (String a r) => mkMessage "system" (String a r) :: messages
  | _ => messages
  end.

Definition ollama_generateResponse (messages : list Message) (system : option string)
  : Generated :=
  match chat (formatMessages messages system) with
  | ChatFailed error => mkGenerated false None model
  | ChatAnswered content => mkGenerated true content model
  end.

(** [buildPrompt(query, context)]. *)
Definition buildPrompt (query context : string) : string :=
  ("Context:" ++ nl ++ context ++ nl ++ nl ++ "Question: " ++ query
   ++ nl ++ nl ++ "Answer:")%string.

(** The view of a search result that [prepareContext] reads. *)
Definition as_search_result (hit : SearchHit) : SearchResult :=
  mkSearchResult (Some (hit_results hit)) (hit_metadatas hit) (hit_distances hit).

(** [processQuery(query, k)]; [None] for [query] is a value that is not a
    string. *)
Definition processQuery (query : option string) (k : Z) : QueryResult :=
  match query with
  | Some (String a r) =>
      let query := String a r in
      match embedText createSimpleEmbedding (Some query) with
      | EmbedError error =>
          QueryError ("Failed to generate query embedding: " ++ error)
      | EmbedOk embedding _ =>
          match search (Vector embedding) k with
          | SearchError error => QueryError ("Failed to search documents: " ++ error)
          | SearchOk hit =>
              let context := prepareContext other_number_to_string (as_search_result hit) in
              let response :=
                ollama_generateResponse [mkMessage "user" (buildPrompt query context)]
                                        (Some systemPrompt) in
              QueryOk (gen_content response) context (hit_results hit) query
                      (Z.of_nat (List.length (hit_results hit))) (gen_model response)
          end
      end
  | _ => QueryError "Invalid query provided"
  end.

End Pipeline.

End RagQuery.

(* ================================================================== *)
(** * The trigger route *)
(* ================================================================== *)

Module TriggerRoute.

Import Runtime Webhooks VectorStore.
Local Open Scope run_scope.

(** What [await request.json()] gives. *)
Inductive Body :=
| Unparsable (message : string)          (* no body, or one that is not JSON: it throws *)
| Parsed (taskData : option TaskData).   (* [None]: not an object, such as [null] or [7] *)

Inductive TriggerResponse :=
| Trigger400 (error : string)
| Trigger500 (error details : string)
| Trigger200 (message taskId : string).

(** [POST]: the request's body to the response; the guard is
    [!taskData || !taskData.message], and the [catch] around the handler
    answers for a body that cannot be parsed. *)
Definition POST (cfg : Config) (body : Body) : Run TriggerResponse :=
  match body with
  | Unparsable message => ret (Trigger500 "Internal server error" message)
  | Parsed None => ret (Trigger400 "Task data with message is required")
  | Parsed (Some taskData) =>
      if truthy_string (Some (td_message taskData)) then
        result <- triggerN8nTask cfg taskData ;;
        match result with
        | TriggerError error => ret (Trigger500 "Failed to trigger task" error)
        | TriggerOk taskId => ret (Trigger200 "Task triggered successfully" taskId)
        end
      else ret (Trigger400 "Task data with message is required")
  end.

End TriggerRoute.

(* ================================================================== *)
(** * Vocabulary for the accuracy of the arithmetic *)
(* ================================================================== *)

Module Rounding.

Local Open Scope R_scope.

(** [2^e] as a real number. *)
Definition bpow (e : Z) : R := powerRZ 2 e.

(** The real number that a double stands for; 0 for NaN and the
    infinities, which [finite] tells apart. *)
Definition value (x : spec_float) : R :=
  match x with
  | S754_finite s m e => (if s then -1 else 1) * IZR (Z.pos m) * bpow e
  | _ => 0
  end.

Definition finite (x : spec_float) : bool :=
  match x with
  | S754_zero _ | S754_finite _ _ _ => true
  | _ => false
  end.

(** A double of magnitude at most 1. *)
Definition within_one (x : spec_float) : bool :=
  match x with
  | S754_zero _ => true
  | S754_finite _ m e => (e <=? 0)%Z && (Z.pos m <=? 2 ^ (- e))%Z
  | _ => false
  end.

(** Where a fraction [f] of a unit lies, as the rounding functions record
    it: at 0, below, at or above the middle. *)
Definition at_location (f : R) (l : location) : Prop :=
  match l with
  | loc_Exact => f = 0
  | loc_Inexact Lt => 0 < f < / 2
  | loc_Inexact Eq => f = / 2
  | loc_Inexact Gt => / 2 < f < 1
  end.

(** A shifted mantissa with its round and sticky bits stands for [v]. *)
Definition represents (mrs : shr_record) (v : R) : Prop :=
  (0 <= shr_m mrs)%Z /\ at_location (v - IZR (shr_m mrs)) (loc_of_shr_record mrs).

(** Half the distance from 1 to the next double, and half the smallest
    positive double. *)
Definition unit_roundoff : R := bpow (-53).
Definition tiny : R := bpow (-1075).

(** [r] is [x] up to one rounding. *)
Definition near (r x : R) : Prop :=
  Rabs (r - x) <= unit_roundoff * Rabs x + tiny.

(** What an operation delivers when it does not overflow: a double near
    the exact result, on the same side of zero. *)
Definition rounds_to (r : spec_float) (x : R) : Prop :=
  finite r = true
  /\ near (value r) x
  /\ (0 <= x -> 0 <= value r)
  /\ (x <= 0 -> value r <= 0).

(** The sum of the squares of the entries, and the Euclidean norm. *)
Definition sumsq (l : list spec_float) : R :=
  fold_right (fun x acc => value x * value x + acc) 0 l.

Definition norm (l : list spec_float) : R := R_sqrt.sqrt (sumsq l).

(** The smallest positive normal double. *)
Definition nu : R := bpow (-1022).

(** [s] is [t] up to the relative error [c], and [c] times [nu]. *)
Definition accurate (c s t : R) : Prop :=
  (1 - c) * t - c * nu <= s <= (1 + c) * t + c * nu.

(** A bound for the products of rounding errors. *)
Definition kappa : R := bpow (-800).

(** The loop of [reduce((sum, val) => sum + val * val, ...)], continued
    from [s]. *)
Definition sum_of_squares (fs : list spec_float) (s : spec_float) : spec_float :=
  fold_left (fun sum val => SFadd 53 1024 sum (SFmul 53 1024 val val)) fs s.

End Rounding.

(* ================================================================== *)
(** * Properties of the chunker *)
(* ================================================================== *)

Section ChunkerFacts.

Import JsNumber JsString Chunker.

Lemma substring_all (s : string) : substring 0 (String.length s) s = s.
Proof.
  induction s as [|a r IH]; simpl.
  - reflexivity.
  - now rewrite IH.
Qed.

Lemma len_nonneg (s : string) : 0 <= len s.
Proof. unfold len; lia. Qed.

Lemma slice_all (s : string) : slice s 0 (len s) = s.
Proof.
  unfold slice.
  pose proof (len_nonneg s) as Hn.
  replace (0 <? 0) with false by reflexivity.
  destruct (len s <? 0) eqn:E; [apply Z.ltb_lt in E; lia|].
  rewrite Z.min_l by lia. rewrite Z.min_id.
  rewrite Z.sub_0_r, Z.max_l by lia.
  unfold len. rewrite Nat2Z.id. apply substring_all.
Qed.

(** A text that fits in the window starting at 0 is taken whole. *)
Lemma cut_whole (txt : string) (chunkSize : Z) :
  len txt <= chunkSize -> cut txt chunkSize 0 = (txt, len txt).
Proof.
  intros Hfit. unfold cut.
  rewrite Z.add_0_l, Z.min_r by lia.
  rewrite Z.ltb_irrefl. now rewrite slice_all.
Qed.

(** More fuel does not change a run that has finished. *)
Lemma while_loop_more (fuel : nat) :
  forall txt chunkSize overlap st st',
    while_loop fuel txt chunkSize overlap st = Some st' ->
    forall extra, while_loop (fuel + extra) txt chunkSize overlap st = Some st'.
Proof.
  induction fuel as [|fuel IH]; intros txt chunkSize overlap st st' Hrun extra.
  - simpl in Hrun.
    destruct (cursor st <? len txt) eqn:Hguard; [discriminate|].
    destruct extra; simpl; now rewrite Hguard.
  - simpl in Hrun |- *.
    destruct (cursor st <? len txt); [|exact Hrun].
    now apply IH.
Qed.

Lemma while_loop_agree (f1 f2 : nat) txt chunkSize overlap st r1 r2 :
  while_loop f1 txt chunkSize overlap st = Some r1 ->
  while_loop f2 txt chunkSize overlap st = Some r2 ->
  r1 = r2.
Proof.
  intros H1 H2.
  apply while_loop_more with (extra := f2) in H1.
  apply while_loop_more with (extra := f1) in H2.
  rewrite Nat.add_comm in H2. congruence.
Qed.

(** The sample text of the specification, chunked with [chunkSize = 20] and
    [overlap = 5]: the only window that stops short of the end has its one
    full stop at offset 9, outside the last 30%, and is cut at the hard
    boundary, as the specification's rule also says. *)
Example sample_scenario :
  texts_of (createTextChunks 2 "A cat sat. A dog ran. The sun rose." 20 5 tt)
  = ["A cat sat. A dog ran"; "g ran. The sun rose."]
  /\ snd (cut "A cat sat. A dog ran. The sun rose." 20 0) = 20
  /\ spec_cut "A cat sat. A dog ran. The sun rose." 20 0 = 20.
Proof. repeat split; vm_compute; reflexivity. Qed.

(** C1 (defect in the code).  The second window of
    ["A cat sat on the mat and it ran. The sun rose."] with [chunkSize = 20]
    and [overlap = 5] starts at 15 and stops short of the end; its full stop
    is at offset 16 of 20, in the last 30%, so the chunk should end right
    after it, at 32.  The program compares the window-relative index 16 with
    the absolute threshold 15 + 14 and cuts at the hard boundary 35, inside
    the word "The". *)
Theorem cut_misses_boundary_in_later_window :
  let txt := "A cat sat on the mat and it ran. The sun rose." in
  15 + 20 < len txt
  /\ lastIndexOf (slice txt 15 35) "." = 16
  /\ spec_in_tail 20 16 = true
  /\ spec_cut txt 20 15 = 32
  /\ cut txt 20 15 = ("e mat and it ran. Th", 35)
  /\ texts_of (createTextChunks 3 txt 20 5 tt)
     = ["A cat sat on the mat"; "e mat and it ran. Th"; "n. The sun rose."].
Proof. cbv zeta. repeat split; vm_compute; reflexivity. Qed.

(** C2, as stated, fails: with [chunkSize = overlap = 5] the text ["hello"]
    is chunked successfully. *)
Lemma equal_size_and_overlap_accepted :
  5 <= 5
  /\ createTextChunks 1 "hello" 5 5 tt
     = Some (Success [mkChunk "hello" 5 5] 1 "hello" tt)
  /\ (exists r, createTextChunks 1 "hello" 5 5 tt = Some r /\ is_failure r = false).
Proof.
  split; [lia|]. split; [vm_compute; reflexivity|].
  eexists; split; [vm_compute; reflexivity|reflexivity].
Qed.

(** C2 (amended).  The chunker does not validate its parameters: with
    [chunkSize <= overlap] no run ends in a failure result, and a text that
    fits in one window is returned, trimmed, as the only chunk (no chunk at
    all when nothing is left after trimming). *)
Theorem chunker_never_rejects {M : Type} (txt : string) (chunkSize overlap : Z) (md : M) :
  chunkSize <= overlap ->
  (forall fuel r, createTextChunks fuel txt chunkSize overlap md = Some r ->
                  is_failure r = false)
  /\ (len txt <= chunkSize ->
      createTextChunks 1 txt chunkSize overlap md
      = Some (Success (single_chunk txt)
                      (Z.of_nat (List.length (single_chunk txt))) txt md)).
Proof.
  intros _. split.
  - intros fuel r Hrun. unfold createTextChunks in Hrun.
    destruct (while_loop fuel txt chunkSize overlap (mkState 0 [])); [|discriminate].
    injection Hrun as <-. reflexivity.
  - intros Hfit. unfold createTextChunks. simpl while_loop.
    destruct (0 <? len txt) eqn:Hlen.
    + unfold loop_body. simpl cursor. rewrite (cut_whole _ _ Hfit).
      rewrite Z.ltb_irrefl. simpl cursor. rewrite Z.ltb_irrefl.
      unfold single_chunk. simpl pushed.
      destruct (0 <? len (trim txt)); reflexivity.
    + assert (Hempty : txt = "").
      { apply Z.ltb_ge in Hlen. unfold len in Hlen.
        destruct txt; [reflexivity|simpl in Hlen; lia]. }
      subst txt. reflexivity.
Qed.

Lemma chunker_never_rejects_witness :
  11 <= 200
  /\ len "hello world" <= 11
  /\ createTextChunks 1 "hello world" 11 200 tt
     = Some (Success (single_chunk "hello world")
                     (Z.of_nat (List.length (single_chunk "hello world")))
                     "hello world" tt).
Proof.
  assert (Hle : 11 <= 200) by lia.
  assert (Hfit : len "hello world" <= 11) by (vm_compute; discriminate).
  split; [exact Hle|]. split; [exact Hfit|].
  exact (proj2 (chunker_never_rejects "hello world" 11 200 tt Hle) Hfit).
Defined.

(** One iteration on ["Stop now. Then continue reading."] with
    [chunkSize = 10] and [overlap = 9], from cursor 0: the full stop at
    index 8 passes the threshold 7, the cut is at 9, and stepping back by
    the overlap returns the cursor to 0. *)
Lemma stop_now_iteration (acc : list Chunk) :
  loop_body "Stop now. Then continue reading." 10 9 (mkState 0 acc)
  = mkState 0 (acc ++ [mkChunk "Stop now." 9 9])%list.
Proof.
  unfold loop_body. simpl cursor.
  replace (cut "Stop now. Then continue reading." 10 0) with ("Stop now.", 9)
    by (vm_compute; reflexivity).
  reflexivity.
Qed.

Lemma stop_now_loops (fuel : nat) :
  forall acc,
    while_loop fuel "Stop now. Then continue reading." 10 9 (mkState 0 acc) = None.
Proof.
  induction fuel as [|fuel IH]; intros acc.
  - reflexivity.
  - change (while_loop (S fuel) "Stop now. Then continue reading." 10 9 (mkState 0 acc))
      with (while_loop fuel "Stop now. Then continue reading." 10 9
              (loop_body "Stop now. Then continue reading." 10 9 (mkState 0 acc))).
    rewrite stop_now_iteration. apply IH.
Qed.

(** C3 (defect in the code).  With [chunkSize = 10 > overlap = 9 >= 0] the
    loop on ["Stop now. Then continue reading."] never ends: whatever the
    number of iterations allowed, the cursor is back at 0 after each one and
    the function does not return. *)
Theorem chunking_loops_forever {M : Type} (md : M) :
  forall fuel,
    createTextChunks fuel "Stop now. Then continue reading." 10 9 md = None.
Proof.
  intros fuel. unfold createTextChunks. now rewrite stop_now_loops.
Qed.

End ChunkerFacts.

(* ================================================================== *)
(** * Properties of the embedder *)
(* ================================================================== *)

Section EmbeddingsFacts.

Import JsNumber Embeddings.

Lemma SFltb_SFleb (a b : spec_float) : SFltb a b = true -> SFleb a b = true.
Proof.
  unfold SFltb, SFleb. destruct (SFcompare a b) as [[]|]; congruence.
Qed.

(** Whatever is not NaN is clamped into [0,1]. *)
Lemma clamp01_in_unit_interval (x : number) :
  is_nan x = false -> in_unit_interval (clamp01 x) = true.
Proof.
  intros Hx. unfold clamp01, math_min.
  replace (is_nan one) with false by reflexivity. rewrite Hx.
  replace one with (S754_finite false 4503599627370496 (-52)) by reflexivity.
  cbv beta iota. simpl orb. cbv iota.
  set (i := S754_finite false 4503599627370496 (-52)).
  destruct (lt x i) eqn:Hlt.
  - unfold math_max. replace (is_nan zero) with false by reflexivity. rewrite Hx.
    simpl orb. cbv iota. unfold zero at 1.
    destruct x as [s|s| |s m e]; try discriminate.
    + destruct s; reflexivity.
    + destruct s; vm_compute in Hlt; try discriminate; reflexivity.
    + destruct (lt zero (S754_finite s m e)) eqn:H0.
      * unfold in_unit_interval. unfold le, lt in *.
        rewrite (SFltb_SFleb _ _ H0).
        change one with i. rewrite (SFltb_SFleb _ _ Hlt). reflexivity.
      * reflexivity.
  - reflexivity.
Qed.

(** What [similarity] does outside the defective case. *)
Lemma similarity_absent (a : option Embedding) :
  similarity None a
  = SimilarityError "Both embeddings are required for similarity calculation"
  /\ similarity a None
     = SimilarityError "Both embeddings are required for similarity calculation".
Proof. split; [reflexivity|destruct a; reflexivity]. Qed.

Lemma similarity_dimension_mismatch (a b : Embedding) :
  List.length a <> List.length b ->
  similarity (Some a) (Some b)
  = SimilarityError "Embeddings must have the same dimensions".
Proof.
  intros Hne. unfold similarity.
  apply Nat.eqb_neq in Hne. now rewrite Hne.
Qed.

Lemma similarity_same_length (a b : Embedding) :
  List.length a = List.length b ->
  exists x, similarity (Some a) (Some b) = SimilarityOk x
            /\ (is_nan x = true \/ in_unit_interval x = true).
Proof.
  intros Heq. unfold similarity.
  apply Nat.eqb_eq in Heq. rewrite Heq. simpl negb. cbv iota.
  destruct (accumulate a b (zero, zero, zero)) as [[d n1] n2].
  eexists. split; [reflexivity|].
  set (q := div d (mul (sqrt n1) (sqrt n2))).
  destruct (is_nan q) eqn:Hq.
  - left. destruct q; try discriminate. reflexivity.
  - right. now apply clamp01_in_unit_interval.
Qed.

(** C6 (defect in the code).  For [a = [0, 0]] and [b = [1, 0]], both
    present and of the same length, the norm of [a] is 0, the quotient is
    0/0 and the clamp lets NaN through: the call succeeds with a value that
    is not in [0,1]. *)
Theorem similarity_zero_vector_not_clamped :
  similarity (Some [zero; zero]) (Some [one; zero]) = SimilarityOk S754_nan
  /\ in_unit_interval S754_nan = false
  /\ clamp01 S754_nan = S754_nan.
Proof. repeat split; vm_compute; reflexivity. Qed.

End EmbeddingsFacts.

(* ================================================================== *)
(** * Properties of the RAG service *)
(* ================================================================== *)

Section RagFacts.

Import JsNumber Embeddings VectorStore Rag.

Lemma append_assoc_string (a b c : string) : ((a ++ b) ++ c = a ++ (b ++ c))%string.
Proof.
  induction a as [|x a IH]; simpl.
  - reflexivity.
  - now rewrite IH.
Qed.

Section ContextFacts.

Variable big : number -> string.

Lemma append_nil_string (a : string) : (a ++ "")%string = a.
Proof. induction a as [|x a IH]; simpl; [reflexivity|now rewrite IH]. Qed.

(** Reading an array at [index] is reading the head of what is left after
    [index] elements. *)
Lemma nth_error_skipn {A : Type} (l : list A) :
  forall index,
    nth_error l index = match skipn index l with x :: _ => Some x | [] => None end.
Proof.
  induction l as [|x l IH]; intros [|index]; simpl; try reflexivity.
  apply IH.
Qed.

Lemma tl_skipn {A : Type} (l : list A) :
  forall index, tl (skipn index l) = skipn (S index) l.
Proof.
  induction l as [|x l IH]; intros [|index]; try reflexivity.
  simpl skipn at 1. rewrite IH. reflexivity.
Qed.

(** The percentage the program computes at [index] is the one of the
    distance held at that position, a missing one or NaN counted as 0.  (A
    zero distance of either sign gives 100: subtracting it from 1 gives 1.) *)
Lemma relevance_at (sr : SearchResult) (index : nat) :
  relevance_of (distance_at sr index)
  = math_round
      (mul (sub one (or_zero (match skipn index (distances sr) with
                              | d :: _ => d
                              | [] => None
                              end))) hundred).
Proof.
  unfold distance_at. rewrite nth_error_skipn.
  destruct (skipn index (distances sr)) as [|[d|] rest]; try reflexivity.
  unfold or_zero. destruct d as [s|s| |s m e]; reflexivity.
Qed.

Lemma filename_at (sr : SearchResult) (index : nat) :
  filename (metadata_at sr index)
  = match skipn index (metadatas sr) with
    | m :: _ => filename_of m
    | [] => None
    end.
Proof.
  unfold metadata_at. rewrite nth_error_skipn.
  destruct (skipn index (metadatas sr)) as [|[m|] rest]; reflexivity.
Qed.

(** The text appended for one result is the specification's entry for the
    result at that position. *)
Lemma appended_is_entry (sr : SearchResult) (index : nat) (doc : string) :
  appended big sr index doc
  = spec_entry big or_zero (Z.of_nat index + 1)
      (mkEntry doc
               (match skipn index (distances sr) with d :: _ => d | [] => None end)
               (match skipn index (metadatas sr) with
                | m :: _ => filename_of m
                | [] => None
                end)).
Proof.
  unfold appended, spec_entry, spec_annotation.
  cbn [entry_text entry_distance entry_filename].
  rewrite relevance_at, filename_at.
  destruct (match skipn index (metadatas sr) with
            | m :: _ => filename_of m
            | [] => None
            end) as [[|a r]|];
    repeat rewrite append_assoc_string; reflexivity.
Qed.

Lemma forEach_entries (sr : SearchResult) (docs : list string) :
  forall index context,
    forEach big sr docs index context
    = (context
       ++ join (spec_entries big or_zero (Z.of_nat index + 1)
                  (entries_of docs (skipn index (metadatas sr))
                              (skipn index (distances sr)))))%string.
Proof.
  induction docs as [|doc rest IH]; intros index context.
  - simpl. now rewrite append_nil_string.
  - cbn [forEach entries_of spec_entries join fold_right].
    rewrite IH, append_assoc_string, appended_is_entry.
    rewrite !tl_skipn.
    replace (Z.of_nat (S index) + 1) with (Z.of_nat index + 1 + 1) by lia.
    reflexivity.
Qed.

(** Where every result has a distance that is a number, the two readings
    of the distance give the same list. *)
Lemma spec_entries_measured (es : list Entry) :
  forall position,
    forallb measured es = true ->
    spec_entries big or_zero position es = spec_entries big as_given position es.
Proof.
  induction es as [|e es IH]; intros position Hall; [reflexivity|].
  simpl in Hall. apply andb_true_iff in Hall as [He Hes].
  cbn [spec_entries]. rewrite (IH _ Hes). f_equal.
  unfold spec_entry, measured in *.
  destruct (entry_distance e) as [d|]; [|discriminate].
  unfold or_zero, as_given. destruct (is_nan d); [discriminate|reflexivity].
Qed.

(** C9 (amended).  With no results the context is the sentinel; otherwise
    it is the header followed by one numbered entry per result, entry [i]
    carrying the text at position [i], the percentage
    [round((1 - distance_i) * 100)] of the distance at position [i], where a
    missing distance and NaN count as 0, and the filename of the metadata
    at position [i] when it has a non-empty one.  Where every result has a
    distance that is a number, this is the context with the distances as
    they are. *)
Theorem prepareContext_spec (sr : SearchResult) :
  prepareContext big sr = spec_context big sr
  /\ (forall docs,
         results sr = Some docs ->
         forallb measured (entries_of docs (metadatas sr) (distances sr)) = true ->
         prepareContext big sr = claimed_context big sr).
Proof.
  assert (Hspec : prepareContext big sr = spec_context big sr).
  { unfold prepareContext, spec_context, spec_context_with.
    destruct (results sr) as [[|doc rest]|]; try reflexivity.
    rewrite forEach_entries. reflexivity. }
  split; [exact Hspec|].
  intros docs Hdocs Hall. rewrite Hspec.
  unfold spec_context, claimed_context, spec_context_with. rewrite Hdocs.
  destruct docs as [|doc rest]; [reflexivity|].
  now rewrite (spec_entries_measured _ 1 Hall).
Qed.

End ContextFacts.

Lemma prepareContext_spec_witness :
  let sr :=
    mkSearchResult (Some ["alpha"; "beta"])
                   [Some (mkMetadata (Some "a.txt") None None None None); None]
                   [Some (div (of_Z 234) (of_Z 1000)); Some (div (of_Z 1) (of_Z 2))] in
  results sr = Some ["alpha"; "beta"]
  /\ forallb measured (entries_of ["alpha"; "beta"] (metadatas sr) (distances sr)) = true
  /\ prepareContext (fun _ => "?") sr = claimed_context (fun _ => "?") sr
  /\ claimed_context (fun _ => "?") sr
     = ("Based on the following documents:" ++ nl ++ nl
        ++ "Document 1 (77% relevant, from: a.txt):" ++ nl ++ "alpha" ++ nl ++ nl
        ++ "Document 2 (50% relevant):" ++ nl ++ "beta" ++ nl ++ nl)%string.
Proof.
  cbv zeta.
  set (sr := mkSearchResult (Some ["alpha"; "beta"])
               [Some (mkMetadata (Some "a.txt") None None None None); None]
               [Some (div (of_Z 234) (of_Z 1000)); Some (div (of_Z 1) (of_Z 2))]).
  assert (H1 : results sr = Some ["alpha"; "beta"]) by reflexivity.
  assert (H2 : forallb measured
                 (entries_of ["alpha"; "beta"] (metadatas sr) (distances sr)) = true)
    by reflexivity.
  split; [exact H1|]. split; [exact H2|]. split.
  - exact (proj2 (prepareContext_spec (fun _ => "?") sr) _ H1 H2).
  - vm_compute. reflexivity.
Defined.

(** C9, as stated, fails: a result whose distance is NaN is shown as 100%
    relevant, because [distances[index] || 0] replaces NaN by 0, whereas
    [round((1 - distance) * 100)] of that distance is NaN. *)
Lemma nan_distance_shown_as_100 :
  let sr := mkSearchResult (Some ["alpha"]) [None] [Some S754_nan] in
  prepareContext (fun _ => "?") sr
  = ("Based on the following documents:" ++ nl ++ nl
     ++ "Document 1 (100% relevant):" ++ nl ++ "alpha" ++ nl ++ nl)%string
  /\ claimed_context (fun _ => "?") sr
     = ("Based on the following documents:" ++ nl ++ nl
        ++ "Document 1 (NaN% relevant):" ++ nl ++ "alpha" ++ nl ++ nl)%string
  /\ prepareContext (fun _ => "?") sr <> claimed_context (fun _ => "?") sr.
Proof.
  cbv zeta. split; [vm_compute; reflexivity|]. split; [vm_compute; reflexivity|].
  vm_compute. discriminate.
Qed.

(** Two results, the second without metadata or distance. *)
Example prepareContext_two_results :
  prepareContext (fun _ => "?")
    (mkSearchResult (Some ["alpha"; "beta"])
                    [Some (mkMetadata (Some "a.txt") None None None None); None]
                    [Some (div (of_Z 234) (of_Z 1000)); None])
  = ("Based on the following documents:" ++ nl ++ nl
     ++ "Document 1 (77% relevant, from: a.txt):" ++ nl ++ "alpha" ++ nl ++ nl
     ++ "Document 2 (100% relevant):" ++ nl ++ "beta" ++ nl ++ nl)%string.
Proof. vm_compute. reflexivity. Qed.

Example prepareContext_no_results :
  prepareContext (fun _ => "?") (mkSearchResult (Some []) [] [])
  = "No relevant documents found in the knowledge base.".
Proof. reflexivity. Qed.

Section IngestFacts.

Variable createSimpleEmbedding : string -> Embedding.
Variable collection_add : list Document -> option string.

(** The index lookups of the [map] callback read, for each chunk, the
    result computed for that chunk. *)
Lemma zip_documents_map (chunks : list DocumentChunk) :
  forall done : list EmbeddingSlot,
    zip_documents chunks (List.length done)
                  (done ++ embedEach createSimpleEmbedding (map chunk_text chunks))
    = map (document_of createSimpleEmbedding) chunks.
Proof.
  induction chunks as [|chunk rest IH]; intros done.
  - reflexivity.
  - simpl. f_equal.
    + unfold Rag.document_of. f_equal.
      rewrite app_nth2 by lia. now rewrite Nat.sub_diag.
    + specialize (IH (done ++ [match embedText createSimpleEmbedding (chunk_text chunk) with
                               | EmbedOk embedding _ => Vector embedding
                               | EmbedError _ => Null
                               end])%list).
      rewrite length_app, Nat.add_comm in IH. simpl in IH.
      rewrite <- app_assoc in IH. exact IH.
Qed.

Lemma not_null_document_of (chunk : DocumentChunk) :
  not_null (document_of createSimpleEmbedding chunk) = embeds createSimpleEmbedding chunk.
Proof.
  unfold not_null, Rag.document_of, Rag.embeds. simpl.
  destruct (embedText createSimpleEmbedding (chunk_text chunk)); reflexivity.
Qed.

(** The documents handed to the store are those of the chunks whose text
    was embedded, in order. *)
Lemma documentsFor_survivors (chunks : list DocumentChunk) :
  documentsFor createSimpleEmbedding chunks
  = map (document_of createSimpleEmbedding)
        (filter (embeds createSimpleEmbedding) chunks).
Proof.
  unfold Rag.documentsFor, prepareDocuments.
  pose proof (zip_documents_map chunks []) as Hzip.
  simpl in Hzip. rewrite Hzip. clear Hzip.
  induction chunks as [|chunk rest IH]; simpl.
  - reflexivity.
  - rewrite not_null_document_of.
    destruct (embeds createSimpleEmbedding chunk); simpl; now rewrite IH.
Qed.

Lemma survivors_and_failures (chunks : list DocumentChunk) :
  (List.length (filter (embeds createSimpleEmbedding) chunks)
   + failedCount createSimpleEmbedding chunks
   = List.length chunks)%nat.
Proof.
  unfold Rag.failedCount, Embeddings.embedEach.
  induction chunks as [|chunk rest IH]; simpl.
  - reflexivity.
  - unfold Rag.embeds at 1.
    destruct (embedText createSimpleEmbedding (chunk_text chunk)); simpl; lia.
Qed.

(** A document built from an embedded chunk is accepted by the store
    exactly when its id is present and not empty. *)
Lemma valid_document_of (chunk : DocumentChunk) :
  embeds createSimpleEmbedding chunk = true ->
  valid_document (document_of createSimpleEmbedding chunk)
  = truthy_string (chunk_id chunk).
Proof.
  unfold Rag.embeds, valid_document, Rag.document_of, embedText. simpl.
  destruct (chunk_text chunk) as [[|a r]|]; try discriminate.
  intros _. simpl. destruct (truthy_string (chunk_id chunk)); reflexivity.
Qed.

End IngestFacts.

(** C5, as stated, fails: a single chunk whose text is empty has a null
    embedding ([N = m = 1]); nothing is left for the store, which rejects the
    empty batch, and the ingest fails. *)
Lemma ingest_fails_when_no_chunk_survives :
  let chunks := [mkDocumentChunk (Some "c1") (Some "") (Some "a.txt") (Some "txt")
                                 (Some 0) None (Some 10)] in
  Rag.failedCount (fun _ => [JsNumber.one]) chunks = 1%nat
  /\ Rag.documentsFor (fun _ => [JsNumber.one]) chunks = []
  /\ addDocumentToKnowledgeBase (fun _ => [JsNumber.one]) (fun _ => None) chunks
     = IngestError "Failed to add documents to vector store: Invalid documents array".
Proof. cbv zeta. repeat split; vm_compute; reflexivity. Qed.

(** C5 (amended).  For a non-empty list of [N] chunks of which [m] have a
    null embedding, the [N - m] survivors, in order, are handed to the
    store; if the store reports a count the ingest succeeds with that count
    as [chunksAdded] and [N] as [totalChunks]; if the store fails, as it does
    when no chunk survives, the ingest fails.  For three chunks of which
    only the second fails embedding, the other two having ids, and a
    database call that succeeds, the result is [chunksAdded = 2],
    [totalChunks = 3]. *)
Theorem ingest_partial_batch (createSimpleEmbedding : string -> Embedding)
        (collection_add : list Document -> option string)
        (chunks : list DocumentChunk) :
  chunks <> [] ->
  let embeds := Rag.embeds createSimpleEmbedding in
  let document_of := Rag.document_of createSimpleEmbedding in
  let docs := Rag.documentsFor createSimpleEmbedding chunks in
  let ingest := addDocumentToKnowledgeBase createSimpleEmbedding collection_add in
  docs = map document_of (filter embeds chunks)
  /\ (List.length docs + Rag.failedCount createSimpleEmbedding chunks
      = List.length chunks)%nat
  /\ (forall count, addDocuments collection_add docs = AddOk count ->
                    ingest chunks = IngestOk count (Z.of_nat (List.length chunks)))
  /\ (forall error, addDocuments collection_add docs = AddError error ->
                    ingest chunks
                    = IngestError ("Failed to add documents to vector store: " ++ error))
  /\ (docs = [] ->
      ingest chunks
      = IngestError "Failed to add documents to vector store: Invalid documents array")
  /\ (forall c1 c2 c3,
         chunks = [c1; c2; c3] ->
         embeds c1 = true -> embeds c2 = false -> embeds c3 = true ->
         truthy_string (chunk_id c1) = true -> truthy_string (chunk_id c3) = true ->
         collection_add [document_of c1; document_of c3] = None ->
         docs = [document_of c1; document_of c3]
         /\ ingest chunks = IngestOk 2 3).
Proof.
  intros Hne. cbv zeta.
  assert (Hrun : addDocumentToKnowledgeBase createSimpleEmbedding collection_add chunks
                 = match addDocuments collection_add
                           (Rag.documentsFor createSimpleEmbedding chunks) with
                   | AddError error =>
                       IngestError ("Failed to add documents to vector store: " ++ error)
                   | AddOk count => IngestOk count (Z.of_nat (List.length chunks))
                   end).
  { destruct chunks as [|chunk rest]; [contradiction|reflexivity]. }
  pose proof (documentsFor_survivors createSimpleEmbedding chunks) as Hdocs.
  split; [exact Hdocs|]. split.
  { rewrite Hdocs, length_map. apply survivors_and_failures. }
  split; [intros count Hadd; now rewrite Hrun, Hadd|].
  split; [intros error Hadd; now rewrite Hrun, Hadd|].
  split; [intros Hnil; now rewrite Hrun, Hnil|].
  intros c1 c2 c3 -> H1 H2 H3 Hid1 Hid3 Hadd.
  assert (Hd : Rag.documentsFor createSimpleEmbedding [c1; c2; c3]
               = [Rag.document_of createSimpleEmbedding c1;
                  Rag.document_of createSimpleEmbedding c3]).
  { rewrite Hdocs. simpl. now rewrite H1, H2, H3. }
  split; [exact Hd|].
  rewrite Hrun, Hd. unfold addDocuments. simpl filter.
  rewrite (valid_document_of _ _ H1), (valid_document_of _ _ H3), Hid1, Hid3.
  now rewrite Hadd.
Qed.

Lemma ingest_partial_batch_witness :
  let chunks := [mkDocumentChunk (Some "c1") (Some "alpha") None None (Some 0) None None;
                 mkDocumentChunk (Some "c2") (Some "") None None (Some 1) None None;
                 mkDocumentChunk (Some "c3") (Some "gamma") None None (Some 2) None None] in
  chunks <> []
  /\ Rag.failedCount (fun _ => [JsNumber.one]) chunks = 1%nat
  /\ addDocumentToKnowledgeBase (fun _ => [JsNumber.one]) (fun _ => None) chunks
     = IngestOk 2 3.
Proof.
  cbv zeta.
  set (chunks := [mkDocumentChunk (Some "c1") (Some "alpha") None None (Some 0) None None;
                  mkDocumentChunk (Some "c2") (Some "") None None (Some 1) None None;
                  mkDocumentChunk (Some "c3") (Some "gamma") None None (Some 2) None None]).
  assert (Hne : chunks <> []) by discriminate.
  split; [exact Hne|]. split; [reflexivity|].
  destruct (ingest_partial_batch (fun _ => [JsNumber.one]) (fun _ => None) chunks Hne)
    as (_ & _ & Hok & _).
  apply (Hok 2). reflexivity.
Defined.

End RagFacts.

(* ================================================================== *)
(** * Properties of the long-running task orchestration *)
(* ================================================================== *)

Section WebhookFacts.

Import JsNumber Runtime VectorStore Webhooks ChatRoute.
Local Open Scope run_scope.

(** ** The clock *)

Lemma date_now_now (w : World) : now (snd (date_now w)) = fst (date_now w).
Proof. reflexivity. Qed.

(** A clock that is not set back before its next observation. *)
Lemma date_now_later (w : World) :
  0 <= hd 0 (elapse w) -> now w <= fst (date_now w).
Proof. unfold date_now, advance. simpl. lia. Qed.

Lemma date_now_randoms (w : World) : randoms (snd (date_now w)) = randoms w.
Proof. reflexivity. Qed.

Lemma date_now_elapse (w : World) : elapse (snd (date_now w)) = tl (elapse w).
Proof. reflexivity. Qed.

Lemma sleep_later (ms : Z) (w : World) : now w + ms <= now (snd (sleep ms w)).
Proof. unfold sleep, advance. simpl. lia. Qed.

(** When no time passes before the next clock observation, the clock is
    read without changing the world. *)
Lemma date_now_still (w : World) : elapse w = [] -> date_now w = (now w, w).
Proof.
  destruct w as [n el rs lt ht]. simpl. intros ->.
  unfold date_now, advance. simpl hd. simpl tl. simpl now.
  replace (n + 0) with n by lia. reflexivity.
Qed.

Lemma sleep_facts (ms : Z) (w : World) :
  now (snd (sleep ms w)) = now w + (ms + Z.max 0 (hd 0 (lateness w)))
  /\ elapse (snd (sleep ms w)) = elapse w.
Proof. split; reflexivity. Qed.

(** ** The polling loop *)

Lemma poll_unfold (fuel : nat) timeout startTime taskId taskData onProgress events :
  poll fuel timeout startTime taskId taskData onProgress events
  = (t <- date_now ;;
     if t - startTime <? timeout then
       match fuel with
       | O => ret None
       | S fuel' =>
           sleep 2000 ;;;
           t2 <- date_now ;;
           if 5000 <? t2 - startTime then
             t3 <- date_now ;;
             completedAt <- date_now ;;
             let result :=
               mkTaskResult taskId "completed" taskData (t3 - startTime) completedAt in
             events' <- report onProgress startTime taskId "completed" events ;;
             ret (Some (Some result, events'))
           else
             events' <- report onProgress startTime taskId "processing" events ;;
             poll fuel' timeout startTime taskId taskData onProgress events'
       end
     else ret (Some (None, events))).
Proof. destruct fuel; reflexivity. Qed.

(** An exit with [taskCompleted] still false happens at a clock observation
    that is at least [timeout] after [startTime]. *)
Lemma poll_timeout_not_early (fuel : nat) :
  forall timeout startTime taskId taskData onProgress events w events' w',
    poll fuel timeout startTime taskId taskData onProgress events w
    = (Some (None, events'), w') ->
    timeout <= now w' - startTime.
Proof.
  induction fuel as [|fuel IH];
    intros timeout startTime taskId taskData onProgress events w events' w' Hrun.
  - simpl in Hrun. unfold bind in Hrun.
    pose proof (date_now_now w) as Hnow.
    destruct (date_now w) as [t w1]. simpl in Hnow.
    destruct (t - startTime <? timeout) eqn:Hguard; [discriminate|].
    unfold ret in Hrun. injection Hrun as _ <-.
    apply Z.ltb_ge in Hguard. lia.
  - simpl in Hrun. unfold bind in Hrun.
    pose proof (date_now_now w) as Hnow.
    destruct (date_now w) as [t w1]. simpl in Hnow.
    destruct (t - startTime <? timeout) eqn:Hguard.
    + destruct (sleep 2000 w1) as [u w2].
      destruct (date_now w2) as [t2 w3].
      destruct (5000 <? t2 - startTime).
      * destruct (date_now w3) as [t3 w4]. destruct (date_now w4) as [t4 w5].
        destruct (report onProgress startTime taskId "completed" events w5) as [ev w6].
        discriminate.
      * destruct (report onProgress startTime taskId "processing" events w3) as [ev w4].
        eapply IH. exact Hrun.
    + unfold ret in Hrun. injection Hrun as _ <-.
      apply Z.ltb_ge in Hguard. lia.
Qed.




(** ** Task ids *)

Lemma no_underscore_uint (d : Decimal.uint) :
  no_underscore (NilEmpty.string_of_uint d) = true.
Proof. induction d; simpl; auto. Qed.

Lemma no_underscore_decimal (n : Z) : no_underscore (decimal n) = true.
Proof.
  unfold decimal, NilZero.string_of_int, NilZero.string_of_uint.
  destruct (Z.to_int n) as [d|d]; destruct d; simpl; auto using no_underscore_uint.
Qed.

(** Two strings [digits ++ "_" ++ suffix] agree only if their suffixes do. *)
Lemma underscore_split (a : string) :
  forall b r r',
    no_underscore a = true -> no_underscore b = true ->
    (a ++ String "_" r)%string = (b ++ String "_" r')%string ->
    r = r'.
Proof.
  induction a as [|x a IH]; intros [|y b] r r' Ha Hb Heq; simpl in *.
  - now injection Heq.
  - injection Heq as Hc _. subst y. simpl in Hb. discriminate.
  - injection Heq as Hc _. subst x. simpl in Ha. discriminate.
  - injection Heq as _ Hrest.
    apply andb_true_iff in Ha as [_ Ha]. apply andb_true_iff in Hb as [_ Hb].
    eapply IH; eassumption.
Qed.

(** What [generateTaskId] returns and consumes. *)
Lemma generateTaskId_spec (w : World) :
  exists w',
    generateTaskId w
    = (("task_" ++ decimal (fst (date_now w)) ++ "_" ++ hd "" (randoms w))%string, w')
    /\ randoms w' = tl (randoms w).
Proof. eexists. split; reflexivity. Qed.

Lemma generated_ids_differ (w1 w2 : World) :
  hd "" (randoms w1) <> hd "" (randoms w2) ->
  fst (generateTaskId w1) <> fst (generateTaskId w2).
Proof.
  intros Hne Heq. apply Hne.
  destruct (generateTaskId_spec w1) as (w1' & E1 & _).
  destruct (generateTaskId_spec w2) as (w2' & E2 & _).
  rewrite E1, E2 in Heq. simpl in Heq.
  injection Heq as Heq.
  eapply underscore_split; [| |exact Heq]; apply no_underscore_decimal.
Qed.

(** C10.  For a long-running request the payload handed to the
    orchestration has no [taskId]; when the trigger is configured the
    envelope's id comes from one call of the generator, and the id in the
    immediate response comes from the next call, made in the state the first
    one left; the response's id is therefore not the triggered id whenever
    the two random draws differ.  (Without a configured trigger no envelope
    exists and the response's id is still freshly generated.) *)
Theorem response_taskId_is_fresh (cfg : Config) (message : string) (w : World) :
  let started := fst (handleLongRunningTask cfg message w) in
  let w' := snd (handleLongRunningTask cfg message w) in
  td_taskId (st_taskData started) = None
  /\ (exists w1, generateTaskId w1 = (resp_taskId (st_response started), w'))
  /\ (forall envelope,
         st_envelope started = Some envelope ->
         env_data envelope = st_taskData started
         /\ exists w0 w1,
             generateTaskId w0 = (env_taskId envelope, w1)
             /\ generateTaskId w1 = (resp_taskId (st_response started), w'))
  /\ (forall envelope r1 r2 rest,
         st_envelope started = Some envelope ->
         randoms w = r1 :: r2 :: rest ->
         r1 <> r2 ->
         resp_taskId (st_response started) <> env_taskId envelope).
Proof.
  cbv zeta. unfold handleLongRunningTask, triggerN8nTask_begin, bind.
  pose proof (date_now_randoms w) as Hr0.
  destruct (date_now w) as [timestamp wa]. simpl in Hr0.
  destruct (truthy_string (n8nWebhookUrl cfg)).
  - unfold bind. simpl taskId_or_fresh.
    pose proof (date_now_randoms wa) as Hr1.
    destruct (date_now wa) as [t1 wb]. simpl in Hr1.
    destruct (generateTaskId_spec wb) as (wc' & E1 & Hrc).
    destruct (generateTaskId wb) as [id1 wc] eqn:G1.
    unfold ret.
    destruct (generateTaskId wc) as [id2 wd] eqn:G2. simpl.
    split; [reflexivity|]. split; [now exists wc|]. split.
    + intros envelope Henv. injection Henv as <-. simpl.
      split; [reflexivity|]. now exists wb, wc.
    + intros envelope r1 r2 rest Henv Hrs Hne. injection Henv as <-. simpl.
      injection E1 as _ Hwc. subst wc'.
      replace id2 with (fst (generateTaskId wc)) by now rewrite G2.
      replace id1 with (fst (generateTaskId wb)) by now rewrite G1.
      apply generated_ids_differ.
      rewrite Hrc, Hr1, Hr0, Hrs. simpl. congruence.
  - unfold ret. simpl taskId_or_fresh.
    destruct (generateTaskId wa) as [id2 wd] eqn:G2. simpl.
    split; [reflexivity|]. split; [now exists wa|]. split.
    + intros envelope Henv. discriminate.
    + intros envelope r1 r2 rest Henv. discriminate.
Qed.

Lemma response_taskId_is_fresh_witness :
  let cfg := mkConfig (Some "http://localhost:5678/webhook/trigger-task") None 300000 in
  let w := mkWorld 1700000000000 [] ["k3j9x0q2a"; "p7m1z8c4e"] [] [(Answered 200, 35)] in
  let started := fst (handleLongRunningTask cfg "summarise" w) in
  exists envelope,
    st_envelope started = Some envelope
    /\ "k3j9x0q2a" <> "p7m1z8c4e"
    /\ env_taskId envelope = "task_1700000000000_k3j9x0q2a"
    /\ resp_taskId (st_response started) = "task_1700000000000_p7m1z8c4e"
    /\ resp_taskId (st_response started) <> env_taskId envelope.
Proof.
  cbv zeta.
  set (cfg := mkConfig (Some "http://localhost:5678/webhook/trigger-task") None 300000).
  set (w := mkWorld 1700000000000 [] ["k3j9x0q2a"; "p7m1z8c4e"] [] [(Answered 200, 35)]).
  assert (Hne : "k3j9x0q2a" <> "p7m1z8c4e") by discriminate.
  eexists. split; [vm_compute; reflexivity|]. split; [exact Hne|].
  split; [reflexivity|]. split; [vm_compute; reflexivity|].
  destruct (response_taskId_is_fresh cfg "summarise" w) as (_ & _ & _ & Hfresh).
  eapply Hfresh; [vm_compute; reflexivity|reflexivity|exact Hne].
Defined.

End WebhookFacts.

(* ================================================================== *)
(** * Further properties of the chunker *)
(* ================================================================== *)

Section ChunkerInvariants.

Import JsNumber JsString Chunker ChunkerSpec.

(** ** Strings *)

Lemma length_substring_le (n m : nat) (s : string) :
  (String.length (substring n m s) <= m)%nat.
Proof.
  revert n m. induction s as [|a r IH]; intros [|n] [|m]; simpl; try lia.
  - specialize (IH 0%nat m). lia.
  - apply (IH n 0%nat).
  - apply (IH n (S m)).
Qed.

Lemma length_substring_le_length (n m : nat) (s : string) :
  (String.length (substring n m s) <= String.length s)%nat.
Proof.
  revert n m. induction s as [|a r IH]; intros [|n] [|m]; simpl; try lia.
  - specialize (IH 0%nat m). lia.
  - specialize (IH n 0%nat). lia.
  - specialize (IH n (S m)). lia.
Qed.

Lemma substring_prefix (m : nat) (s : string) :
  exists after, s = (substring 0 m s ++ after)%string.
Proof.
  revert m. induction s as [|a r IH]; intros [|m]; simpl.
  - now exists "".
  - now exists "".
  - now exists (String a r).
  - destruct (IH m) as [after Heq]. exists after. now rewrite <- Heq.
Qed.

Lemma substring_piece (n m : nat) (s : string) : piece_of (substring n m s) s.
Proof.
  revert n. induction s as [|a r IH]; intros [|n].
  - exists "", "". destruct m; reflexivity.
  - exists "", "". destruct m; reflexivity.
  - destruct (substring_prefix m (String a r)) as [after Heq].
    exists "", after. exact Heq.
  - destruct (IH n) as (before & after & Heq).
    exists (String a before), after. simpl. now rewrite <- Heq.
Qed.

Lemma slice_piece (s : string) (b e : Z) : piece_of (slice s b e) s.
Proof. unfold slice. apply substring_piece. Qed.

Lemma len_slice_le (s : string) (b e : Z) :
  0 <= b -> 0 <= e -> len (slice s b e) <= Z.max (e - b) 0.
Proof.
  intros Hb He. unfold slice, len.
  pose proof (len_nonneg s) as Hn. unfold len in Hn.
  replace (b <? 0) with false by (symmetry; apply Z.ltb_ge; lia).
  replace (e <? 0) with false by (symmetry; apply Z.ltb_ge; lia).
  match goal with
  | |- Z.of_nat (String.length (substring ?n ?m s)) <= _ =>
      pose proof (length_substring_le n m s) as Hle;
      pose proof (length_substring_le_length n m s) as Hle'
  end.
  lia.
Qed.

Lemma len_slice_le_len (s : string) (b e : Z) : len (slice s b e) <= len s.
Proof.
  unfold slice, len.
  match goal with
  | |- Z.of_nat (String.length (substring ?n ?m s)) <= _ =>
      pose proof (length_substring_le_length n m s)
  end.
  lia.
Qed.

(** ** [trim] *)

Lemma trimStart_suffix (s : string) : exists ws, s = (ws ++ trimStart s)%string.
Proof.
  induction s as [|a r [ws IH]]; simpl.
  - now exists "".
  - destruct (is_space a).
    + exists (String a ws). simpl. now rewrite <- IH.
    + now exists "".
Qed.

Lemma trimEnd_prefix (s : string) : exists ws, s = (trimEnd s ++ ws)%string.
Proof.
  induction s as [|a r [ws IH]]; simpl.
  - now exists "".
  - destruct (trimEnd r) as [|b r'] eqn:E.
    + destruct (is_space a).
      * exists (String a r). reflexivity.
      * exists ws. simpl in *. now rewrite <- IH.
    + exists ws. simpl in *. now rewrite <- IH.
Qed.

Lemma piece_of_trans (a b c : string) : piece_of a b -> piece_of b c -> piece_of a c.
Proof.
  intros (p1 & q1 & H1) (p2 & q2 & H2). subst.
  exists (p2 ++ p1)%string, (q1 ++ q2)%string.
  now rewrite !append_assoc_string.
Qed.

Lemma trim_piece (s : string) : piece_of (trim s) s.
Proof.
  unfold trim.
  destruct (trimStart_suffix s) as [ws Hs].
  destruct (trimEnd_prefix (trimStart s)) as [ws' He].
  exists ws, ws'. rewrite <- He. exact Hs.
Qed.

Lemma length_append (a b : string) :
  String.length (a ++ b) = (String.length a + String.length b)%nat.
Proof. induction a as [|x a IH]; simpl; [reflexivity|now rewrite IH]. Qed.

Lemma len_piece_le (c s : string) : piece_of c s -> len c <= len s.
Proof.
  intros (p & q & ->). unfold len. rewrite !length_append. lia.
Qed.

Lemma trimEnd_idempotent (s : string) : trimEnd (trimEnd s) = trimEnd s.
Proof.
  induction s as [|a r IH]; simpl.
  - reflexivity.
  - destruct (trimEnd r) as [|b r'] eqn:E.
    + destruct (is_space a) eqn:Ha; simpl; [reflexivity|now rewrite Ha].
    + simpl in IH |- *. now rewrite IH.
Qed.

Lemma trimStart_fixed (s : string) :
  match s with String a _ => is_space a = false | EmptyString => True end ->
  trimStart s = s.
Proof. destruct s as [|a r]; simpl; [reflexivity|now intros ->]. Qed.

Lemma trimStart_head (s : string) :
  match trimStart s with String a _ => is_space a = false | EmptyString => True end.
Proof.
  induction s as [|a r IH]; simpl; [exact I|].
  destruct (is_space a) eqn:Ha; [exact IH|exact Ha].
Qed.

Lemma trimEnd_head (s : string) :
  match s with String a _ => is_space a = false | EmptyString => True end ->
  match trimEnd s with String a _ => is_space a = false | EmptyString => True end.
Proof.
  destruct s as [|a r]; simpl; [trivial|]. intros Ha.
  destruct (trimEnd r); [rewrite Ha|]; exact Ha.
Qed.

(** Trimming a trimmed string changes nothing. *)
Lemma trim_idempotent (s : string) : trim (trim s) = trim s.
Proof.
  unfold trim.
  rewrite (trimStart_fixed (trimEnd (trimStart s))).
  - apply trimEnd_idempotent.
  - apply trimEnd_head, trimStart_head.
Qed.

(** ** The break points *)

Lemma lastIndexOf_from_range (c : ascii) (s : string) :
  forall i best,
    lastIndexOf_from c s i best = best
    \/ i <= lastIndexOf_from c s i best < i + len s.
Proof.
  induction s as [|a r IH]; intros i best; simpl.
  - now left.
  - unfold len in *. simpl String.length. rewrite Nat2Z.inj_succ.
    destruct (Ascii.eqb a c).
    + destruct (IH (i + 1) i) as [-> | Hr]; right; lia.
    + destruct (IH (i + 1) best) as [-> | Hr]; [now left|right; lia].
Qed.

Lemma lastIndexOf_range (s : string) (c : ascii) : -1 <= lastIndexOf s c < len s.
Proof.
  unfold lastIndexOf. pose proof (len_nonneg s).
  destruct (lastIndexOf_from_range c s 0 (-1)) as [-> | Hr]; lia.
Qed.

Lemma max_of_in (first : Z) (rest : list Z) : In (max_of first rest) (first :: rest).
Proof.
  unfold max_of. revert first. induction rest as [|x rest IH]; intros first; simpl.
  - now left.
  - destruct (IH (Z.max first x)) as [Hm | Hm].
    + destruct (Z.max_spec first x) as [[_ E] | [_ E]]; rewrite E in *.
      * right. now left.
      * now left.
    + right. now right.
Qed.

Lemma breakPoints_range (chunk : string) (startIndex chunkSize p : Z) :
  In p (breakPoints chunk startIndex chunkSize) -> -1 <= p < len chunk.
Proof.
  unfold breakPoints. intros Hin. apply filter_In in Hin as [Hin _].
  simpl in Hin.
  destruct Hin as [<- | [<- | [<- | [<- | []]]]]; apply lastIndexOf_range.
Qed.

(** ** One cut *)

Lemma cut_piece (txt : string) (chunkSize startIndex : Z) :
  piece_of (fst (cut txt chunkSize startIndex)) txt.
Proof.
  unfold cut.
  destruct (Z.min (startIndex + chunkSize) (len txt) <? len txt);
    [destruct (breakPoints _ _ _)|]; simpl; apply slice_piece.
Qed.

Lemma cut_bounds (txt : string) (chunkSize startIndex : Z) :
  0 < chunkSize -> 0 <= startIndex ->
  len (fst (cut txt chunkSize startIndex)) <= chunkSize
  /\ 0 <= snd (cut txt chunkSize startIndex) <= len txt.
Proof.
  intros Hsize Hstart. unfold cut.
  pose proof (len_nonneg txt) as Hlen.
  set (endIndex := Z.min (startIndex + chunkSize) (len txt)).
  assert (Hend : 0 <= endIndex <= len txt) by (unfold endIndex; lia).
  assert (Hwin : len (slice txt startIndex endIndex) <= chunkSize).
  { pose proof (len_slice_le txt startIndex endIndex Hstart (proj1 Hend)).
    unfold endIndex in *. lia. }
  destruct (endIndex <? len txt); [|simpl; lia].
  destruct (breakPoints (slice txt startIndex endIndex) startIndex chunkSize)
    as [|p ps] eqn:Hbp; [simpl; lia|].
  pose proof (max_of_in p ps) as Hin. rewrite <- Hbp in Hin.
  apply breakPoints_range in Hin.
  pose proof (len_slice_le_len txt startIndex endIndex).
  simpl. split.
  - pose proof (len_slice_le txt startIndex (max_of p ps + 1) Hstart). lia.
  - lia.
Qed.

(** ** The loop *)

Lemma while_loop_invariant (Inv : LoopState -> Prop) (txt : string)
      (chunkSize overlap : Z) :
  (forall st, Inv st -> cursor st < len txt -> Inv (loop_body txt chunkSize overlap st)) ->
  forall fuel st st',
    Inv st -> while_loop fuel txt chunkSize overlap st = Some st' -> Inv st'.
Proof.
  intros Hstep fuel. induction fuel as [|fuel IH]; intros st st' Hinv Hrun; simpl in Hrun.
  - destruct (cursor st <? len txt); [discriminate|]. now injection Hrun as <-.
  - destruct (cursor st <? len txt) eqn:Hguard.
    + apply Z.ltb_lt in Hguard. eapply IH; [|exact Hrun]. now apply Hstep.
    + now injection Hrun as <-.
Qed.

Lemma loop_body_sound (txt : string) (chunkSize overlap : Z) (st : LoopState) :
  Forall (sound_chunk txt) (pushed st) ->
  Forall (sound_chunk txt) (pushed (loop_body txt chunkSize overlap st)).
Proof.
  intros Hall. unfold loop_body.
  pose proof (cut_piece txt chunkSize (cursor st)) as Hpiece.
  destruct (cut txt chunkSize (cursor st)) as [chunk e]. simpl in Hpiece.
  destruct (0 <? len (trim chunk)) eqn:Hne; simpl; [|exact Hall].
  apply Forall_app. split; [exact Hall|]. constructor; [|constructor].
  unfold sound_chunk. simpl. repeat split.
  - intros Hempty. rewrite Hempty in Hne. discriminate.
  - apply trim_idempotent.
  - eapply piece_of_trans; [apply trim_piece|exact Hpiece].
Qed.

Lemma loop_body_bounded (txt : string) (chunkSize overlap : Z) (st : LoopState) :
  0 < chunkSize ->
  0 <= cursor st /\ Forall (bounded_chunk txt chunkSize) (pushed st) ->
  0 <= cursor (loop_body txt chunkSize overlap st)
  /\ Forall (bounded_chunk txt chunkSize) (pushed (loop_body txt chunkSize overlap st)).
Proof.
  intros Hsize [Hcur Hall]. unfold loop_body.
  pose proof (cut_bounds txt chunkSize (cursor st) Hsize Hcur) as [Hlen Hpos].
  destruct (cut txt chunkSize (cursor st)) as [chunk e]. simpl in Hlen, Hpos.
  split.
  - simpl. destruct (e <? len txt); lia.
  - destruct (0 <? len (trim chunk)); simpl; [|exact Hall].
    apply Forall_app. split; [exact Hall|]. constructor; [|constructor].
    unfold bounded_chunk. simpl. split; [|exact Hpos].
    pose proof (len_piece_le _ _ (trim_piece chunk)). lia.
Qed.

Lemma while_loop_sound (fuel : nat) (txt : string) (chunkSize overlap : Z)
      (st : LoopState) :
  while_loop fuel txt chunkSize overlap (mkState 0 []) = Some st ->
  Forall (sound_chunk txt) (pushed st).
Proof.
  intros Hloop.
  apply (while_loop_invariant (fun s => Forall (sound_chunk txt) (pushed s))
           txt chunkSize overlap) with (fuel := fuel) (st := mkState 0 []).
  - intros s Hs _. now apply loop_body_sound.
  - constructor.
  - exact Hloop.
Qed.

(** X1.  Whatever the parameters, every chunk of a finished run is not
    empty, has no white space at either end, records its own length, and
    is a run of consecutive characters of the text; [totalChunks] counts
    the chunks and [originalText] is the text. *)
Theorem chunks_are_trimmed_pieces {M : Type} (fuel : nat) (txt : string)
        (chunkSize overlap : Z) (md : M) (r : ChunkResult M) :
  createTextChunks fuel txt chunkSize overlap md = Some r ->
  exists chunks,
    r = Success chunks (Z.of_nat (List.length chunks)) txt md
    /\ Forall (sound_chunk txt) chunks.
Proof.
  unfold createTextChunks. intros Hrun.
  destruct (while_loop fuel txt chunkSize overlap (mkState 0 [])) as [st|] eqn:Hloop;
    [|discriminate].
  injection Hrun as <-. exists (pushed st). split; [reflexivity|].
  eapply while_loop_sound. exact Hloop.
Qed.

Lemma chunks_are_trimmed_pieces_witness :
  createTextChunks 3 "A cat sat on the mat and it ran. The sun rose." 20 5 tt
  = Some (Success [mkChunk "A cat sat on the mat" 20 20;
                   mkChunk "e mat and it ran. Th" 35 20;
                   mkChunk "n. The sun rose." 46 16]
                  3 "A cat sat on the mat and it ran. The sun rose." tt)
  /\ exists chunks,
      Success [mkChunk "A cat sat on the mat" 20 20;
               mkChunk "e mat and it ran. Th" 35 20;
               mkChunk "n. The sun rose." 46 16]
              3 "A cat sat on the mat and it ran. The sun rose." tt
      = Success chunks (Z.of_nat (List.length chunks))
                "A cat sat on the mat and it ran. The sun rose." tt
      /\ Forall (sound_chunk "A cat sat on the mat and it ran. The sun rose.") chunks.
Proof.
  assert (Hrun : createTextChunks 3 "A cat sat on the mat and it ran. The sun rose." 20 5 tt
                 = Some (Success [mkChunk "A cat sat on the mat" 20 20;
                                  mkChunk "e mat and it ran. Th" 35 20;
                                  mkChunk "n. The sun rose." 46 16]
                                 3 "A cat sat on the mat and it ran. The sun rose." tt))
    by (vm_compute; reflexivity).
  split; [exact Hrun|].
  exact (chunks_are_trimmed_pieces 3 _ 20 5 tt _ Hrun).
Defined.

(** X2.  With a positive [chunkSize], no chunk of a finished run is longer
    than [chunkSize], and the position recorded with each chunk (where the
    cut was made) lies within the text. *)
Theorem chunks_fit_chunkSize {M : Type} (fuel : nat) (txt : string)
        (chunkSize overlap : Z) (md : M) (chunks : list Chunk) (total : Z)
        (original : string) (md' : M) :
  0 < chunkSize ->
  createTextChunks fuel txt chunkSize overlap md
  = Some (Success chunks total original md') ->
  Forall (bounded_chunk txt chunkSize) chunks.
Proof.
  unfold createTextChunks. intros Hsize Hrun.
  destruct (while_loop fuel txt chunkSize overlap (mkState 0 [])) as [st|] eqn:Hloop;
    [|discriminate].
  injection Hrun as <- _ _ _.
  apply (while_loop_invariant
           (fun s => 0 <= cursor s /\ Forall (bounded_chunk txt chunkSize) (pushed s))
           txt chunkSize overlap) with (fuel := fuel) (st := mkState 0 []).
  - intros s Hs _. now apply loop_body_bounded.
  - simpl. split; [lia|constructor].
  - exact Hloop.
Qed.

Lemma chunks_fit_chunkSize_witness :
  0 < 20
  /\ createTextChunks 3 "A cat sat on the mat and it ran. The sun rose." 20 5 tt
     = Some (Success [mkChunk "A cat sat on the mat" 20 20;
                      mkChunk "e mat and it ran. Th" 35 20;
                      mkChunk "n. The sun rose." 46 16]
                     3 "A cat sat on the mat and it ran. The sun rose." tt)
  /\ Forall (bounded_chunk "A cat sat on the mat and it ran. The sun rose." 20)
            [mkChunk "A cat sat on the mat" 20 20;
             mkChunk "e mat and it ran. Th" 35 20;
             mkChunk "n. The sun rose." 46 16].
Proof.
  assert (Hsize : 0 < 20) by lia.
  assert (Hrun : createTextChunks 3 "A cat sat on the mat and it ran. The sun rose." 20 5 tt
                 = Some (Success [mkChunk "A cat sat on the mat" 20 20;
                                  mkChunk "e mat and it ran. Th" 35 20;
                                  mkChunk "n. The sun rose." 46 16]
                                 3 "A cat sat on the mat and it ran. The sun rose." tt))
    by (vm_compute; reflexivity).
  split; [exact Hsize|]. split; [exact Hrun|].
  exact (chunks_fit_chunkSize 3 _ 20 5 tt _ _ _ _ Hsize Hrun).
Defined.

(** ** Texts without sentence boundaries *)

Import JsNumberSpec.

Lemma binary_round_aux_sign (sx : bool) (mx ex : Z) (lx : location) :
  match binary_round_aux prec emax sx mx ex lx with
  | S754_infinity s | S754_finite s _ _ => s = sx
  | _ => True
  end.
Proof.
  unfold binary_round_aux.
  destruct (shr_fexp prec emax mx ex lx) as [mrs' e'].
  destruct (shr_fexp prec emax _ e' loc_Exact) as [mrs'' e''].
  destruct (shr_m mrs''); [exact I| |exact I].
  destruct (e'' <=? emax - prec); reflexivity.
Qed.

Lemma binary_round_sign (sx : bool) (mx : positive) (ex : Z) :
  match binary_round prec emax sx mx ex with
  | S754_infinity s | S754_finite s _ _ => s = sx
  | _ => True
  end.
Proof.
  unfold binary_round.
  destruct (shl_align mx ex _) as [mz ez].
  apply binary_round_aux_sign.
Qed.

Lemma of_Z_not_negative (z : Z) : 0 <= z -> not_negative (of_Z z).
Proof.
  intros Hz. unfold of_Z, binary_normalize. destruct z as [|p|p]; [exact I| |lia].
  pose proof (binary_round_sign false p 0) as Hs. unfold not_negative.
  destruct (binary_round prec emax false p 0); auto.
Qed.

Lemma mul_lit_0_7_not_negative (x : number) :
  not_negative x -> not_negative (mul x lit_0_7).
Proof.
  unfold mul, lit_0_7.
  destruct x as [s|s| |s m e]; unfold SFmul; cbn [not_negative]; intros Hx;
    try exact I.
  - now subst s.
  - subst s. cbn [xorb].
    match goal with
    | |- not_negative (binary_round_aux _ _ false ?m ?e ?l) =>
        pose proof (binary_round_aux_sign false m e l) as Hs;
        destruct (binary_round_aux prec emax false m e l)
    end; cbn [not_negative]; auto.
Qed.

Lemma add_not_negative (x y : number) :
  not_negative x -> not_negative y -> not_negative (add x y).
Proof.
  unfold add.
  destruct x as [sx|sx| |sx mx ex], y as [sy|sy| |sy my ey];
    unfold SFadd; cbn [not_negative]; intros Hx Hy; subst;
    try exact I; try reflexivity.
  - destruct sx, sy; exact I.
  - cbv zeta. unfold cond_Zopp.
    change (Z.pos ?a + Z.pos ?b) with (Z.pos (a + b)).
    unfold binary_normalize.
    match goal with
    | |- not_negative (binary_round _ _ false ?m ?e) =>
        pose proof (binary_round_sign false m e) as Hs;
        destruct (binary_round prec emax false m e)
    end; cbn [not_negative]; auto.
Qed.

Lemma not_negative_not_below_minus_one (x : number) :
  not_negative x -> lt x (of_Z (-1)) = false.
Proof.
  replace (of_Z (-1)) with (S754_finite true 4503599627370496 (-52)) by reflexivity.
  unfold lt, SFltb.
  destruct x as [s|s| |s m e]; cbn [not_negative]; intros Hx; subst; reflexivity.
Qed.

(** An absent character, index -1, is never a break point. *)
Lemma absent_is_no_break_point (startIndex chunkSize : Z) :
  0 <= startIndex -> 0 <= chunkSize ->
  in_last_30 startIndex chunkSize (-1) = false.
Proof.
  intros Hs Hc. unfold in_last_30, gt.
  apply not_negative_not_below_minus_one, add_not_negative.
  - now apply of_Z_not_negative.
  - now apply mul_lit_0_7_not_negative, of_Z_not_negative.
Qed.

Lemma lastIndexOf_from_absent (c : ascii) (s : string) :
  is_boundary c = true -> has_boundary s = false ->
  forall i best, lastIndexOf_from c s i best = best.
Proof.
  intros Hc. induction s as [|a r IH]; simpl; intros Hs i best; [reflexivity|].
  apply orb_false_iff in Hs as [Ha Hr].
  destruct (Ascii.eqb a c) eqn:E.
  - apply Ascii.eqb_eq in E. subst a. congruence.
  - now apply IH.
Qed.

Lemma has_boundary_substring (n m : nat) (s : string) :
  has_boundary s = false -> has_boundary (substring n m s) = false.
Proof.
  revert n m. induction s as [|a r IH]; intros n m Hs.
  - destruct n, m; reflexivity.
  - simpl in Hs. apply orb_false_iff in Hs as [Ha Hr].
    destruct n as [|n]; [destruct m as [|m]|]; simpl.
    + reflexivity.
    + rewrite Ha. now apply IH.
    + now apply IH.
Qed.

Lemma breakPoints_without_boundary (chunk : string) (startIndex chunkSize : Z) :
  0 <= startIndex -> 0 <= chunkSize -> has_boundary chunk = false ->
  breakPoints chunk startIndex chunkSize = [].
Proof.
  intros Hs Hc Hb. unfold breakPoints, lastIndexOf.
  rewrite !(lastIndexOf_from_absent _ chunk) by (reflexivity || exact Hb).
  simpl. now rewrite absent_is_no_break_point.
Qed.

(** Without a boundary in the text every window is cut at the hard
    boundary. *)
Lemma cut_without_boundary (txt : string) (chunkSize startIndex : Z) :
  0 <= startIndex -> 0 <= chunkSize -> has_boundary txt = false ->
  cut txt chunkSize startIndex
  = (slice txt startIndex (Z.min (startIndex + chunkSize) (len txt)),
     Z.min (startIndex + chunkSize) (len txt)).
Proof.
  intros Hs Hc Hb. unfold cut.
  destruct (Z.min (startIndex + chunkSize) (len txt) <? len txt); [|reflexivity].
  rewrite breakPoints_without_boundary; try assumption; [reflexivity|].
  unfold slice. now apply has_boundary_substring.
Qed.

Lemma while_loop_without_boundary (txt : string) (chunkSize overlap : Z) :
  0 <= overlap < chunkSize -> has_boundary txt = false ->
  forall fuel st,
    0 <= cursor st -> len txt - cursor st <= Z.of_nat fuel ->
    exists st', while_loop fuel txt chunkSize overlap st = Some st'.
Proof.
  intros Hparams Hb fuel.
  induction fuel as [|fuel IH]; intros st Hcur Hfuel; simpl.
  - destruct (cursor st <? len txt) eqn:Hguard; [|now eexists].
    apply Z.ltb_lt in Hguard. lia.
  - destruct (cursor st <? len txt) eqn:Hguard; [|now eexists].
    apply Z.ltb_lt in Hguard. apply IH.
    + unfold loop_body. rewrite cut_without_boundary by (assumption || lia).
      simpl. destruct (_ <? len txt); lia.
    + unfold loop_body. rewrite cut_without_boundary by (assumption || lia).
      simpl.
      destruct (Z.min (cursor st + chunkSize) (len txt) <? len txt) eqn:E.
      * apply Z.ltb_lt in E. lia.
      * apply Z.ltb_ge in E. lia.
Qed.

(** X3.  On a text without [.], [?], [!] and newline the chunker ends for
    every parameter pair with [chunkSize > overlap >= 0]: as many iterations
    as the text has characters are enough. *)
Theorem chunker_terminates_without_boundaries {M : Type} (txt : string)
        (chunkSize overlap : Z) (md : M) :
  0 <= overlap < chunkSize ->
  has_boundary txt = false ->
  exists chunks,
    createTextChunks (String.length txt) txt chunkSize overlap md
    = Some (Success chunks (Z.of_nat (List.length chunks)) txt md).
Proof.
  intros Hparams Hb. unfold createTextChunks.
  destruct (while_loop_without_boundary txt chunkSize overlap Hparams Hb
              (String.length txt) (mkState 0 [])) as [st Hrun].
  - simpl. lia.
  - simpl. unfold len. lia.
  - rewrite Hrun. now exists (pushed st).
Qed.

Lemma chunker_terminates_without_boundaries_witness :
  0 <= 9 < 10
  /\ has_boundary "Stop now then continue reading" = false
  /\ exists chunks,
      createTextChunks (String.length "Stop now then continue reading")
                       "Stop now then continue reading" 10 9 tt
      = Some (Success chunks (Z.of_nat (List.length chunks))
                      "Stop now then continue reading" tt).
Proof.
  assert (Hparams : 0 <= 9 < 10) by lia.
  assert (Hb : has_boundary "Stop now then continue reading" = false) by reflexivity.
  split; [exact Hparams|]. split; [exact Hb|].
  exact (chunker_terminates_without_boundaries _ 10 9 tt Hparams Hb).
Defined.

End ChunkerInvariants.

(* ================================================================== *)
(** * Properties of document parsing *)
(* ================================================================== *)

Section ParseFacts.

Import JsString Chunker ChunkerSpec ParseDocuments.

(** ** The cleaning chain *)

Lemma is_space_SP : is_space SP = true.
Proof. reflexivity. Qed.

Lemma space_not_LF (a : ascii) : is_space a = false -> Ascii.eqb a LF = false.
Proof.
  intros Ha. destruct (Ascii.eqb a LF) eqn:E; [|reflexivity].
  apply Ascii.eqb_eq in E. subst a. discriminate.
Qed.

Lemma collapseSpaces_single_spaced (s : string) :
  forall inRun, single_spaced (collapseSpaces s inRun) inRun = true.
Proof.
  induction s as [|a r IH]; intros inRun; simpl; [reflexivity|].
  destruct (is_space a) eqn:Ha.
  - destruct inRun; [apply IH|]. simpl. now rewrite IH.
  - simpl. rewrite Ha. apply IH.
Qed.

Lemma single_spaced_step (a : ascii) (r : string) (b : bool) :
  single_spaced (String a r) b = true ->
  (is_space a = true /\ a = SP /\ b = false /\ single_spaced r true = true)
  \/ (is_space a = false /\ single_spaced r false = true).
Proof.
  simpl. destruct (is_space a) eqn:Ha; intros Hs.
  - left. apply andb_true_iff in Hs as [Hs Hr]. apply andb_true_iff in Hs as [Hsp Hb].
    apply Ascii.eqb_eq in Hsp. destruct b; [discriminate|]. auto.
  - right. auto.
Qed.

(** The third replacement finds nothing to replace once white space has
    been collapsed. *)
Lemma squeezeNewlines_single_spaced (s : string) :
  forall b, single_spaced s b = true -> squeezeNewlines s None = s.
Proof.
  induction s as [|a r IH]; intros b Hs; [reflexivity|].
  destruct (single_spaced_step a r b Hs) as [(_ & -> & _ & Hr) | (Ha & Hr)]; simpl.
  - f_equal. eapply IH. exact Hr.
  - rewrite (space_not_LF a Ha). f_equal. eapply IH. exact Hr.
Qed.

Lemma collapseSpaces_fixed (s : string) :
  forall b, single_spaced s b = true -> collapseSpaces s b = s.
Proof.
  induction s as [|a r IH]; intros b Hs; [reflexivity|].
  destruct (single_spaced_step a r b Hs) as [(Ha & -> & -> & Hr) | (Ha & Hr)]; simpl.
  - f_equal. now apply IH.
  - rewrite Ha. f_equal. now apply IH.
Qed.

Lemma replaceCRLF_fixed (s : string) :
  forall b, single_spaced s b = true -> replaceCRLF s = s.
Proof.
  induction s as [|a r IH]; intros b Hs; [reflexivity|].
  assert (Hcr : Ascii.eqb a CR = false).
  { destruct (Ascii.eqb a CR) eqn:E; [|reflexivity].
    apply Ascii.eqb_eq in E. subst a.
    destruct (single_spaced_step _ _ _ Hs) as [(_ & Hsp & _) | (Ha & _)]; discriminate. }
  assert (Hr : exists b', single_spaced r b' = true).
  { destruct (single_spaced_step _ _ _ Hs) as [(_ & _ & _ & H) | (_ & H)]; eauto. }
  destruct Hr as [b' Hr].
  simpl. destruct r as [|x r]; [reflexivity|].
  rewrite Hcr. simpl andb. cbv iota. f_equal. eapply IH. exact Hr.
Qed.

Lemma single_spaced_from_ink (s : string) (b : bool) :
  match s with String a _ => is_space a = false | EmptyString => True end ->
  single_spaced s b = single_spaced s true.
Proof. destruct s as [|a r]; simpl; [reflexivity|]. now intros ->. Qed.

Lemma trimStart_single_spaced (s : string) :
  forall b, single_spaced s b = true -> single_spaced (trimStart s) true = true.
Proof.
  induction s as [|a r IH]; intros b Hs; [reflexivity|].
  destruct (single_spaced_step a r b Hs) as [(Ha & _ & _ & Hr) | (Ha & Hr)]; simpl.
  - rewrite Ha. eapply IH. exact Hr.
  - rewrite Ha. simpl. now rewrite Ha.
Qed.

Lemma trimEnd_single_spaced (s : string) :
  forall b, single_spaced s b = true -> single_spaced (trimEnd s) b = true.
Proof.
  induction s as [|a r IH]; intros b Hs; [reflexivity|].
  destruct (single_spaced_step a r b Hs) as [(Ha & -> & -> & Hr) | (Ha & Hr)].
  - specialize (IH true Hr). cbn [trimEnd]. destruct (trimEnd r) as [|x r'].
    + reflexivity.
    + change (single_spaced (String SP (String x r')) false)
        with (Ascii.eqb SP SP && negb false && single_spaced (String x r') true).
      now rewrite IH.
  - specialize (IH false Hr). cbn [trimEnd]. destruct (trimEnd r) as [|x r'].
    + rewrite Ha. cbn [single_spaced]. now rewrite Ha.
    + cbn [single_spaced] in IH |- *. now rewrite Ha.
Qed.

Lemma trim_single_spaced (s : string) (b : bool) :
  single_spaced s b = true -> single_spaced (trim s) true = true.
Proof.
  intros Hs. unfold trim. apply trimEnd_single_spaced.
  eapply trimStart_single_spaced. exact Hs.
Qed.

(** X4.  The text produced by the cleaning chain of [parseText] and
    [parseMarkdown] (and of [parsePDF]) has no white space but single
    spaces between other characters: no newline, tab or carriage return, no
    two spaces in a row, none at either end.  The replacement of
    [/\n\s*\n/] never changes anything, because the step before it has
    removed every newline. *)
Theorem cleanText_single_spaced (text : string) :
  single_spaced (cleanText text) true = true
  /\ trim (cleanText text) = cleanText text
  /\ cleanText text = trim (collapseSpaces (replaceCRLF text) false)
  /\ single_spaced (cleanPDFText text) true = true
  /\ trim (cleanPDFText text) = cleanPDFText text
  /\ cleanPDFText text = trim (collapseSpaces text false).
Proof.
  unfold cleanText, cleanPDFText.
  rewrite !(squeezeNewlines_single_spaced _ false)
    by apply collapseSpaces_single_spaced.
  repeat split; try apply trim_idempotent;
    eapply trim_single_spaced; apply collapseSpaces_single_spaced.
Qed.

Lemma cleanText_shape (text : string) :
  single_spaced (cleanText text) true = true.
Proof.
  unfold cleanText.
  rewrite (squeezeNewlines_single_spaced _ false) by apply collapseSpaces_single_spaced.
  eapply trim_single_spaced. apply collapseSpaces_single_spaced.
Qed.

(** X5.  Cleaning is idempotent: a cleaned text is left unchanged by
    cleaning it again. *)
Theorem cleanText_idempotent (text : string) :
  cleanText (cleanText text) = cleanText text.
Proof.
  pose proof (cleanText_shape text) as Hshape.
  set (c := cleanText text) in *.
  assert (Htrim : trim c = c).
  { unfold c, cleanText. apply trim_idempotent. }
  unfold cleanText at 1.
  rewrite (replaceCRLF_fixed c true Hshape).
  assert (Hfalse : single_spaced c false = true).
  { destruct c as [|a r]; [reflexivity|]. simpl in *.
    destruct (is_space a); [|exact Hshape].
    rewrite andb_false_r in Hshape. discriminate. }
  rewrite (collapseSpaces_fixed c false Hfalse).
  rewrite (squeezeNewlines_single_spaced c false Hfalse).
  exact Htrim.
Qed.

(** ** Blank and non-blank files *)

Lemma has_ink_trimStart (s : string) : has_ink (trimStart s) = has_ink s.
Proof.
  induction s as [|a r IH]; simpl; [reflexivity|].
  destruct (is_space a) eqn:Ha; simpl; [exact IH|now rewrite Ha].
Qed.

Lemma trimEnd_empty (s : string) : trimEnd s = "" <-> has_ink s = false.
Proof.
  induction s as [|a r IH]; simpl; [tauto|].
  destruct (trimEnd r) as [|x r'].
  - destruct (is_space a); simpl; split; intros H; try discriminate; tauto.
  - split; [discriminate|]. intros H. apply orb_false_iff in H as [_ H].
    apply IH in H. discriminate.
Qed.

Lemma has_ink_trimEnd (s : string) : has_ink (trimEnd s) = has_ink s.
Proof.
  induction s as [|a r IH]; simpl; [reflexivity|].
  destruct (trimEnd r) as [|x r'] eqn:E.
  - assert (Hr : has_ink r = false) by now apply trimEnd_empty.
    rewrite Hr. destruct (is_space a) eqn:Ha; simpl; now rewrite ?Ha.
  - simpl in *. now rewrite IH.
Qed.

Lemma has_ink_trim (s : string) : has_ink (trim s) = has_ink s.
Proof. unfold trim. now rewrite has_ink_trimEnd, has_ink_trimStart. Qed.

Lemma trim_blank (s : string) : (len (trim s) =? 0) = negb (has_ink s).
Proof.
  rewrite <- (has_ink_trim s).
  destruct (trim s) as [|a r] eqn:E; [reflexivity|].
  assert (Ha : is_space a = false).
  { pose proof (trimEnd_head (trimStart s) (trimStart_head s)) as Hh.
    unfold trim in E. now rewrite E in Hh. }
  cbn [has_ink]. rewrite Ha. cbn [negb orb].
  apply Z.eqb_neq. unfold len. simpl String.length. lia.
Qed.

Lemma has_ink_replaceCRLF (s : string) : has_ink (replaceCRLF s) = has_ink s.
Proof.
  assert (H : forall n s, (String.length s <= n)%nat ->
                          has_ink (replaceCRLF s) = has_ink s).
  { clear s. induction n as [|n IH]; intros [|a [|b r]] Hlen; simpl in *;
      try reflexivity; try lia.
    destruct (Ascii.eqb a CR && Ascii.eqb b LF)%bool eqn:E.
    - apply andb_true_iff in E as [Ea Eb].
      apply Ascii.eqb_eq in Ea, Eb. subst a b. simpl.
      apply IH. lia.
    - simpl. f_equal. apply (IH (String b r)). simpl. lia. }
  apply (H (String.length s)). lia.
Qed.

Lemma has_ink_collapseSpaces (s : string) :
  forall b, has_ink (collapseSpaces s b) = has_ink s.
Proof.
  induction s as [|a r IH]; intros b; simpl; [reflexivity|].
  destruct (is_space a) eqn:Ha; simpl.
  - destruct b; simpl; apply IH.
  - rewrite Ha. reflexivity.
Qed.

Lemma has_ink_cleanText (text : string) : has_ink (cleanText text) = has_ink text.
Proof.
  unfold cleanText.
  rewrite (squeezeNewlines_single_spaced _ false) by apply collapseSpaces_single_spaced.
  now rewrite has_ink_trim, has_ink_collapseSpaces, has_ink_replaceCRLF.
Qed.

(** X6.  [parseText] and [parseMarkdown] reject exactly the files without
    a character that is not white space (the empty file among them); any
    other file yields its cleaned text, which is then not blank, with
    [textLength] its length and [fileSize] the buffer's. *)
Theorem parseText_rejects_blank (buffer : Buffer) :
  (has_ink (decoded buffer) = false ->
   parseText buffer = ParseError "No content found in text file"
   /\ parseMarkdown buffer = ParseError "No content found in Markdown file")
  /\ (has_ink (decoded buffer) = true ->
      let cleaned := cleanText (decoded buffer) in
      parseText buffer
      = ParseOk cleaned (mkParseMetadata None (len cleaned) (byteLength buffer))
      /\ parseMarkdown buffer = parseText buffer
      /\ has_ink cleaned = true
      /\ 0 < len cleaned).
Proof.
  unfold parseText, parseMarkdown. rewrite trim_blank. split; intros Hink.
  - rewrite Hink. simpl. split; reflexivity.
  - rewrite Hink. simpl. repeat split.
    + now rewrite has_ink_cleanText.
    + pose proof (has_ink_cleanText (decoded buffer)) as Hc. rewrite Hink in Hc.
      destruct (cleanText (decoded buffer)); [discriminate|].
      unfold len. simpl. lia.
Qed.

Lemma parseText_rejects_blank_witness :
  let blank := mkBuffer (String LF (String SP (String LF ""))) 3 in
  let notes := mkBuffer ("Line one" ++ String CR (String LF "  line two  ")) 22 in
  has_ink (decoded blank) = false
  /\ parseText blank = ParseError "No content found in text file"
  /\ has_ink (decoded notes) = true
  /\ parseText notes
     = ParseOk "Line one line two" (mkParseMetadata None 17 22).
Proof.
  cbv zeta.
  set (blank := mkBuffer (String LF (String SP (String LF ""))) 3).
  set (notes := mkBuffer ("Line one" ++ String CR (String LF "  line two  ")) 22).
  assert (Hb : has_ink (decoded blank) = false) by reflexivity.
  assert (Hn : has_ink (decoded notes) = true) by reflexivity.
  split; [exact Hb|].
  split; [exact (proj1 (proj1 (parseText_rejects_blank blank) Hb))|].
  split; [exact Hn|].
  exact (proj1 (proj2 (parseText_rejects_blank notes) Hn)).
Defined.

(** ** Sentence boundaries after cleaning *)

Lemma has_boundary_piece (c s : string) :
  piece_of c s -> has_boundary s = false -> has_boundary c = false.
Proof.
  intros (before & after & ->). revert c after.
  induction before as [|a before IH]; intros c after; simpl.
  - induction c as [|x c IHc]; simpl; [reflexivity|].
    intros H. apply orb_false_iff in H as [Hx H]. rewrite Hx. now apply IHc.
  - intros H. apply orb_false_iff in H as [_ H]. now apply IH in H.
Qed.

Lemma has_punctuation_replaceCRLF (s : string) :
  has_punctuation (replaceCRLF s) = has_punctuation s.
Proof.
  assert (H : forall n s, (String.length s <= n)%nat ->
                          has_punctuation (replaceCRLF s) = has_punctuation s).
  { clear s. induction n as [|n IH]; intros [|a [|b r]] Hlen; simpl in *;
      try reflexivity; try lia.
    destruct (Ascii.eqb a CR && Ascii.eqb b LF)%bool eqn:E.
    - apply andb_true_iff in E as [Ea Eb].
      apply Ascii.eqb_eq in Ea, Eb. subst a b. simpl.
      apply IH. lia.
    - simpl. f_equal. f_equal. f_equal. apply (IH (String b r)). simpl. lia. }
  apply (H (String.length s)). lia.
Qed.

Lemma is_boundary_not_space (a : ascii) :
  is_space a = false ->
  is_boundary a = (Ascii.eqb a "." || Ascii.eqb a "?" || Ascii.eqb a "!")%bool.
Proof.
  intros Ha. unfold is_boundary.
  change newline with LF. rewrite (space_not_LF a Ha).
  now rewrite orb_false_r.
Qed.

Lemma punctuation_not_space (a : ascii) :
  is_space a = true ->
  (Ascii.eqb a "." || Ascii.eqb a "?" || Ascii.eqb a "!")%bool = false.
Proof.
  intros Ha.
  destruct (Ascii.eqb a ".") eqn:E1; [apply Ascii.eqb_eq in E1; subst; discriminate|].
  destruct (Ascii.eqb a "?") eqn:E2; [apply Ascii.eqb_eq in E2; subst; discriminate|].
  destruct (Ascii.eqb a "!") eqn:E3; [apply Ascii.eqb_eq in E3; subst; discriminate|].
  reflexivity.
Qed.

(** After the collapse of white space the sentence boundaries are the
    punctuation marks of the text: no newline is left. *)
Lemma has_boundary_collapseSpaces (s : string) :
  forall b, has_boundary (collapseSpaces s b) = has_punctuation s.
Proof.
  induction s as [|a r IH]; intros b; simpl; [reflexivity|].
  destruct (is_space a) eqn:Ha.
  - rewrite (punctuation_not_space a Ha). cbn [orb].
    destruct b; [apply IH|].
    cbn [has_boundary]. change (is_boundary SP) with false. apply IH.
  - cbn [has_boundary]. now rewrite (is_boundary_not_space a Ha), IH.
Qed.

Lemma has_boundary_cleanText (text : string) :
  has_punctuation text = false -> has_boundary (cleanText text) = false.
Proof.
  intros Hp. unfold cleanText.
  rewrite (squeezeNewlines_single_spaced _ false) by apply collapseSpaces_single_spaced.
  eapply has_boundary_piece; [apply trim_piece|].
  now rewrite has_boundary_collapseSpaces, has_punctuation_replaceCRLF.
Qed.

(** X7.  A text file that is not blank and has none of [.], [?], [!] is
    always chunked: for every [chunkSize > overlap >= 0], [parseTextChunks]
    returns a success within as many iterations as the cleaned text has
    characters (its newlines do not matter: cleaning removes them). *)
Theorem parseTextChunks_terminates_without_punctuation
        (buffer : Buffer) (chunkSize overlap : Z) :
  0 <= overlap < chunkSize ->
  has_ink (decoded buffer) = true ->
  has_punctuation (decoded buffer) = false ->
  let cleaned := cleanText (decoded buffer) in
  exists chunks,
    parseTextChunks (String.length cleaned) buffer chunkSize overlap
    = Some (Success chunks (Z.of_nat (List.length chunks)) cleaned
                    (mkParseMetadata None (len cleaned) (byteLength buffer)))
    /\ Forall (sound_chunk cleaned) chunks.
Proof.
  intros Hparams Hink Hp. cbv zeta.
  unfold parseTextChunks, parseText. rewrite trim_blank, Hink. simpl negb. cbv iota.
  unfold chunksOf.
  pose proof (has_boundary_cleanText _ Hp) as Hb.
  set (cleaned := cleanText (decoded buffer)) in *.
  unfold createTextChunks.
  destruct (while_loop_without_boundary cleaned chunkSize overlap Hparams Hb
              (String.length cleaned) (mkState 0 [])) as [st Hrun].
  - simpl. lia.
  - simpl. unfold len. lia.
  - rewrite Hrun. exists (pushed st). split; [reflexivity|].
    eapply while_loop_sound. exact Hrun.
Qed.

Lemma parseTextChunks_terminates_without_punctuation_witness :
  let notes := mkBuffer ("Line one" ++ String CR (String LF "  line two  ")) 22 in
  0 <= 5 < 8
  /\ has_ink (decoded notes) = true
  /\ has_punctuation (decoded notes) = false
  /\ exists chunks,
      parseTextChunks (String.length (cleanText (decoded notes))) notes 8 5
      = Some (Success chunks (Z.of_nat (List.length chunks)) (cleanText (decoded notes))
                      (mkParseMetadata None (len (cleanText (decoded notes)))
                                       (byteLength notes)))
      /\ Forall (sound_chunk (cleanText (decoded notes))) chunks.
Proof.
  cbv zeta.
  set (notes := mkBuffer ("Line one" ++ String CR (String LF "  line two  ")) 22).
  assert (H1 : 0 <= 5 < 8) by lia.
  assert (H2 : has_ink (decoded notes) = true) by reflexivity.
  assert (H3 : has_punctuation (decoded notes) = false) by reflexivity.
  split; [exact H1|]. split; [exact H2|]. split; [exact H3|].
  exact (parseTextChunks_terminates_without_punctuation notes 8 5 H1 H2 H3).
Defined.

(** ** [parseDocumentChunks] *)

Lemma createTextChunks_success {M : Type} (fuel : nat) (txt : string)
      (chunkSize overlap : Z) (md : M) chunks total original md' :
  createTextChunks fuel txt chunkSize overlap md
  = Some (Success chunks total original md') ->
  original = txt /\ md' = md /\ Forall (sound_chunk txt) chunks.
Proof.
  unfold createTextChunks. intros Hrun.
  destruct (while_loop fuel txt chunkSize overlap (mkState 0 [])) as [st|] eqn:Hloop;
    [|discriminate].
  injection Hrun as <- _ <- <-. repeat split.
  eapply while_loop_sound. exact Hloop.
Qed.

Lemma chunksOf_success (fuel : nat) (parsed : ParseResult) (chunkSize overlap : Z)
      chunks total original md :
  chunksOf fuel parsed chunkSize overlap = Some (Success chunks total original md) ->
  parsed = ParseOk original md /\ Forall (sound_chunk original) chunks.
Proof.
  unfold chunksOf. destruct parsed as [text md0|error]; [|discriminate].
  intros Hrun. apply createTextChunks_success in Hrun as (-> & -> & Hall). auto.
Qed.

Section Enrich.

Variable uuidv4 : nat -> string.
Variable isoDate : nat -> string.

Lemma enrich_indices (chunks : list Chunk) (filename fileType : string) (size : Z) :
  forall index,
    let enriched := enrich uuidv4 isoDate chunks index filename fileType size in
    List.length enriched = List.length chunks
    /\ map e_chunkIndex enriched = map Z.of_nat (seq index (List.length chunks))
    /\ map e_id enriched = map uuidv4 (seq index (List.length chunks))
    /\ map e_text enriched = map Chunker.text chunks
    /\ Forall (fun c => e_filename c = filename /\ e_fileType c = fileType
                        /\ e_fileSize c = size) enriched.
Proof.
  induction chunks as [|chunk rest IH]; intros index; simpl.
  - repeat split; constructor.
  - destruct (IH (S index)) as (Hlen & Hidx & Hid & Htext & Hall).
    repeat split; try (f_equal; assumption).
    constructor; [simpl; auto|exact Hall].
Qed.

Lemma enrich_sound (txt : string) (chunks : list Chunk)
      (filename fileType : string) (size : Z) :
  Forall (sound_chunk txt) chunks ->
  forall index,
    Forall (fun c => e_text c <> "" /\ trim (e_text c) = e_text c
                     /\ e_length c = len (e_text c) /\ piece_of (e_text c) txt)
           (enrich uuidv4 isoDate chunks index filename fileType size).
Proof.
  induction 1 as [|chunk rest Hc Hrest IH]; intros index; simpl; constructor.
  - exact Hc.
  - apply IH.
Qed.

End Enrich.

(** A success of [parseDocumentChunks] is the enrichment of the chunks of
    a finished chunking run on the returned text. *)
Lemma parseDocumentChunks_shape
      (pdf_pages : Buffer -> string + list (list string))
      (uuidv4 isoDate : nat -> string) (fuel : nat) (buffer : Buffer)
      (filename fileType : string) (chunkSize overlap : Z)
      chunks total original md filename' fileType' date :
  parseDocumentChunks pdf_pages uuidv4 isoDate fuel (Some buffer) filename fileType
                      chunkSize overlap
  = Some (DocumentOk chunks total original md filename' fileType' date) ->
  exists plain,
    chunks = enrich uuidv4 isoDate plain 0 filename (toLowerCase fileType)
                    (byteLength buffer)
    /\ total = Z.of_nat (List.length chunks)
    /\ Forall (sound_chunk original) plain.
Proof.
  unfold parseDocumentChunks. intros Hrun.
  destruct (parser_for fileType) as [parser|]; [|discriminate].
  set (chunkResult :=
         match parser with
         | PdfParser => parsePDFChunks pdf_pages fuel buffer chunkSize overlap
         | MarkdownParser => parseMarkdownChunks fuel buffer chunkSize overlap
         | TextParser => parseTextChunks fuel buffer chunkSize overlap
         end) in *.
  assert (Hsound : forall cs t o m,
             chunkResult = Some (Success cs t o m) -> Forall (sound_chunk o) cs).
  { intros cs t o m H. unfold chunkResult in H.
    destruct parser; apply chunksOf_success in H; tauto. }
  destruct chunkResult as [[chunks0 total0 original0 md0|error]|]; try discriminate.
  specialize (Hsound _ _ _ _ eq_refl).
  injection Hrun as <- <- <- _ _ _ _.
  exists chunks0. auto.
Qed.

(** X8.  When [parseDocumentChunks] succeeds, the chunks it returns are
    numbered 0, 1, 2, ... in order ([chunkIndex]), [totalChunks] is their
    number, the i-th chunk carries the i-th generated id, and every chunk
    carries the file name, the lower-cased file type and the buffer's size,
    and a text that is not empty, trimmed, and a run of consecutive
    characters of the returned [originalText]. *)
Theorem parseDocumentChunks_numbering
        (pdf_pages : Buffer -> string + list (list string))
        (uuidv4 isoDate : nat -> string) (fuel : nat) (buffer : Buffer)
        (filename fileType : string) (chunkSize overlap : Z)
        chunks total original md filename' fileType' date :
  parseDocumentChunks pdf_pages uuidv4 isoDate fuel (Some buffer) filename fileType
                      chunkSize overlap
  = Some (DocumentOk chunks total original md filename' fileType' date) ->
  map e_chunkIndex chunks = map Z.of_nat (seq 0 (List.length chunks))
  /\ total = Z.of_nat (List.length chunks)
  /\ map e_id chunks = map uuidv4 (seq 0 (List.length chunks))
  /\ Forall (fun c => e_filename c = filename
                      /\ e_fileType c = toLowerCase fileType
                      /\ e_fileSize c = byteLength buffer) chunks
  /\ Forall (fun c => e_text c <> "" /\ trim (e_text c) = e_text c
                      /\ e_length c = len (e_text c) /\ piece_of (e_text c) original)
            chunks.
Proof.
  intros Hrun.
  apply parseDocumentChunks_shape in Hrun as (plain & -> & -> & Hsound).
  destruct (enrich_indices uuidv4 isoDate plain filename (toLowerCase fileType)
                           (byteLength buffer) 0) as (Hlen & Hidx & Hid & _ & Hall).
  rewrite Hlen. repeat split; try assumption.
  now apply enrich_sound.
Qed.

Lemma parseDocumentChunks_numbering_witness :
  let notes := mkBuffer "Line one line two" 17 in
  let uuid := fun i : nat => ("id-" ++ NilZero.string_of_uint (Nat.to_uint i))%string in
  let date := fun _ : nat => "2024-01-01T00:00:00.000Z" in
  exists chunks total original md filename' fileType' date',
    parseDocumentChunks (fun _ => inl "no pdf") uuid date 3 (Some notes)
                        "Notes.TXT" "TXT" 10 2
    = Some (DocumentOk chunks total original md filename' fileType' date')
    /\ map e_chunkIndex chunks = [0; 1]
    /\ map e_id chunks = ["id-0"; "id-1"]
    /\ map e_chunkIndex chunks = map Z.of_nat (seq 0 (List.length chunks)).
Proof.
  cbv zeta.
  set (notes := mkBuffer "Line one line two" 17).
  set (uuid := fun i : nat => ("id-" ++ NilZero.string_of_uint (Nat.to_uint i))%string).
  set (date := fun _ : nat => "2024-01-01T00:00:00.000Z").
  assert (Hrun : parseDocumentChunks (fun _ => inl "no pdf") uuid date 3 (Some notes)
                                     "Notes.TXT" "TXT" 10 2
                 = Some (DocumentOk
                           [mkEnrichedChunk "Line one l" 10 10 "id-0" "Notes.TXT" "txt"
                                            0 "2024-01-01T00:00:00.000Z" 17;
                            mkEnrichedChunk "line two" 17 8 "id-1" "Notes.TXT" "txt"
                                            1 "2024-01-01T00:00:00.000Z" 17]
                           2 "Line one line two" (mkParseMetadata None 17 17)
                           "Notes.TXT" "txt" "2024-01-01T00:00:00.000Z"))
    by (vm_compute; reflexivity).
  do 7 eexists. split; [exact Hrun|]. split; [reflexivity|]. split; [reflexivity|].
  exact (proj1 (parseDocumentChunks_numbering _ uuid date 3 notes "Notes.TXT" "TXT"
                  10 2 _ _ _ _ _ _ _ Hrun)).
Defined.

(** X9.  The list of supported types and the [switch] of the parser agree:
    [validateFileType] accepts a type exactly when [parseDocumentChunks] has
    a branch for it; for any other type the parser fails, before reading the
    buffer, with ["Unsupported file type: "] followed by the type as it was
    given. *)
Theorem validateFileType_matches_parser
        (pdf_pages : Buffer -> string + list (list string))
        (uuidv4 isoDate : nat -> string) (fileType : string) :
  (validateFileType fileType = true <-> parser_for fileType <> None)
  /\ (validateFileType fileType = false ->
      forall fuel buffer filename chunkSize overlap,
        parseDocumentChunks pdf_pages uuidv4 isoDate fuel (Some buffer) filename
                            fileType chunkSize overlap
        = Some (DocumentError ("Unsupported file type: " ++ fileType))).
Proof.
  assert (Hagree : validateFileType fileType
                   = match parser_for fileType with Some _ => true | None => false end).
  { unfold validateFileType, parser_for, getSupportedFileTypes. simpl existsb.
    destruct (String.eqb (toLowerCase fileType) "pdf");
      destruct (String.eqb (toLowerCase fileType) "md");
      destruct (String.eqb (toLowerCase fileType) "markdown");
      destruct (String.eqb (toLowerCase fileType) "txt");
      destruct (String.eqb (toLowerCase fileType) "text"); reflexivity. }
  split.
  - rewrite Hagree. destruct (parser_for fileType); split; congruence.
  - intros Hno fuel buffer filename chunkSize overlap.
    unfold parseDocumentChunks. rewrite Hagree in Hno.
    destruct (parser_for fileType); [discriminate|reflexivity].
Qed.

Lemma validateFileType_matches_parser_witness :
  validateFileType "docx" = false
  /\ validateFileType "Markdown" = true
  /\ parseDocumentChunks (fun _ => inl "no pdf") (fun _ => "id") (fun _ => "now") 0
                         (Some (mkBuffer "hello" 5)) "a.docx" "docx" 1000 200
     = Some (DocumentError "Unsupported file type: docx").
Proof.
  assert (Hno : validateFileType "docx" = false) by reflexivity.
  split; [exact Hno|]. split; [reflexivity|].
  exact (proj2 (validateFileType_matches_parser (fun _ => inl "no pdf")
                  (fun _ => "id") (fun _ => "now") "docx")
               Hno 0%nat (mkBuffer "hello" 5) "a.docx" 1000 200).
Defined.

(** ** Reproducibility *)

(** The outlines of the enriched chunks do not depend on where the ids and
    the dates come from, nor on the file's name and size. *)
Lemma enrich_outline (uuid1 date1 uuid2 date2 : nat -> string) (chunks : list Chunk)
      (name1 name2 type1 type2 : string) (size1 size2 : Z) :
  forall index,
    map chunk_outline (enrich uuid1 date1 chunks index name1 type1 size1)
    = map chunk_outline (enrich uuid2 date2 chunks index name2 type2 size2).
Proof.
  induction chunks as [|chunk rest IH]; intros index; [reflexivity|].
  cbn [enrich map]. rewrite (IH (S index)). reflexivity.
Qed.

(** A run of [createTextChunks] that returns does so with every larger
    budget of iterations, and with the same chunks whatever the metadata
    that is passed along. *)
Lemma createTextChunks_budget {M N : Type} (f1 f2 : nat) (txt : string)
      (chunkSize overlap : Z) (md1 : M) (md2 : N) r1 r2 :
  createTextChunks f1 txt chunkSize overlap md1 = Some r1 ->
  createTextChunks f2 txt chunkSize overlap md2 = Some r2 ->
  chunks_of r1 = chunks_of r2.
Proof.
  unfold createTextChunks. intros H1 H2.
  destruct (while_loop f1 txt chunkSize overlap (mkState 0 [])) as [s1|] eqn:E1;
    [|discriminate].
  destruct (while_loop f2 txt chunkSize overlap (mkState 0 [])) as [s2|] eqn:E2;
    [|discriminate].
  assert (s1 = s2) by (eapply while_loop_agree; eassumption). subst s2.
  injection H1 as <-. injection H2 as <-. reflexivity.
Qed.

Lemma chunksOf_budget (f1 f2 : nat) (parsed : ParseResult) (chunkSize overlap : Z) r1 r2 :
  chunksOf f1 parsed chunkSize overlap = Some r1 ->
  chunksOf f2 parsed chunkSize overlap = Some r2 ->
  r1 = r2.
Proof.
  unfold chunksOf. destruct parsed as [text md|error]; [|congruence].
  unfold createTextChunks. intros H1 H2.
  destruct (while_loop f1 text chunkSize overlap (mkState 0 [])) as [s1|] eqn:E1;
    [|discriminate].
  destruct (while_loop f2 text chunkSize overlap (mkState 0 [])) as [s2|] eqn:E2;
    [|discriminate].
  assert (s1 = s2) by (eapply while_loop_agree; eassumption). subst s2.
  congruence.
Qed.



End ParseFacts.

(* ================================================================== *)
(** * Properties of the embedder's feature vector *)
(* ================================================================== *)

Section SimpleEmbeddingFacts.

Import JsNumber JsString Embeddings SimpleEmbedding.

(** ** [hashCode] *)

Lemma to_int32_range (z : Z) : - 2 ^ 31 <= to_int32 z < 2 ^ 31.
Proof.
  unfold to_int32.
  pose proof (Z.mod_pos_bound (z + 2 ^ 31) (2 ^ 32) ltac:(lia)).
  change (2 ^ 32) with (2 * 2 ^ 31) in *. lia.
Qed.

Lemma to_int32_mod (z : Z) : to_int32 z mod 2 ^ 32 = z mod 2 ^ 32.
Proof.
  unfold to_int32.
  rewrite Zminus_mod_idemp_l. f_equal. lia.
Qed.

Lemma to_int32_congruent (x y : Z) :
  x mod 2 ^ 32 = y mod 2 ^ 32 -> to_int32 x = to_int32 y.
Proof.
  intros Hxy. unfold to_int32. f_equal.
  rewrite <- (Zplus_mod_idemp_l x), <- (Zplus_mod_idemp_l y). now rewrite Hxy.
Qed.

(** One step multiplies by 31 and adds the character code, modulo 2^32. *)
Lemma hash_step_31 (hash char acc : Z) :
  hash = to_int32 acc ->
  hash_step hash char = to_int32 (31 * acc + char).
Proof.
  intros ->. unfold hash_step. apply to_int32_congruent.
  replace (to_int32 (to_int32 acc * 32) - to_int32 acc + char)
    with (to_int32 (to_int32 acc * 32) + (- to_int32 acc + char)) by lia.
  rewrite <- Zplus_mod_idemp_l, to_int32_mod, Zplus_mod_idemp_l.
  replace (to_int32 acc * 32 + (- to_int32 acc + char))
    with (31 * to_int32 acc + char) by lia.
  rewrite <- Zplus_mod_idemp_l, <- Zmult_mod_idemp_r, to_int32_mod.
  now rewrite Zmult_mod_idemp_r, Zplus_mod_idemp_l.
Qed.

Lemma hash_loop_polynomial (str : string) :
  forall hash acc,
    hash = to_int32 acc ->
    hash_loop str hash = to_int32 (polynomial31 str acc).
Proof.
  induction str as [|a r IH]; intros hash acc Hh; simpl.
  - exact Hh.
  - apply IH. now apply hash_step_31.
Qed.

(** X10.  [hashCode] is the absolute value of the polynomial hash of the
    character codes in base 31, wrapped to 32-bit signed integers; it lies
    between 0 and 2^31 inclusive, and the hash of the empty string is 0. *)
Theorem hashCode_polynomial (str : string) :
  hashCode str = Z.abs (to_int32 (polynomial31 str 0))
  /\ 0 <= hashCode str <= 2 ^ 31
  /\ hashCode "" = 0.
Proof.
  assert (Hh : hashCode str = Z.abs (to_int32 (polynomial31 str 0))).
  { unfold hashCode. f_equal. now apply hash_loop_polynomial. }
  split; [exact Hh|]. split; [|reflexivity].
  rewrite Hh. pose proof (to_int32_range (polynomial31 str 0)). lia.
Qed.

Example hashCode_hello_world : hashCode "hello world" = 1794106052.
Proof. reflexivity. Qed.

(** ** Normalisation *)

Lemma kept_lower_char (a : ascii) : kept a = true -> ParseDocuments.lower_char a = a.
Proof.
  destruct a as [[] [] [] [] [] [] [] []];
    intros H; vm_compute in H |- *; first [reflexivity | discriminate H].
Qed.

Lemma kept_not_sentence_mark (a : ascii) : kept a = true -> is_sentence_mark a = false.
Proof.
  destruct a as [[] [] [] [] [] [] [] []];
    intros H; vm_compute in H |- *; first [reflexivity | discriminate H].
Qed.

Lemma strip_all_kept (s : string) : all_kept (strip s) = true.
Proof.
  induction s as [|a r IH]; simpl; [reflexivity|].
  destruct (kept a) eqn:Ha; [simpl; now rewrite Ha|exact IH].
Qed.

Lemma all_kept_fixed (s : string) :
  all_kept s = true -> ParseDocuments.toLowerCase s = s /\ strip s = s.
Proof.
  induction s as [|a r IH]; simpl; [auto|].
  intros H. apply andb_true_iff in H as [Ha Hr]. destruct (IH Hr) as [Hl Hs].
  rewrite Ha, Hl, Hs, (kept_lower_char a Ha). auto.
Qed.

Lemma normalizeText_idempotent (text : string) :
  normalizeText (normalizeText text) = normalizeText text.
Proof.
  unfold normalizeText.
  destruct (all_kept_fixed _ (strip_all_kept (ParseDocuments.toLowerCase text)))
    as [Hl Hs].
  now rewrite Hl, Hs.
Qed.

Lemma countRuns_sentence_marks (s : string) :
  all_kept s = true -> forall b, countRuns is_sentence_mark s b = 0.
Proof.
  induction s as [|a r IH]; simpl; [reflexivity|].
  intros H b. apply andb_true_iff in H as [Ha Hr].
  rewrite (kept_not_sentence_mark a Ha). now apply IH.
Qed.

Section SineFacts.

Variable math_sin : number -> number.

Lemma length_features (normalizedText : string) :
  List.length (features math_sin normalizedText) = 384%nat.
Proof.
  unfold features. cbv zeta.
  rewrite !length_app, !length_map, length_seq. reflexivity.
Qed.

(** X11.  Every embedding has 384 entries, whatever the text; [embedText]
    reports that dimension for every string that is not empty, and fails
    with its error message on the empty string and on a value that is not a
    string. *)
Theorem embedding_dimension (text : string) :
  List.length (createSimpleEmbedding math_sin text) = 384%nat
  /\ (forall a r,
         embedText (createSimpleEmbedding math_sin) (Some (String a r))
         = EmbedOk (createSimpleEmbedding math_sin (String a r)) 384)
  /\ embedText (createSimpleEmbedding math_sin) (Some "")
     = EmbedError "Invalid text input for embedding"
  /\ embedText (createSimpleEmbedding math_sin) None
     = EmbedError "Invalid text input for embedding".
Proof.
  assert (Hlen : forall t, List.length (createSimpleEmbedding math_sin t) = 384%nat).
  { intros t. unfold createSimpleEmbedding. cbv zeta.
    rewrite length_map. apply length_features. }
  split; [apply Hlen|]. split; [|split; reflexivity].
  intros a r. unfold embedText. now rewrite Hlen.
Qed.

(** X12.  The embedding of a text is the embedding of its normalised form:
    letter case and every character other than letters, digits and white
    space have no influence on the vector. *)
Theorem embedding_ignores_case_and_punctuation (text : string) :
  normalizeText (normalizeText text) = normalizeText text
  /\ createSimpleEmbedding math_sin (normalizeText text)
     = createSimpleEmbedding math_sin text.
Proof.
  split; [apply normalizeText_idempotent|].
  unfold createSimpleEmbedding. now rewrite normalizeText_idempotent.
Qed.

Example embedding_of_shouted_text :
  normalizeText "Hello, World!" = normalizeText "hello world".
Proof. reflexivity. Qed.

(** X13.  The sentence-count feature never varies: the normalised text has
    no [.], [!] or [?] left, so [split(/[.!?]+/)] always gives one piece and
    entry 28 of the vector before normalisation is 1/10 for every text. *)
Theorem sentence_feature_is_constant (text : string) :
  sentencePieces (normalizeText text) = 1
  /\ nth 28 (features math_sin (normalizeText text)) zero = div (of_Z 1) (of_Z 10).
Proof.
  assert (Hone : sentencePieces (normalizeText text) = 1).
  { unfold sentencePieces, normalizeText.
    now rewrite countRuns_sentence_marks by apply strip_all_kept. }
  split; [exact Hone|].
  unfold features. cbv zeta.
  rewrite app_nth2 by (rewrite length_map; simpl; lia).
  rewrite length_map. change (28 - List.length alphabet)%nat with 2%nat.
  cbn [nth app]. now rewrite Hone.
Qed.

End SineFacts.

(** ** [similarity] *)

Lemma SFmul_comm (x y : spec_float) : mul x y = mul y x.
Proof.
  unfold mul, SFmul.
  destruct x as [sx|sx| |sx mx ex], y as [sy|sy| |sy my ey];
    try reflexivity; try (now rewrite xorb_comm).
  now rewrite xorb_comm, Pos.mul_comm, Z.add_comm.
Qed.

Lemma accumulate_swap (a b : Embedding) :
  forall d n1 n2,
    accumulate b a (d, n2, n1)
    = let '(d', n1', n2') := accumulate a b (d, n1, n2) in (d', n2', n1').
Proof.
  revert b. induction a as [|x a IH]; intros [|y b] d n1 n2; try reflexivity.
  simpl. rewrite (SFmul_comm y x). apply IH.
Qed.

(** X14.  [similarity] is symmetric: exchanging its arguments gives the
    same result, bit for bit, be it a value or an error. *)
Theorem similarity_symmetric (a b : option Embedding) :
  similarity a b = similarity b a.
Proof.
  destruct a as [a|], b as [b|]; try reflexivity.
  unfold similarity. rewrite (Nat.eqb_sym (List.length b)).
  destruct (Nat.eqb (List.length a) (List.length b)); [|reflexivity].
  simpl negb. cbv iota.
  rewrite (accumulate_swap a b zero zero zero).
  destruct (accumulate a b (zero, zero, zero)) as [[d n1] n2].
  now rewrite (SFmul_comm (sqrt n2) (sqrt n1)).
Qed.

(** X15.  For two vectors that are present, [similarity] fails exactly
    when their lengths differ, with the message about dimensions; otherwise
    it succeeds, and the value it returns is in [0,1] unless it is NaN. *)
Theorem similarity_value_or_mismatch (a b : Embedding) :
  match similarity (Some a) (Some b) with
  | SimilarityOk x =>
      List.length a = List.length b
      /\ (is_nan x = true \/ in_unit_interval x = true)
  | SimilarityError error =>
      List.length a <> List.length b
      /\ error = "Embeddings must have the same dimensions"
  end.
Proof.
  destruct (Nat.eq_dec (List.length a) (List.length b)) as [Heq | Hne].
  - destruct (similarity_same_length a b Heq) as (x & -> & Hx). auto.
  - rewrite (similarity_dimension_mismatch a b Hne). auto.
Qed.

End SimpleEmbeddingFacts.

(* ================================================================== *)
(** * The accuracy of the arithmetic of doubles *)
(* ================================================================== *)

Section RoundingFacts.

Import Rounding.
Local Open Scope R_scope.

(** ** Powers of two, digits and shifts *)
Lemma bpow_pos (e : Z) : 0 < bpow e.
Proof. apply powerRZ_lt. lra. Qed.

Lemma bpow_add (a b : Z) : bpow (a + b) = bpow a * bpow b.
Proof. apply powerRZ_add. lra. Qed.

Lemma bpow_0 : bpow 0 = 1.
Proof. reflexivity. Qed.

Lemma bpow_1 : bpow 1 = 2.
Proof. unfold bpow. simpl. lra. Qed.

Lemma bpow_m1 : bpow (-1) = / 2.
Proof. unfold bpow. simpl. lra. Qed.

Lemma bpow_opp (a : Z) : bpow (- a) = / bpow a.
Proof. apply powerRZ_neg'. Qed.

Lemma bpow_succ (a : Z) : bpow (a + 1) = 2 * bpow a.
Proof. rewrite bpow_add, bpow_1. lra. Qed.

Lemma bpow_IZR (e : Z) : (0 <= e)%Z -> bpow e = IZR (2 ^ e).
Proof.
  intros He. unfold bpow. destruct e as [|p|p]; [reflexivity| |lia].
  symmetry. apply Zpower_pos_powerRZ.
Qed.

Lemma bpow_le (a b : Z) : (a <= b)%Z -> bpow a <= bpow b.
Proof.
  intros H. replace b with (a + (b - a))%Z by lia. rewrite bpow_add.
  assert (1 <= bpow (b - a)).
  { rewrite bpow_IZR by lia. apply IZR_le.
    assert (0 < 2 ^ (b - a))%Z by (apply Z.pow_pos_nonneg; lia). lia. }
  pose proof (bpow_pos a). nra.
Qed.

Lemma bpow_lt (a b : Z) : (a < b)%Z -> bpow a < bpow b.
Proof.
  intros H. replace b with (a + 1 + (b - a - 1))%Z by lia.
  rewrite bpow_add, bpow_succ.
  assert (1 <= bpow (b - a - 1)).
  { rewrite bpow_IZR by lia. apply IZR_le.
    assert (0 < 2 ^ (b - a - 1))%Z by (apply Z.pow_pos_nonneg; lia). lia. }
  pose proof (bpow_pos a). nra.
Qed.

(** Digits *)
Lemma digits2_pos_bounds (m : positive) :
  (2 ^ (Z.pos (digits2_pos m) - 1) <= Z.pos m < 2 ^ Z.pos (digits2_pos m))%Z.
Proof.
  induction m as [m IH|m IH|]; cbn [digits2_pos].
  - rewrite Pos2Z.inj_succ.
    replace (Z.succ (Z.pos (digits2_pos m)) - 1)%Z with (Z.pos (digits2_pos m) - 1 + 1)%Z by lia.
    rewrite Z.pow_add_r by lia. rewrite Z.pow_succ_r by lia. lia.
  - rewrite Pos2Z.inj_succ.
    replace (Z.succ (Z.pos (digits2_pos m)) - 1)%Z with (Z.pos (digits2_pos m) - 1 + 1)%Z by lia.
    rewrite Z.pow_add_r by lia. rewrite Z.pow_succ_r by lia. lia.
  - simpl. lia.
Qed.

Lemma Zdigits2_bounds (m : Z) :
  (0 < m)%Z -> (2 ^ (Zdigits2 m - 1) <= m < 2 ^ Zdigits2 m)%Z.
Proof. destruct m as [|p|p]; try lia. intros _. apply digits2_pos_bounds. Qed.

Lemma Zdigits2_nonneg (m : Z) : (0 <= Zdigits2 m)%Z.
Proof. destruct m; simpl; lia. Qed.

(** If m < 2^k then digits m <= k *)
Lemma Zdigits2_le (m k : Z) : (0 <= m)%Z -> (0 <= k)%Z -> (m < 2 ^ k)%Z -> (Zdigits2 m <= k)%Z.
Proof.
  intros Hm Hk Hlt. destruct (Z.eq_dec m 0) as [->|Hne]; [simpl; lia|].
  destruct (Zdigits2_bounds m ltac:(lia)) as [Hlo _].
  destruct (Z_le_gt_dec (Zdigits2 m) k) as [H|H]; [exact H|exfalso].
  assert (2 ^ k <= 2 ^ (Zdigits2 m - 1))%Z by (apply Z.pow_le_mono_r; lia).
  lia.
Qed.

Lemma Zdigits2_ge (m k : Z) : (0 <= k)%Z -> (2 ^ k <= m)%Z -> (k + 1 <= Zdigits2 m)%Z.
Proof.
  intros Hk Hge.
  assert (0 < 2 ^ k)%Z by (apply Z.pow_pos_nonneg; lia).
  destruct (Zdigits2_bounds m ltac:(lia)) as [_ Hhi].
  destruct (Z_le_gt_dec (k + 1) (Zdigits2 m)) as [H'|H']; [exact H'|exfalso].
  pose proof (Zdigits2_nonneg m).
  assert (2 ^ Zdigits2 m <= 2 ^ k)%Z by (apply Z.pow_le_mono_r; lia).
  lia.
Qed.

(** iter_pos *)
Lemma iter_pos_nat {A : Type} (f : A -> A) (p : positive) (x : A) :
  SpecFloat.iter_pos f p x = Nat.iter (Pos.to_nat p) f x.
Proof.
  revert x. induction p as [p IH|p IH|]; intros x; cbn [SpecFloat.iter_pos].
  - rewrite !IH. rewrite Pos2Nat.inj_xI. 
    replace (S (2 * Pos.to_nat p))%nat with (Pos.to_nat p + Pos.to_nat p + 1)%nat by lia.
    rewrite !Nat.iter_add. reflexivity.
  - rewrite !IH. rewrite Pos2Nat.inj_xO.
    replace (2 * Pos.to_nat p)%nat with (Pos.to_nat p + Pos.to_nat p)%nat by lia.
    rewrite Nat.iter_add. reflexivity.
  - reflexivity.
Qed.

Lemma shr_1_represents (mrs : shr_record) (v : R) :
  represents mrs v -> represents (shr_1 mrs) (v / 2).
Proof.
  destruct mrs as [m r s]. unfold represents. cbn [shr_m loc_of_shr_record].
  intros [Hm Hloc].
  destruct m as [|p|p]; [| |lia].
  - (* m = 0 *)
    cbn [shr_1 shr_m]. split; [lia|].
    destruct r, s; cbn [orb loc_of_shr_record at_location] in *; lra.
  - destruct p as [p|p|].
    + cbn [shr_1 shr_m]. split; [lia|].
      rewrite Pos2Z.inj_xI in Hloc. rewrite plus_IZR, mult_IZR in Hloc.
      destruct r, s; cbn [orb loc_of_shr_record at_location] in *; lra.
    + cbn [shr_1 shr_m]. split; [lia|].
      rewrite Pos2Z.inj_xO in Hloc. rewrite mult_IZR in Hloc.
      destruct r, s; cbn [orb loc_of_shr_record at_location] in *; lra.
    + cbn [shr_1 shr_m]. split; [lia|].
      destruct r, s; cbn [orb loc_of_shr_record at_location] in *; lra.
Qed.

Lemma iter_shr_1_represents (k : nat) (mrs : shr_record) (v : R) :
  represents mrs v ->
  represents (Nat.iter k shr_1 mrs) (v * bpow (- Z.of_nat k)).
Proof.
  intros H. induction k as [|k IH].
  - cbn [Nat.iter]. change (- Z.of_nat 0)%Z with 0%Z. rewrite bpow_0. now rewrite Rmult_1_r.
  - cbn [Nat.iter]. apply shr_1_represents in IH.
    replace (v * bpow (- Z.of_nat (S k))) with (v * bpow (- Z.of_nat k) / 2); [exact IH|].
    replace (- Z.of_nat (S k))%Z with (- Z.of_nat k + -1)%Z by lia.
    rewrite bpow_add, bpow_m1. lra.
Qed.

Lemma shr_represents (mrs : shr_record) (e n : Z) (v : R) :
  represents mrs v -> (0 <= n)%Z ->
  represents (fst (shr mrs e n)) (v * bpow (- n)) /\ snd (shr mrs e n) = (e + n)%Z.
Proof.
  intros H Hn. destruct n as [|p|p]; [| |lia].
  - cbn [shr fst snd]. change (- 0)%Z with 0%Z. rewrite bpow_0, Rmult_1_r. split; [exact H|lia].
  - cbn [shr fst snd]. split; [|reflexivity].
    rewrite iter_pos_nat.
    replace (Z.pos p) with (Z.of_nat (Pos.to_nat p)) by apply positive_nat_Z.
    now apply iter_shr_1_represents.
Qed.

Lemma shr_noop (mrs : shr_record) (e n : Z) :
  (n <= 0)%Z -> shr mrs e n = (mrs, e).
Proof. destruct n; try reflexivity. lia. Qed.

Lemma represents_of_loc (m : Z) (l : location) (v : R) :
  (0 <= m)%Z -> at_location (v - IZR m) l ->
  represents (shr_record_of_loc m l) v.
Proof.
  intros Hm Hl. unfold represents.
  destruct l as [|[]]; cbn [shr_record_of_loc shr_m loc_of_shr_record]; auto.
Qed.

(** bounds on the mantissa of a record *)
Lemma represents_bounds (mrs : shr_record) (v : R) :
  represents mrs v -> IZR (shr_m mrs) <= v < IZR (shr_m mrs) + 1.
Proof.
  intros [_ H]. destruct (loc_of_shr_record mrs) as [|[]]; cbn [at_location] in H; lra.
Qed.

Lemma round_nearest_even_spec (mrs : shr_record) (v : R) :
  represents mrs v ->
  let m := round_nearest_even (shr_m mrs) (loc_of_shr_record mrs) in
  (shr_m mrs <= m <= shr_m mrs + 1)%Z
  /\ Rabs (IZR m - v) <= / 2
  /\ (loc_of_shr_record mrs = loc_Exact -> IZR m = v).
Proof.
  intros [Hm H]. cbv zeta.
  destruct (loc_of_shr_record mrs) as [|[]]; cbn [at_location round_nearest_even] in *.
  - split; [lia|]. split; [|intros _; lra]. replace (IZR (shr_m mrs) - v) with 0 by lra.
    rewrite Rabs_R0. lra.
  - destruct (Z.even (shr_m mrs)).
    + split; [lia|]. split; [|discriminate]. rewrite Rabs_left1; lra.
    + split; [lia|]. split; [|discriminate]. rewrite plus_IZR. rewrite Rabs_right; lra.
  - split; [lia|]. split; [|discriminate]. rewrite Rabs_left1; lra.
  - split; [lia|]. split; [|discriminate]. rewrite plus_IZR. rewrite Rabs_right; lra.
Qed.

(** ** One rounding *)
Lemma fexp_eq (e : Z) : fexp 53 1024 e = Z.max (e - 53) (-1074).
Proof. reflexivity. Qed.

(** The last step of [binary_round_aux]: normalising the rounded mantissa
    and building the result. *)
Lemma round_finish (sx : bool) (m e : Z) :
  (0 <= m <= 2 ^ 53)%Z ->
  ((-1074 <= e)%Z \/ (fexp 53 1024 (Zdigits2 m + e) <= e)%Z) ->
  IZR m * bpow e < bpow 972 ->
  let r :=
    let '(mrs, e') := shr_fexp 53 1024 m e loc_Exact in
    match shr_m mrs with
    | Z0 => S754_zero sx
    | Zpos p => if (e' <=? 1024 - 53)%Z then S754_finite sx p e' else S754_infinity sx
    | Zneg _ => S754_nan
    end in
  finite r = true
  /\ value r = (if sx then - (IZR m * bpow e) else IZR m * bpow e).
Proof.
  intros Hm He Hsmall. cbv zeta.
  assert (Hfinish : forall (p : positive) (e' : Z),
             IZR (Z.pos p) * bpow e' = IZR m * bpow e ->
             finite (if (e' <=? 1024 - 53)%Z then S754_finite sx p e' else S754_infinity sx)
             = true
             /\ value (if (e' <=? 1024 - 53)%Z then S754_finite sx p e'
                       else S754_infinity sx)
                = (if sx then - (IZR m * bpow e) else IZR m * bpow e)).
  { intros p e' Hval.
    destruct (e' <=? 1024 - 53)%Z eqn:Hov.
    - split; [reflexivity|]. cbn [value]. rewrite <- Hval. destruct sx; ring.
    - exfalso. apply Z.leb_gt in Hov.
      assert (bpow 972 <= bpow e') by (apply bpow_le; lia).
      assert (1 <= IZR (Z.pos p)) by (apply IZR_le; lia).
      pose proof (bpow_pos e'). nra. }
  unfold shr_fexp.
  destruct (Z.eq_dec m (2 ^ 53)) as [->|Hne].
  - (* the mantissa has one digit too many *)
    assert (He' : (-1074 <= e)%Z).
    { destruct He as [He|He]; [exact He|]. rewrite fexp_eq in He.
      change (Zdigits2 (2 ^ 53)) with 54%Z in He. lia. }
    change (Zdigits2 (2 ^ 53)) with 54%Z. rewrite fexp_eq.
    replace (Z.max (54 + e - 53) (-1074) - e)%Z with 1%Z by lia.
    cbn [shr_record_of_loc shr iter_pos]. change (2 ^ 53)%Z with 9007199254740992%Z.
    cbn [shr_1 shr_m].
    apply Hfinish. rewrite bpow_succ.
    change (2 ^ 53)%Z with 9007199254740992%Z. pose proof (bpow_pos e). lra.
  - assert (Hlt : (m < 2 ^ 53)%Z) by lia.
    assert (Hn : (fexp 53 1024 (Zdigits2 m + e) - e <= 0)%Z).
    { destruct He as [He|He]; [|lia]. rewrite fexp_eq.
      assert (Zdigits2 m <= 53)%Z by (apply Zdigits2_le; lia). lia. }
    rewrite (shr_noop _ _ _ Hn). cbn [shr_record_of_loc shr_m].
    destruct m as [|p|p]; [| |lia].
    + split; [reflexivity|]. cbn [value]. destruct sx; ring.
    + now apply Hfinish.
Qed.

Lemma binary_round_aux_unfold (sx : bool) (mx ex : Z) (lx : location) :
  binary_round_aux 53 1024 sx mx ex lx
  = (let '(mrs', e') := shr_fexp 53 1024 mx ex lx in
     let '(mrs'', e'') :=
       shr_fexp 53 1024 (round_nearest_even (shr_m mrs') (loc_of_shr_record mrs')) e'
                loc_Exact in
     match shr_m mrs'' with
     | Z0 => S754_zero sx
     | Zpos m => if (e'' <=? 1024 - 53)%Z then S754_finite sx m e'' else S754_infinity sx
     | Zneg _ => S754_nan
     end).
Proof. reflexivity. Qed.

Lemma shr_fexp_eq (m e : Z) (l : location) :
  shr_fexp 53 1024 m e l
  = shr (shr_record_of_loc m l) e (fexp 53 1024 (Zdigits2 m + e) - e).
Proof. reflexivity. Qed.

Lemma near_refl (x : R) : near x x.
Proof.
  unfold near. replace (x - x) with 0 by ring. rewrite Rabs_R0.
  pose proof (Rabs_pos x). pose proof (bpow_pos (-53)). pose proof (bpow_pos (-1075)).
  unfold unit_roundoff, tiny. nra.
Qed.

Lemma tiny_eq : tiny = / 2 * bpow (-1074).
Proof.
  unfold tiny. replace (-1075)%Z with (-1074 + -1)%Z by lia.
  rewrite bpow_add, bpow_m1. ring.
Qed.

(** The rounding at the heart of every operation: a magnitude given as
    [v] units of [2^ex], with [mx] its integer part and [lx] the place of
    its fraction, is rounded to a double that is near it. *)
Lemma binary_round_aux_spec (sx : bool) (mx ex : Z) (lx : location) (v : R) :
  (0 <= mx)%Z ->
  at_location (v - IZR mx) lx ->
  (lx = loc_Exact \/ (ex <= fexp 53 1024 (Zdigits2 mx + ex))%Z) ->
  v * bpow ex < bpow 900 ->
  exists a : R,
    0 <= a
    /\ finite (binary_round_aux 53 1024 sx mx ex lx) = true
    /\ value (binary_round_aux 53 1024 sx mx ex lx) = (if sx then - a else a)
    /\ near a (v * bpow ex)
    /\ (lx = loc_Exact -> (fexp 53 1024 (Zdigits2 mx + ex) <= ex)%Z -> a = v * bpow ex).
Proof.
  intros Hmx Hloc Hfit Hsmall.
  rewrite binary_round_aux_unfold.
  pose proof (represents_of_loc mx lx v Hmx Hloc) as Hrep.
  assert (Hv : IZR mx <= v < IZR mx + 1).
  { apply represents_bounds in Hrep. destruct lx as [|[]]; exact Hrep. }
  set (d := Zdigits2 mx) in *.
  assert (Hd : (0 <= d)%Z) by apply Zdigits2_nonneg.
  assert (Hmx_hi : IZR mx + 1 <= bpow d).
  { rewrite bpow_IZR by exact Hd. rewrite <- plus_IZR. apply IZR_le.
    destruct (Z.eq_dec mx 0) as [->|Hne]; [subst d; simpl; lia|].
    destruct (Zdigits2_bounds mx ltac:(lia)) as [_ H]. fold d in H. lia. }
  pose proof (bpow_pos ex) as Hbex.
  destruct (Z_lt_ge_dec (fexp 53 1024 (d + ex)) ex) as [Hneg|Hpos].
  - (* nothing is shifted out: the value is exact *)
    assert (Hex : lx = loc_Exact) by (destruct Hfit as [H|H]; [exact H|lia]).
    subst lx. cbn [at_location] in Hloc. assert (Hveq : v = IZR mx) by lra.
    rewrite (shr_fexp_eq mx ex loc_Exact). fold d.
    rewrite shr_noop by lia. cbn [shr_record_of_loc shr_m loc_of_shr_record].
    cbn [round_nearest_even].
    destruct (round_finish sx mx ex) as (Hfin & Hval).
    + split; [exact Hmx|].
      assert (d <= 53)%Z by (rewrite fexp_eq in Hneg; lia).
      destruct (Z.eq_dec mx 0) as [->|Hne]; [lia|].
      destruct (Zdigits2_bounds mx ltac:(lia)) as [_ H']. fold d in H'.
      assert (2 ^ d <= 2 ^ 53)%Z by (apply Z.pow_le_mono_r; lia). lia.
    + right. fold d. lia.
    + rewrite <- Hveq. pose proof (bpow_lt 900 972 ltac:(lia)). lra.
    + exists (v * bpow ex).
      assert (0 <= IZR mx) by (apply IZR_le; lia).
      split; [nra|]. rewrite Hveq.
      split; [exact Hfin|]. split; [exact Hval|]. split; [apply near_refl|auto].
  - (* the mantissa is shifted to the exponent of the format and rounded *)
    set (n := (fexp 53 1024 (d + ex) - ex)%Z).
    assert (Hn : (0 <= n)%Z) by (unfold n; lia).
    rewrite (shr_fexp_eq mx ex lx). fold d. fold n.
    destruct (shr_represents (shr_record_of_loc mx lx) ex n v Hrep Hn) as [Hrep1 He1].
    assert (Hkeep : lx = loc_Exact -> (fexp 53 1024 (d + ex) <= ex)%Z ->
                    loc_of_shr_record (fst (shr (shr_record_of_loc mx lx) ex n))
                    = loc_Exact).
    { intros -> Hle. rewrite shr_noop by (unfold n; lia). reflexivity. }
    destruct (shr (shr_record_of_loc mx lx) ex n) as [rec1 e1].
    cbn [fst snd] in Hrep1, He1, Hkeep.
    assert (He1' : e1 = fexp 53 1024 (d + ex)) by (unfold n in He1; lia).
    destruct (round_nearest_even_spec rec1 _ Hrep1) as (Hm2 & Hhalf & Hexact).
    set (m2 := round_nearest_even (shr_m rec1) (loc_of_shr_record rec1)) in *.
    pose proof (represents_bounds rec1 _ Hrep1) as Hb1.
    destruct Hrep1 as [Hm1 _].
    assert (He1min : (-1074 <= e1)%Z) by (rewrite He1', fexp_eq; lia).
    assert (Hvn : v * bpow (- n) * bpow e1 = v * bpow ex).
    { rewrite Rmult_assoc, <- bpow_add. f_equal. f_equal. lia. }
    assert (Hm1lt : (shr_m rec1 < 2 ^ 53)%Z).
    { apply lt_IZR. rewrite <- bpow_IZR by lia.
      assert (v * bpow (- n) < bpow 53); [|lra].
      assert (bpow d * bpow (- n) <= bpow 53).
      { rewrite <- bpow_add. apply bpow_le. unfold n. rewrite fexp_eq. lia. }
      pose proof (bpow_pos (- n)). nra. }
    destruct (round_finish sx m2 e1) as (Hfin & Hval).
    + lia.
    + left. exact He1min.
    + (* no overflow *)
      assert (IZR m2 <= v * bpow (- n) + / 2).
      { apply Rabs_def2 in Hhalf || idtac.
        pose proof (Rle_abs (IZR m2 - v * bpow (- n))). lra. }
      pose proof (bpow_pos e1).
      assert (bpow e1 <= bpow 900 \/ bpow 900 < bpow e1) by lra.
      assert (IZR m2 * bpow e1 <= v * bpow ex + / 2 * bpow e1) by (rewrite <- Hvn; nra).
      assert (Hcase : (e1 = -1074 \/ (e1 = d + ex - 53 /\ 0 < mx))%Z).
      { rewrite He1', fexp_eq.
        destruct (Z.eq_dec mx 0) as [E|E].
        - left. subst mx. subst d. cbn [Zdigits2] in *. rewrite fexp_eq in Hpos. lia.
        - lia. }
      destruct Hcase as [E|[E Hmxpos]].
      * rewrite E in *. pose proof (bpow_lt (-1074) 900 ltac:(lia)).
        pose proof (bpow_lt 900 971 ltac:(lia)).
        replace 972%Z with (971 + 1)%Z by lia. rewrite bpow_succ. nra.
      * assert (bpow (e1 + 52) <= v * bpow ex).
        { destruct (Zdigits2_bounds mx Hmxpos) as [Hlo _]. fold d in Hlo.
          apply IZR_le in Hlo. rewrite <- bpow_IZR in Hlo by lia.
          replace (e1 + 52)%Z with (d - 1 + ex)%Z by lia. rewrite bpow_add. nra. }
        assert (bpow e1 <= bpow (e1 + 52)) by (apply bpow_le; lia).
        pose proof (bpow_lt 900 971 ltac:(lia)).
        replace 972%Z with (971 + 1)%Z by lia. rewrite bpow_succ. nra.
    + exists (IZR m2 * bpow e1).
      pose proof (bpow_pos e1) as Hbe1.
      assert (Hm2nn : 0 <= IZR m2) by (apply IZR_le; lia).
      split; [nra|]. split; [exact Hfin|]. split; [exact Hval|]. split.
      * (* near *)
        unfold near. rewrite <- Hvn.
        replace (IZR m2 * bpow e1 - v * bpow (- n) * bpow e1)
          with ((IZR m2 - v * bpow (- n)) * bpow e1) by ring.
        rewrite Rabs_mult, (Rabs_right (bpow e1)) by lra.
        assert (Hx : 0 <= v * bpow (- n) * bpow e1).
        { rewrite Hvn. assert (0 <= IZR mx) by (apply IZR_le; lia). nra. }
        rewrite (Rabs_right (v * bpow (- n) * bpow e1)) by lra.
        assert (Hcase : (e1 = -1074 \/ (e1 = d + ex - 53 /\ 0 < mx))%Z).
        { rewrite He1', fexp_eq.
          destruct (Z.eq_dec mx 0) as [E|E].
          - left. subst mx. subst d. cbn [Zdigits2] in *. rewrite fexp_eq in Hpos. lia.
          - lia. }
        pose proof (Rabs_pos (IZR m2 - v * bpow (- n))).
        pose proof (bpow_pos (-53)).
        destruct Hcase as [E|[E Hmxpos]].
        -- rewrite tiny_eq, <- E. unfold unit_roundoff. nra.
        -- assert (bpow (e1 + 52) <= v * bpow ex).
           { destruct (Zdigits2_bounds mx Hmxpos) as [Hlo _]. fold d in Hlo.
             apply IZR_le in Hlo. rewrite <- bpow_IZR in Hlo by lia.
             replace (e1 + 52)%Z with (d - 1 + ex)%Z by lia. rewrite bpow_add. nra. }
           rewrite Hvn.
           assert (Hu : / 2 * bpow e1 = unit_roundoff * bpow (e1 + 52)).
           { unfold unit_roundoff. rewrite <- bpow_add.
             replace (-53 + (e1 + 52))%Z with (e1 + -1)%Z by lia.
             rewrite bpow_add, bpow_m1. ring. }
           pose proof (bpow_pos (-1075)). unfold tiny.
           assert (0 < unit_roundoff) by apply bpow_pos. nra.
      * (* exactness *)
        intros Hex Hle. fold d in Hle.
        rewrite (Hexact (Hkeep Hex Hle)). exact Hvn.
Qed.

(** ** Multiplication, addition and the conversion of integers *)
Lemma near_opp (a x : R) : near a x -> near (- a) (- x).
Proof.
  unfold near. intros H.
  replace (- a - - x) with (- (a - x)) by ring. now rewrite !Rabs_Ropp.
Qed.

Lemma near_abs (a x : R) : 0 <= x -> near a x -> Rabs (a - x) <= unit_roundoff * x + tiny.
Proof. unfold near. intros Hx H. now rewrite (Rabs_right x) in H by lra. Qed.

(** What every operation below delivers: a double near the exact result,
    and on the same side of zero. *)
Lemma rounds_to_exact (r : spec_float) : finite r = true -> rounds_to r (value r).
Proof. intros H. split; [exact H|]. split; [apply near_refl|]. split; auto. Qed.

(** From the rounding of a magnitude to the rounding of a signed value. *)
Lemma rounds_to_signed (sx : bool) (r : spec_float) (a x : R) :
  0 <= a -> 0 < x ->
  finite r = true ->
  value r = (if sx then - a else a) ->
  near a x ->
  rounds_to r (if sx then - x else x).
Proof.
  intros Ha Hx Hfin Hval Hnear. split; [exact Hfin|]. rewrite Hval.
  destruct sx.
  - split; [now apply near_opp|]. split; intros; lra.
  - split; [exact Hnear|]. split; intros; lra.
Qed.

Lemma mul_spec (a b : spec_float) :
  finite a = true -> finite b = true ->
  Rabs (value a * value b) < bpow 900 ->
  rounds_to (SFmul 53 1024 a b) (value a * value b).
Proof.
  intros Ha Hb Hsmall.
  destruct a as [sa|sa| |sa ma ea]; try discriminate;
    destruct b as [sb|sb| |sb mb eb]; try discriminate;
    try (cbn [SFmul value]; rewrite ?Rmult_0_l, ?Rmult_0_r;
         apply (rounds_to_exact (S754_zero _)); reflexivity).
  cbn [SFmul].
  assert (Hx : 0 < IZR (Z.pos (ma * mb)) * bpow (ea + eb)).
  { pose proof (bpow_pos (ea + eb)). assert (1 <= IZR (Z.pos (ma * mb))) by (apply IZR_le; lia).
    nra. }
  assert (Hprod : value (S754_finite sa ma ea) * value (S754_finite sb mb eb)
                  = (if xorb sa sb then - (IZR (Z.pos (ma * mb)) * bpow (ea + eb))
                     else IZR (Z.pos (ma * mb)) * bpow (ea + eb))).
  { cbn [value]. rewrite Pos2Z.inj_mul, mult_IZR, bpow_add. destruct sa, sb; cbn [xorb]; ring. }
  rewrite Hprod in *.
  destruct (binary_round_aux_spec (xorb sa sb) (Z.pos (ma * mb)) (ea + eb) loc_Exact
              (IZR (Z.pos (ma * mb)))) as (r & Hr & Hfin & Hval & Hnear & _).
  - lia.
  - cbn [at_location]. ring.
  - now left.
  - destruct (xorb sa sb); [rewrite Rabs_Ropp in Hsmall|];
      rewrite Rabs_right in Hsmall by lra; exact Hsmall.
  - eapply rounds_to_signed; eauto.
Qed.

(** [shl_align] *)
Lemma Pos_iter_xO (m d : positive) : Z.pos (Pos.iter xO m d) = (Z.pos m * 2 ^ Z.pos d)%Z.
Proof.
  induction d as [|d IH] using Pos.peano_ind.
  - simpl. lia.
  - rewrite Pos.iter_succ. rewrite Pos2Z.inj_xO, IH.
    rewrite Pos2Z.inj_succ, Z.pow_succ_r by lia. lia.
Qed.

Lemma shl_align_spec (m : positive) (e e' : Z) :
  let '(m', e'') := shl_align m e e' in
  IZR (Z.pos m') * bpow e'' = IZR (Z.pos m) * bpow e
  /\ (e'' <= e)%Z /\ ((e' <= e)%Z -> e'' = e').
Proof.
  unfold shl_align. destruct (e' - e)%Z as [|d|d] eqn:E.
  - split; [reflexivity|]. split; lia.
  - split; [reflexivity|]. split; lia.
  - rewrite Pos_iter_xO, mult_IZR. rewrite <- bpow_IZR by lia.
    split; [|split; lia].
    rewrite Rmult_assoc, <- bpow_add. f_equal. f_equal. lia.
Qed.

Lemma binary_round_spec (sx : bool) (m : positive) (e : Z) :
  IZR (Z.pos m) * bpow e < bpow 900 ->
  rounds_to (binary_round 53 1024 sx m e)
            (if sx then - (IZR (Z.pos m) * bpow e) else IZR (Z.pos m) * bpow e).
Proof.
  intros Hsmall. unfold binary_round.
  pose proof (shl_align_spec m e (fexp 53 1024 (Z.pos (digits2_pos m) + e))) as Hal.
  destruct (shl_align m e (fexp 53 1024 (Z.pos (digits2_pos m) + e))) as [mz ez].
  destruct Hal as (Hval & _ & _).
  destruct (binary_round_aux_spec sx (Z.pos mz) ez loc_Exact (IZR (Z.pos mz)))
    as (r & Hr & Hfin & Hv & Hnear & _).
  - lia.
  - cbn [at_location]. ring.
  - now left.
  - now rewrite Hval.
  - rewrite Hval in Hnear.
    eapply rounds_to_signed; eauto.
    pose proof (bpow_pos e). assert (1 <= IZR (Z.pos m)) by (apply IZR_le; lia). nra.
Qed.

Lemma binary_normalize_spec (z e : Z) (szero : bool) :
  Rabs (IZR z * bpow e) < bpow 900 ->
  rounds_to (binary_normalize 53 1024 z e szero) (IZR z * bpow e).
Proof.
  intros Hsmall. destruct z as [|p|p]; cbn [binary_normalize].
  - rewrite Rmult_0_l. apply (rounds_to_exact (S754_zero szero)). reflexivity.
  - pose proof (bpow_pos e). assert (1 <= IZR (Z.pos p)) by (apply IZR_le; lia).
    rewrite Rabs_right in Hsmall by nra.
    exact (binary_round_spec false p e Hsmall).
  - pose proof (bpow_pos e). assert (1 <= IZR (Z.pos p)) by (apply IZR_le; lia).
    change (Z.neg p) with (- Z.pos p)%Z in *. rewrite opp_IZR in *.
    replace (- IZR (Z.pos p) * bpow e) with (- (IZR (Z.pos p) * bpow e)) in * by ring.
    rewrite Rabs_Ropp, Rabs_right in Hsmall by nra.
    exact (binary_round_spec true p e Hsmall).
Qed.

Lemma add_spec (a b : spec_float) :
  finite a = true -> finite b = true ->
  Rabs (value a + value b) < bpow 900 ->
  rounds_to (SFadd 53 1024 a b) (value a + value b).
Proof.
  intros Ha Hb Hsmall.
  destruct a as [sa|sa| |sa ma ea]; try discriminate;
    destruct b as [sb|sb| |sb mb eb]; try discriminate.
  - cbn [value]. rewrite Rplus_0_l.
    destruct sa, sb; apply (rounds_to_exact (S754_zero _)); reflexivity.
  - cbn [SFadd]. replace (value (S754_zero sa) + value (S754_finite sb mb eb))
      with (value (S754_finite sb mb eb)) by (cbn [value]; ring).
    now apply rounds_to_exact.
  - cbn [SFadd]. replace (value (S754_finite sa ma ea) + value (S754_zero sb))
      with (value (S754_finite sa ma ea)) by (cbn [value]; ring).
    now apply rounds_to_exact.
  - cbn [SFadd].
    pose proof (shl_align_spec ma ea (Z.min ea eb)) as H1.
    pose proof (shl_align_spec mb eb (Z.min ea eb)) as H2.
    destruct (shl_align ma ea (Z.min ea eb)) as [ma' ea'].
    destruct (shl_align mb eb (Z.min ea eb)) as [mb' eb'].
    destruct H1 as (V1 & _ & E1). destruct H2 as (V2 & _ & E2).
    rewrite (E1 ltac:(lia)) in V1. rewrite (E2 ltac:(lia)) in V2.
    cbn [fst].
    set (ez := Z.min ea eb) in *.
    assert (Hsum : value (S754_finite sa ma ea) + value (S754_finite sb mb eb)
                   = IZR (cond_Zopp sa (Z.pos ma') + cond_Zopp sb (Z.pos mb')) * bpow ez).
    { cbn [value]. rewrite plus_IZR.
      replace (IZR (cond_Zopp sa (Z.pos ma'))) with ((if sa then -1 else 1) * IZR (Z.pos ma'))
        by (destruct sa; cbn [cond_Zopp]; [change (- Z.pos ma')%Z with (Z.neg ma');
                                            change (Z.neg ma') with (- Z.pos ma')%Z;
                                            rewrite opp_IZR|]; ring).
      replace (IZR (cond_Zopp sb (Z.pos mb'))) with ((if sb then -1 else 1) * IZR (Z.pos mb'))
        by (destruct sb; cbn [cond_Zopp]; [change (- Z.pos mb')%Z with (Z.neg mb');
                                            change (Z.neg mb') with (- Z.pos mb')%Z;
                                            rewrite opp_IZR|]; ring).
      rewrite Rmult_plus_distr_r, !Rmult_assoc, V1, V2. reflexivity. }
    rewrite Hsum in *. now apply binary_normalize_spec.
Qed.

Lemma of_Z_spec (z : Z) :
  Rabs (IZR z) < bpow 900 ->
  rounds_to (binary_normalize 53 1024 z 0 false) (IZR z).
Proof.
  intros H. replace (IZR z) with (IZR z * bpow 0) by (rewrite bpow_0; ring).
  apply binary_normalize_spec. now rewrite bpow_0, Rmult_1_r.
Qed.

(** ** Division *)
Lemma Rdiv_lt_half (k n : R) : 0 < n -> 2 * k < n -> k / n < / 2.
Proof.
  intros Hn H. unfold Rdiv. apply Rmult_lt_reg_r with n; [exact Hn|].
  rewrite Rmult_assoc, Rinv_l by lra. lra.
Qed.

Lemma Rdiv_gt_half (k n : R) : 0 < n -> n < 2 * k -> / 2 < k / n.
Proof.
  intros Hn H. unfold Rdiv. apply Rmult_lt_reg_r with n; [exact Hn|].
  rewrite Rmult_assoc, Rinv_l by lra. lra.
Qed.

Lemma Rdiv_eq_half (k n : R) : 0 < n -> n = 2 * k -> k / n = / 2.
Proof. intros Hn H. subst n. field. lra. Qed.

Lemma Rdiv_lt_one (k n : R) : 0 < n -> k < n -> k / n < 1.
Proof.
  intros Hn H. unfold Rdiv. apply Rmult_lt_reg_r with n; [exact Hn|].
  rewrite Rmult_assoc, Rinv_l by lra. lra.
Qed.

Lemma Rdiv_pos (k n : R) : 0 < n -> 0 < k -> 0 < k / n.
Proof. intros Hn H. unfold Rdiv. apply Rmult_lt_0_compat; [exact H|]. now apply Rinv_0_lt_compat. Qed.

Lemma new_location_spec (nb k : Z) :
  (0 <= k < nb)%Z -> at_location (IZR k / IZR nb) (new_location nb k).
Proof.
  intros Hk.
  assert (Hn : 0 < IZR nb) by (apply IZR_lt; lia).
  assert (Hkpos : k <> 0%Z -> 0 < IZR k) by (intros; apply IZR_lt; lia).
  assert (Hklt : IZR k < IZR nb) by (apply IZR_lt; lia).
  unfold new_location. destruct (Z.even nb) eqn:Heven.
  - unfold new_location_even. destruct (k =? 0)%Z eqn:Hk0.
    + apply Z.eqb_eq in Hk0. subst k. cbn [at_location]. unfold Rdiv. apply Rmult_0_l.
    + apply Z.eqb_neq in Hk0. specialize (Hkpos Hk0).
      destruct (2 * k ?= nb)%Z eqn:Hc; cbn [at_location].
      * apply Z.compare_eq in Hc. apply Rdiv_eq_half; [exact Hn|].
        rewrite <- Hc, mult_IZR. reflexivity.
      * rewrite Z.compare_lt_iff in Hc. apply IZR_lt in Hc. rewrite mult_IZR in Hc.
        split; [now apply Rdiv_pos|now apply Rdiv_lt_half].
      * rewrite Z.compare_gt_iff in Hc. apply IZR_lt in Hc. rewrite mult_IZR in Hc.
        split; [now apply Rdiv_gt_half|now apply Rdiv_lt_one].
  - unfold new_location_odd. destruct (k =? 0)%Z eqn:Hk0.
    + apply Z.eqb_eq in Hk0. subst k. cbn [at_location]. unfold Rdiv. apply Rmult_0_l.
    + apply Z.eqb_neq in Hk0. specialize (Hkpos Hk0).
      assert (Hodd : Z.odd nb = true) by (rewrite <- Z.negb_even, Heven; reflexivity).
      apply Z.odd_spec in Hodd. destruct Hodd as [j Hj].
      destruct (2 * k + 1 ?= nb)%Z eqn:Hc; cbn [at_location].
      * apply Z.compare_eq in Hc.
        assert (H2 : (2 * k < nb)%Z) by lia. apply IZR_lt in H2. rewrite mult_IZR in H2.
        split; [now apply Rdiv_pos|now apply Rdiv_lt_half].
      * rewrite Z.compare_lt_iff in Hc.
        assert (H2 : (2 * k < nb)%Z) by lia. apply IZR_lt in H2. rewrite mult_IZR in H2.
        split; [now apply Rdiv_pos|now apply Rdiv_lt_half].
      * rewrite Z.compare_gt_iff in Hc.
        assert (H2 : (nb < 2 * k)%Z) by lia. apply IZR_lt in H2. rewrite mult_IZR in H2.
        split; [now apply Rdiv_gt_half|now apply Rdiv_lt_one].
Qed.

Lemma SFdiv_core_binary_spec (m1 m2 : positive) (e1 e2 : Z) :
  let '(q, e', l) := SFdiv_core_binary 53 1024 (Z.pos m1) e1 (Z.pos m2) e2 in
  exists v : R,
    (0 <= q)%Z
    /\ at_location (v - IZR q) l
    /\ v * bpow e' = IZR (Z.pos m1) / IZR (Z.pos m2) * bpow (e1 - e2)
    /\ (e' <= fexp 53 1024 (Zdigits2 q + e'))%Z.
Proof.
  unfold SFdiv_core_binary.
  set (d1 := Zdigits2 (Z.pos m1)). set (d2 := Zdigits2 (Z.pos m2)).
  set (e' := Z.min (fexp 53 1024 (d1 + e1 - (d2 + e2))) (e1 - e2)).
  set (s := (e1 - e2 - e')%Z).
  assert (Hs : (0 <= s)%Z) by (unfold s, e'; lia).
  set (m' := match s with
             | Z0 => Z.pos m1
             | Z.pos _ => Z.shiftl (Z.pos m1) s
             | Z.neg _ => 0%Z
             end).
  assert (Hm' : m' = (Z.pos m1 * 2 ^ s)%Z).
  { unfold m'. destruct s as [|p|p] eqn:E; [simpl; lia| |lia].
    now rewrite Z.shiftl_mul_pow2 by lia. }
  pose proof (Z_div_mod m' (Z.pos m2) ltac:(lia)) as Hdiv.
  destruct (Z.div_eucl m' (Z.pos m2)) as [q r]. destruct Hdiv as [Hdiv Hr].
  assert (Hpow : (0 < 2 ^ s)%Z) by (apply Z.pow_pos_nonneg; lia).
  assert (Hq : (0 <= q)%Z) by nia.
  exists (IZR m' / IZR (Z.pos m2)).
  assert (Hm2 : 0 < IZR (Z.pos m2)) by (apply IZR_lt; lia).
  split; [exact Hq|]. split; [|split].
  - replace (IZR m' / IZR (Z.pos m2) - IZR q) with (IZR r / IZR (Z.pos m2)).
    + apply new_location_spec. lia.
    + rewrite Hdiv, plus_IZR, mult_IZR. field. lra.
  - rewrite Hm', mult_IZR, <- bpow_IZR by lia.
    unfold Rdiv. rewrite !Rmult_assoc. f_equal.
    rewrite (Rmult_comm (bpow s)), Rmult_assoc, <- bpow_add.
    f_equal. f_equal. unfold s. lia.
  - rewrite fexp_eq.
    destruct (Z_le_gt_dec e' (-1074)) as [Hlow|Hhigh]; [lia|].
    assert (He' : (e' <= d1 + e1 - (d2 + e2) - 53)%Z).
    { unfold e' in *. rewrite fexp_eq in *. lia. }
    destruct (digits2_pos_bounds m1) as [Hlo1 _]. fold (Zdigits2 (Z.pos m1)) in Hlo1.
    change (Zdigits2 (Z.pos m1)) with d1 in Hlo1.
    destruct (digits2_pos_bounds m2) as [_ Hhi2]. fold (Zdigits2 (Z.pos m2)) in Hhi2.
    change (Zdigits2 (Z.pos m2)) with d2 in Hhi2.
    assert (Hd1 : (1 <= d1)%Z) by (unfold d1; simpl; lia).
    assert (Hd2 : (1 <= d2)%Z) by (unfold d2; simpl; lia).
    assert (Hbig : (2 ^ 52 * Z.pos m2 <= m')%Z).
    { rewrite Hm'.
      assert (2 ^ (52 + d2) <= 2 ^ (d1 - 1) * 2 ^ s)%Z.
      { rewrite <- Z.pow_add_r by lia. apply Z.pow_le_mono_r; [lia|]. unfold s. lia. }
      rewrite Z.pow_add_r in H by lia.
      assert (0 < 2 ^ 52)%Z by lia.
      nia. }
    assert (H52 : (2 ^ 52 <= q)%Z).
    { destruct (Z_le_gt_dec (2 ^ 52) q) as [H|H]; [exact H|exfalso].
      assert (q + 1 <= 2 ^ 52)%Z by lia. nia. }
    pose proof (Zdigits2_ge q 52 ltac:(lia) H52). lia.
Qed.

Lemma div_spec (a b : spec_float) :
  finite a = true -> finite b = true -> value b <> 0 ->
  Rabs (value a / value b) < bpow 900 ->
  rounds_to (SFdiv 53 1024 a b) (value a / value b).
Proof.
  intros Ha Hb Hnz Hsmall.
  destruct b as [sb|sb| |sb mb eb]; try discriminate; [cbn [value] in Hnz; lra|].
  destruct a as [sa|sa| |sa ma ea]; try discriminate.
  - cbn [SFdiv]. replace (value (S754_zero sa) / value (S754_finite sb mb eb)) with 0
      by (cbn [value]; unfold Rdiv; ring).
    apply (rounds_to_exact (S754_zero _)). reflexivity.
  - cbn [SFdiv].
    pose proof (SFdiv_core_binary_spec ma mb ea eb) as Hcore.
    destruct (SFdiv_core_binary 53 1024 (Z.pos ma) ea (Z.pos mb) eb) as [[q e'] l].
    destruct Hcore as (v & Hq & Hloc & Hval & Hfit).
    assert (Hma : 0 < IZR (Z.pos ma)) by (apply IZR_lt; lia).
    assert (Hmb : 0 < IZR (Z.pos mb)) by (apply IZR_lt; lia).
    pose proof (bpow_pos ea). pose proof (bpow_pos eb). pose proof (bpow_pos (ea - eb)).
    assert (Hx : 0 < IZR (Z.pos ma) / IZR (Z.pos mb) * bpow (ea - eb)).
    { apply Rmult_lt_0_compat; [now apply Rdiv_pos|assumption]. }
    assert (Hquot : value (S754_finite sa ma ea) / value (S754_finite sb mb eb)
                    = (if xorb sa sb
                       then - (IZR (Z.pos ma) / IZR (Z.pos mb) * bpow (ea - eb))
                       else IZR (Z.pos ma) / IZR (Z.pos mb) * bpow (ea - eb))).
    { cbn [value]. replace (ea - eb)%Z with (ea + - eb)%Z by lia.
      rewrite bpow_add, bpow_opp.
      destruct sa, sb; cbn [xorb]; field; lra. }
    rewrite Hquot in *.
    destruct (binary_round_aux_spec (xorb sa sb) q e' l v Hq Hloc (or_intror Hfit))
      as (r & Hr & Hfin & Hv & Hnear & _).
    + rewrite Hval. destruct (xorb sa sb); [rewrite Rabs_Ropp in Hsmall|];
        rewrite Rabs_right in Hsmall by lra; exact Hsmall.
    + rewrite Hval in Hnear. eapply rounds_to_signed; eauto.
Qed.

(** ** Square root *)
Lemma sqrt_above (a b : R) : 0 <= a -> a * a < b -> a < sqrt b.
Proof.
  intros Ha H. rewrite <- (sqrt_square a Ha). apply sqrt_lt_1_alt. nra.
Qed.

Lemma sqrt_below (a b : R) : 0 <= a -> 0 <= b -> b < a * a -> sqrt b < a.
Proof.
  intros Ha Hb H. rewrite <- (sqrt_square a Ha). apply sqrt_lt_1_alt. lra.
Qed.

Lemma sqrt_times_bpow (x : R) (e : Z) :
  0 <= x -> sqrt x * bpow e = sqrt (x * bpow (2 * e)).
Proof.
  intros Hx. replace (2 * e)%Z with (e + e)%Z by lia. rewrite bpow_add.
  pose proof (bpow_pos e).
  rewrite sqrt_mult_alt by exact Hx. rewrite sqrt_square by lra. reflexivity.
Qed.

Lemma SFsqrt_core_binary_spec (m : positive) (e : Z) :
  let '(q, e', l) := SFsqrt_core_binary 53 1024 (Z.pos m) e in
  exists v : R,
    (0 <= q)%Z
    /\ at_location (v - IZR q) l
    /\ v * bpow e' = sqrt (IZR (Z.pos m) * bpow e)
    /\ (e' <= fexp 53 1024 (Zdigits2 q + e'))%Z.
Proof.
  unfold SFsqrt_core_binary.
  set (d := Zdigits2 (Z.pos m)).
  set (e' := Z.min (fexp 53 1024 (Z.div2 (d + e + 1))) (Z.div2 e)).
  set (s := (e - 2 * e')%Z).
  assert (Hdiv2 : forall z, (2 * Z.div2 z <= z <= 2 * Z.div2 z + 1)%Z).
  { intros z. pose proof (Z.div2_odd z) as H. destruct (Z.odd z); cbn [Z.b2z] in H; lia. }
  assert (Hs : (0 <= s)%Z).
  { unfold s, e'. pose proof (Hdiv2 e). lia. }
  set (m' := match s with
             | Z0 => Z.pos m
             | Z.pos _ => Z.shiftl (Z.pos m) s
             | Z.neg _ => 0%Z
             end).
  assert (Hm' : m' = (Z.pos m * 2 ^ s)%Z).
  { unfold m'. destruct s as [|p|p] eqn:E; [simpl; lia| |lia].
    now rewrite Z.shiftl_mul_pow2 by lia. }
  assert (Hpow : (0 < 2 ^ s)%Z) by (apply Z.pow_pos_nonneg; lia).
  assert (Hm'pos : (0 < m')%Z) by nia.
  pose proof (Z.sqrtrem_spec m' ltac:(lia)) as Hsq.
  destruct (Z.sqrtrem m') as [q r]. destruct Hsq as [Hsq Hr].
  assert (Hq : (0 <= q)%Z) by lia.
  assert (HQ : 0 <= IZR q) by (apply IZR_le; lia).
  assert (HR : 0 <= IZR r) by (apply IZR_le; lia).
  assert (HR2 : IZR r <= 2 * IZR q).
  { rewrite <- mult_IZR. apply IZR_le. lia. }
  assert (Hm'R : IZR m' = IZR q * IZR q + IZR r).
  { rewrite Hsq, plus_IZR, mult_IZR. reflexivity. }
  exists (sqrt (IZR m')).
  split; [exact Hq|]. split; [|split].
  - destruct (r =? 0)%Z eqn:Hr0.
    + apply Z.eqb_eq in Hr0. subst r. cbn [at_location].
      rewrite Hm'R, Rplus_0_r, sqrt_square by exact HQ. ring.
    + apply Z.eqb_neq in Hr0.
      assert (HRpos : 1 <= IZR r) by (apply IZR_le; lia).
      assert (Hlow : IZR q < sqrt (IZR m')) by (apply sqrt_above; [exact HQ|lra]).
      destruct (r <=? q)%Z eqn:Hrq; cbn [at_location].
      * apply Z.leb_le in Hrq. apply IZR_le in Hrq.
        assert (sqrt (IZR m') < IZR q + / 2) by (apply sqrt_below; nra).
        lra.
      * apply Z.leb_gt in Hrq.
        assert (Hrq' : IZR q + 1 <= IZR r) by (rewrite <- plus_IZR; apply IZR_le; lia).
        assert (IZR q + / 2 < sqrt (IZR m')) by (apply sqrt_above; nra).
        assert (sqrt (IZR m') < IZR q + 1) by (apply sqrt_below; nra).
        lra.
  - assert (0 <= IZR m') by (apply IZR_le; lia).
    rewrite sqrt_times_bpow by assumption. f_equal.
    rewrite Hm', mult_IZR, <- bpow_IZR by lia.
    rewrite Rmult_assoc, <- bpow_add. f_equal. f_equal. unfold s. lia.
  - rewrite fexp_eq.
    destruct (Z_le_gt_dec e' (-1074)) as [Hlow|Hhigh]; [lia|].
    assert (He' : (e' <= Z.div2 (d + e + 1) - 53)%Z).
    { unfold e' in *. rewrite fexp_eq in *. lia. }
    pose proof (Hdiv2 (d + e + 1)%Z) as Hd2.
    destruct (digits2_pos_bounds m) as [Hlo _]. fold (Zdigits2 (Z.pos m)) in Hlo.
    change (Zdigits2 (Z.pos m)) with d in Hlo.
    assert (Hd : (1 <= d)%Z) by (unfold d; simpl; lia).
    assert (Hbig : (2 ^ 104 <= m')%Z).
    { rewrite Hm'.
      assert (2 ^ 104 <= 2 ^ (d - 1) * 2 ^ s)%Z.
      { rewrite <- Z.pow_add_r by lia. apply Z.pow_le_mono_r; [lia|]. unfold s. lia. }
      nia. }
    assert (H52 : (2 ^ 52 <= q)%Z).
    { destruct (Z_le_gt_dec (2 ^ 52) q) as [H|H]; [exact H|exfalso].
      assert (Hq1 : (q + 1 <= 2 ^ 52)%Z) by lia.
      assert ((q + 1) * (q + 1) <= 2 ^ 52 * 2 ^ 52)%Z by (apply Z.mul_le_mono_nonneg; lia).
      change (2 ^ 52 * 2 ^ 52)%Z with (2 ^ 104)%Z in *. lia. }
    pose proof (Zdigits2_ge q 52 ltac:(lia) H52). lia.
Qed.

Lemma sqrt_spec (a : spec_float) :
  finite a = true -> 0 <= value a -> value a < bpow 900 ->
  rounds_to (SFsqrt 53 1024 a) (sqrt (value a)).
Proof.
  intros Ha Hnn Hsmall.
  destruct a as [sa|sa| |sa ma ea]; try discriminate.
  - cbn [SFsqrt value]. rewrite sqrt_0. apply (rounds_to_exact (S754_zero sa)). reflexivity.
  - assert (Hpos : 0 < IZR (Z.pos ma) * bpow ea).
    { pose proof (bpow_pos ea). assert (1 <= IZR (Z.pos ma)) by (apply IZR_le; lia). nra. }
    destruct sa.
    + exfalso. cbn [value] in Hnn. lra.
    + cbn [SFsqrt]. cbn [value] in *.
      replace (1 * IZR (Z.pos ma) * bpow ea) with (IZR (Z.pos ma) * bpow ea) in * by ring.
      pose proof (SFsqrt_core_binary_spec ma ea) as Hcore.
      destruct (SFsqrt_core_binary 53 1024 (Z.pos ma) ea) as [[q e'] l].
      destruct Hcore as (v & Hq & Hloc & Hval & Hfit).
      assert (Hroot : 0 < sqrt (IZR (Z.pos ma) * bpow ea)) by now apply sqrt_lt_R0.
      destruct (binary_round_aux_spec false q e' l v Hq Hloc (or_intror Hfit))
        as (r & Hr & Hfin & Hv & Hnear & _).
      * rewrite Hval. apply sqrt_below.
        -- pose proof (bpow_pos 900). lra.
        -- lra.
        -- assert (1 <= bpow 900).
           { replace 1 with (bpow 0) by reflexivity. apply bpow_le. lia. }
           nra.
      * rewrite Hval in Hnear.
        exact (rounds_to_signed false _ r _ Hr Hroot Hfin Hv Hnear).
Qed.

(** ** The sum of squares *)
Lemma tiny_nu : tiny = unit_roundoff * nu.
Proof. unfold tiny, unit_roundoff, nu. rewrite <- bpow_add. reflexivity. Qed.

Lemma unit_roundoff_small : 0 < unit_roundoff <= / 1024.
Proof.
  unfold unit_roundoff. split; [apply bpow_pos|].
  replace (/ 1024) with (bpow (-10)).
  - apply bpow_le. lia.
  - unfold bpow. simpl. lra.
Qed.

Lemma nu_pos : 0 < nu.
Proof. apply bpow_pos. Qed.

Lemma sumsq_nonneg (l : list spec_float) : 0 <= sumsq l.
Proof. induction l as [|x l IH]; simpl; [lra|]. nra. Qed.

(** Two facts of real arithmetic behind the step. *)
Lemma step_lower (c u t P n s' : R) :
  0 <= c <= / 4 -> 0 < u <= / 1024 -> 0 <= t -> 0 <= P -> 0 < n ->
  (1 - u) * ((1 - c) * t - c * n + (P - (u * P + u * n))) - u * n <= s' ->
  (1 - (c + 3 * u)) * (t + P) - (c + 3 * u) * n <= s'.
Proof.
  intros Hc Hu Ht HP Hn H.
  assert (0 <= c * u * t) by (apply Rmult_le_pos; [apply Rmult_le_pos|]; lra).
  assert (0 <= u * t) by (apply Rmult_le_pos; lra).
  assert (0 <= u * u * P) by (apply Rmult_le_pos; [apply Rmult_le_pos|]; lra).
  assert (0 <= c * P) by (apply Rmult_le_pos; lra).
  assert (0 <= u * P) by (apply Rmult_le_pos; lra).
  assert (0 <= c * u * n) by (apply Rmult_le_pos; [apply Rmult_le_pos|]; lra).
  assert (0 <= u * u * n) by (apply Rmult_le_pos; [apply Rmult_le_pos|]; lra).
  assert (0 <= u * n) by (apply Rmult_le_pos; lra).
  lra.
Qed.

Lemma step_upper (c u t P n s' : R) :
  0 <= c <= / 4 -> 0 < u <= / 1024 -> 0 <= t -> 0 <= P -> 0 < n ->
  s' <= (1 + u) * ((1 + c) * t + c * n + (P + (u * P + u * n))) + u * n ->
  s' <= (1 + (c + 3 * u)) * (t + P) + (c + 3 * u) * n.
Proof.
  intros Hc Hu Ht HP Hn H.
  assert (Hut : 0 <= u * t) by (apply Rmult_le_pos; lra).
  assert (HuP : 0 <= u * P) by (apply Rmult_le_pos; lra).
  assert (Hun : 0 <= u * n) by (apply Rmult_le_pos; lra).
  assert (c * (u * t) <= / 4 * (u * t)) by (apply Rmult_le_compat_r; lra).
  assert (u * (u * P) <= / 1024 * (u * P)) by (apply Rmult_le_compat_r; lra).
  assert (c * (u * n) <= / 4 * (u * n)) by (apply Rmult_le_compat_r; lra).
  assert (u * (u * n) <= / 1024 * (u * n)) by (apply Rmult_le_compat_r; lra).
  assert (0 <= c * P) by (apply Rmult_le_pos; lra).
  lra.
Qed.

(** From nearness to two-sided bounds. *)
Lemma near_bounds (r x u n : R) :
  0 <= x -> Rabs (r - x) <= u * x + u * n ->
  (1 - u) * x - u * n <= r <= (1 + u) * x + u * n.
Proof.
  intros Hx H. pose proof (Rle_abs (r - x)). pose proof (Rle_abs (- (r - x))).
  rewrite Rabs_Ropp in *. lra.
Qed.

(** One step of the sum of squares. *)
Lemma sum_step (c : R) (s v : spec_float) (t : R) :
  0 <= c <= / 4 ->
  finite s = true -> 0 <= value s -> accurate c (value s) t ->
  0 <= t -> t + value v * value v <= bpow 200 ->
  finite v = true ->
  let s' := SFadd 53 1024 s (SFmul 53 1024 v v) in
  finite s' = true /\ 0 <= value s'
  /\ accurate (c + 3 * unit_roundoff) (value s') (t + value v * value v).
Proof.
  intros Hc Hs Hsnn Hacc Ht Hsmall Hv. cbv zeta.
  pose proof unit_roundoff_small as Hu. pose proof nu_pos as Hnu.
  set (u := unit_roundoff) in *. set (P := value v * value v) in *.
  assert (HP : 0 <= P) by (unfold P; apply Rle_0_sqr).
  assert (Hnu1 : nu <= 1).
  { unfold nu. replace 1 with (bpow 0) by reflexivity. apply bpow_le. lia. }
  assert (H1 : 4 <= bpow 200).
  { replace 4 with (bpow 2) by (unfold bpow; simpl; lra). apply bpow_le. lia. }
  assert (H201 : 4 * bpow 200 <= bpow 900).
  { replace 4 with (bpow 2) by (unfold bpow; simpl; lra). rewrite <- bpow_add.
    apply bpow_le. lia. }
  destruct (mul_spec v v Hv Hv) as (Hpf & Hpn & Hppos & _).
  { fold P. rewrite Rabs_right by lra. lra. }
  fold P in Hpn, Hppos. specialize (Hppos HP).
  set (p := value (SFmul 53 1024 v v)) in *.
  apply near_abs in Hpn; [|exact HP]. rewrite tiny_nu in Hpn. fold u in Hpn.
  apply near_bounds in Hpn; [|exact HP].
  destruct Hacc as [Hlo Hhi].
  assert (HuP : 0 <= u * P) by (apply Rmult_le_pos; lra).
  assert (Hun : 0 <= u * nu) by (apply Rmult_le_pos; lra).
  assert (Hct : 0 <= c * t) by (apply Rmult_le_pos; lra).
  assert (Hcn : 0 <= c * nu) by (apply Rmult_le_pos; lra).
  assert (HuP1 : u * P <= P) by (rewrite <- (Rmult_1_l P) at 2; apply Rmult_le_compat_r; lra).
  assert (Hct1 : c * t <= t) by (rewrite <- (Rmult_1_l t) at 2; apply Rmult_le_compat_r; lra).
  assert (Hcn1 : c * nu <= 1).
  { apply Rle_trans with (1 * 1); [|lra]. apply Rmult_le_compat; lra. }
  assert (Hun1 : u * nu <= 1).
  { apply Rle_trans with (1 * 1); [|lra]. apply Rmult_le_compat; lra. }
  assert (Hsp : value s + p <= 3 * bpow 200 + 2) by lra.
  destruct (add_spec s (SFmul 53 1024 v v) Hs Hpf) as (Hf & Hn & Hpos & _).
  { fold p. rewrite Rabs_right by lra. lra. }
  fold p in Hn, Hpos. specialize (Hpos ltac:(lra)).
  set (s' := value (SFadd 53 1024 s (SFmul 53 1024 v v))) in *.
  apply near_abs in Hn; [|lra]. rewrite tiny_nu in Hn. fold u in Hn.
  apply near_bounds in Hn; [|lra].
  split; [exact Hf|]. split; [exact Hpos|].
  unfold accurate. split.
  - apply step_lower; try assumption.
    apply Rle_trans with ((1 - u) * (value s + p) - u * nu); [|lra].
    apply Rplus_le_compat_r. apply Rmult_le_compat_l; lra.
  - apply step_upper; try assumption.
    apply Rle_trans with ((1 + u) * (value s + p) + u * nu); [lra|].
    apply Rplus_le_compat_r. apply Rmult_le_compat_l; lra.
Qed.

Lemma sum_fold (fs : list spec_float) :
  forall (s : spec_float) (c t : R),
    Forall (fun v => finite v = true) fs ->
    0 <= c -> c + 3 * unit_roundoff * INR (List.length fs) <= / 4 ->
    finite s = true -> 0 <= value s -> accurate c (value s) t -> 0 <= t ->
    t + sumsq fs <= bpow 200 ->
    finite (sum_of_squares fs s) = true
    /\ 0 <= value (sum_of_squares fs s)
    /\ accurate (c + 3 * unit_roundoff * INR (List.length fs))
                (value (sum_of_squares fs s)) (t + sumsq fs).
Proof.
  pose proof unit_roundoff_small as Hu.
  induction fs as [|v fs IH]; intros s c t Hall Hc Hbudget Hs Hsnn Hacc Ht Hsmall.
  - cbn [sum_of_squares fold_left List.length INR sumsq fold_right] in *.
    rewrite Rmult_0_r, !Rplus_0_r in *. auto.
  - cbn [sum_of_squares fold_left]. cbn [sumsq fold_right] in Hsmall |- *.
    fold (sumsq fs) in Hsmall |- *.
    change (List.length (v :: fs)) with (S (List.length fs)) in *. rewrite S_INR in *.
    inversion Hall as [|v' fs' Hv Hfs]; subst.
    pose proof (pos_INR (List.length fs)) as Hlen.
    pose proof (sumsq_nonneg fs) as Hrest.
    assert (Hun : 0 <= unit_roundoff * INR (List.length fs)) by (apply Rmult_le_pos; lra).
    assert (HP : 0 <= value v * value v) by apply Rle_0_sqr.
    destruct (sum_step c s v t) as (Hf & Hnn & Hacc'); try assumption; try lra.
    destruct (IH (SFadd 53 1024 s (SFmul 53 1024 v v)) (c + 3 * unit_roundoff)
                 (t + value v * value v)) as (Hf2 & Hnn2 & Hacc2);
      try assumption; try lra.
    split; [exact Hf2|]. split; [exact Hnn2|].
    replace (c + 3 * unit_roundoff * (INR (List.length fs) + 1))
      with (c + 3 * unit_roundoff + 3 * unit_roundoff * INR (List.length fs)) by ring.
    replace (t + (value v * value v + sumsq fs))
      with (t + value v * value v + sumsq fs) by ring.
    exact Hacc2.
Qed.

(** ** The magnitude *)
Lemma unit_roundoff_tiny : 0 < unit_roundoff <= / 1000000000000000.
Proof.
  split; [apply bpow_pos|]. unfold unit_roundoff.
  change (-53)%Z with (- (53))%Z. rewrite bpow_opp, bpow_IZR by lia.
  change (2 ^ 53)%Z with 9007199254740992%Z.
  apply Rinv_le_contravar; lra.
Qed.

Lemma square_le (a b : R) : 0 <= a <= b -> a * a <= b * b.
Proof. intros H. apply Rmult_le_compat; lra. Qed.

Lemma square_le_inv (a b : R) : 0 <= a -> 0 <= b -> a * a <= b * b -> a <= b.
Proof.
  intros Ha Hb H. destruct (Rle_or_lt a b) as [|Hlt]; [assumption|exfalso].
  assert (b * b < a * a); [|lra].
  apply Rle_lt_trans with (b * a).
  - apply Rmult_le_compat_l; lra.
  - apply Rmult_lt_compat_r; lra.
Qed.

Lemma widen_sum (c n t s : R) :
  0 <= c -> 0 < n <= t ->
  (1 - c) * t - c * n <= s <= (1 + c) * t + c * n ->
  (1 - 2 * c) * t <= s <= (1 + 2 * c) * t.
Proof.
  intros Hc Hn H.
  assert (c * n <= c * t) by (apply Rmult_le_compat_l; lra). lra.
Qed.

Lemma widen_root (u n r m : R) :
  0 <= u -> 0 <= n <= r ->
  (1 - u) * r - u * n <= m <= (1 + u) * r + u * n ->
  (1 - 2 * u) * r <= m <= (1 + 2 * u) * r.
Proof.
  intros Hc Hn H.
  assert (u * n <= u * r) by (apply Rmult_le_compat_l; lra). lra.
Qed.

Lemma square_bounds (a r m : R) :
  0 <= a <= / 4 -> 0 <= r ->
  (1 - a) * r <= m <= (1 + a) * r ->
  (1 - 2 * a) * (r * r) <= m * m <= (1 + 3 * a) * (r * r).
Proof.
  intros Ha Hr H.
  assert (Hrr : 0 <= r * r) by (apply Rmult_le_pos; lra).
  assert (H1 : ((1 - a) * r) * ((1 - a) * r) <= m * m).
  { apply square_le. split; [apply Rmult_le_pos; lra|lra]. }
  assert (H2 : m * m <= ((1 + a) * r) * ((1 + a) * r)).
  { apply square_le. split; [|lra]. apply Rle_trans with ((1 - a) * r); [|lra].
    apply Rmult_le_pos; lra. }
  assert (Haa : 0 <= a * a) by (apply Rmult_le_pos; lra).
  assert (Haa' : a * a <= a).
  { rewrite <- (Rmult_1_r a) at 3. apply Rmult_le_compat_l; lra. }
  assert (0 <= a * a * (r * r)) by (apply Rmult_le_pos; lra).
  assert (a * a * (r * r) <= a * (r * r)) by (apply Rmult_le_compat_r; lra).
  split.
  - apply Rle_trans with ((1 - a) * r * ((1 - a) * r)); [|exact H1].
    replace ((1 - a) * r * ((1 - a) * r)) with ((1 - 2 * a) * (r * r) + a * a * (r * r))
      by ring. lra.
  - apply Rle_trans with ((1 + a) * r * ((1 + a) * r)); [exact H2|].
    replace ((1 + a) * r * ((1 + a) * r)) with ((1 + 2 * a) * (r * r) + a * a * (r * r))
      by ring. lra.
Qed.

Lemma compose_bounds (u c t s m2 : R) :
  0 < u <= / 1000000000000000 -> 0 <= c <= 3072 * u -> 0 <= t ->
  (1 - 2 * c) * t <= s <= (1 + 2 * c) * t ->
  (1 - 4 * u) * s <= m2 <= (1 + 6 * u) * s ->
  (1 - 6200 * u) * t <= m2 <= (1 + 6200 * u) * t.
Proof.
  intros Hu Hc Ht Hs Hm.
  assert (Hut : 0 <= u * t) by (apply Rmult_le_pos; lra).
  assert (Hct : 0 <= c * t) by (apply Rmult_le_pos; lra).
  assert (Hct' : c * t <= 3072 * u * t) by (apply Rmult_le_compat_r; lra).
  assert (Hs0 : 0 <= s).
  { apply Rle_trans with ((1 - 2 * c) * t); [apply Rmult_le_pos; lra|lra]. }
  split.
  - apply Rle_trans with ((1 - 4 * u) * s); [|lra].
    apply Rle_trans with ((1 - 4 * u) * ((1 - 2 * c) * t)).
    + replace ((1 - 4 * u) * ((1 - 2 * c) * t))
        with (t - 4 * (u * t) - 2 * (c * t) + 8 * u * (c * t)) by ring.
      assert (0 <= 8 * u * (c * t)) by (apply Rmult_le_pos; lra).
      replace (3072 * u * t) with (3072 * (u * t)) in Hct' by ring. lra.
    + apply Rmult_le_compat_l; lra.
  - apply Rle_trans with ((1 + 6 * u) * s); [lra|].
    apply Rle_trans with ((1 + 6 * u) * ((1 + 2 * c) * t)).
    + apply Rmult_le_compat_l; lra.
    + replace ((1 + 6 * u) * ((1 + 2 * c) * t))
        with (t + 6 * (u * t) + 2 * (c * t) + 12 * u * (c * t)) by ring.
      assert (12 * u * (c * t) <= 12 * / 1000000000000000 * (c * t)).
      { apply Rmult_le_compat_r; lra. }
      replace (3072 * u * t) with (3072 * (u * t)) in Hct' by ring. lra.
Qed.

Lemma bpow_square (e : Z) : bpow e * bpow e = bpow (2 * e).
Proof. rewrite <- bpow_add. f_equal. lia. Qed.

Lemma magnitude_eq (fs : list spec_float) :
  SimpleEmbedding.magnitude fs = SFsqrt 53 1024 (sum_of_squares fs (S754_zero false)).
Proof. reflexivity. Qed.

Lemma magnitude_accurate (fs : list spec_float) :
  Forall (fun v => finite v = true) fs ->
  INR (List.length fs) <= 1024 ->
  bpow (-8) <= sumsq fs <= bpow 200 ->
  finite (SimpleEmbedding.magnitude fs) = true
  /\ bpow (-5) <= value (SimpleEmbedding.magnitude fs) <= bpow 101
  /\ (1 - 6200 * unit_roundoff) * sumsq fs
     <= value (SimpleEmbedding.magnitude fs) * value (SimpleEmbedding.magnitude fs)
     <= (1 + 6200 * unit_roundoff) * sumsq fs.
Proof.
  intros Hall Hlen [Hlow Hhigh].
  pose proof unit_roundoff_tiny as Hu.
  pose proof (pos_INR (List.length fs)) as Hlen0.
  set (u := unit_roundoff) in *. set (t := sumsq fs) in *.
  assert (Hc : 0 <= 3 * u * INR (List.length fs) <= 3072 * u).
  { split; [apply Rmult_le_pos; lra|].
    replace (3072 * u) with (3 * u * 1024) by ring. apply Rmult_le_compat_l; lra. }
  assert (Hm8 : 0 < bpow (-8)) by apply bpow_pos.
  destruct (sum_fold fs (S754_zero false) 0 0) as (Hf & Hnn & Hacc);
    try assumption; try reflexivity; try (cbn [value]; lra).
  { fold u. lra. }
  { split; cbn [value]; lra. }
  { fold t. lra. }
  fold t u in Hacc. rewrite !Rplus_0_l in Hacc.
  set (s := value (sum_of_squares fs (S754_zero false))) in *.
  assert (Hnu : 0 < nu <= t).
  { split; [apply nu_pos|]. apply Rle_trans with (bpow (-8)); [|lra].
    apply bpow_le. lia. }
  apply widen_sum in Hacc; [|lra|exact Hnu].
  assert (Ht : 0 <= t) by lra.
  assert (Hct : 3 * u * INR (List.length fs) * t <= 3072 * u * t)
    by (apply Rmult_le_compat_r; lra).
  assert (Hut : 0 <= u * t) by (apply Rmult_le_pos; lra).
  assert (Hut' : u * t <= / 1000000000000000 * t) by (apply Rmult_le_compat_r; lra).
  assert (Hs_lo : / 2 * t <= s) by lra.
  assert (Hs_hi : s <= 2 * t) by lra.
  assert (H200 : 2 * bpow 200 < bpow 900).
  { replace 2 with (bpow 1) by apply bpow_1. rewrite <- bpow_add. apply bpow_lt. lia. }
  destruct (sqrt_spec (sum_of_squares fs (S754_zero false)) Hf Hnn) as (Hmf & Hmn & Hmpos & _).
  { fold s. lra. }
  fold s in Hmn, Hmpos. rewrite magnitude_eq.
  set (m := value (SFsqrt 53 1024 (sum_of_squares fs (S754_zero false)))) in *.
  assert (Hr : 0 <= sqrt s) by apply sqrt_pos.
  assert (Hrr : sqrt s * sqrt s = s) by (apply sqrt_sqrt; lra).
  specialize (Hmpos Hr).
  apply near_abs in Hmn; [|exact Hr]. rewrite tiny_nu in Hmn. fold u in Hmn.
  apply near_bounds in Hmn; [|exact Hr].
  assert (Hroot_lo : bpow (-5) <= sqrt s).
  { apply square_le_inv; [pose proof (bpow_pos (-5)); lra|exact Hr|].
    rewrite Hrr, bpow_square. change (2 * -5)%Z with (-10)%Z.
    replace (bpow (-10)) with (/ 4 * bpow (-8)); [lra|].
    change (-10)%Z with (-2 + -8)%Z. rewrite bpow_add. f_equal.
    unfold bpow. simpl. lra. }
  assert (Hnur : 0 <= nu <= sqrt s).
  { split; [pose proof nu_pos; lra|]. apply Rle_trans with (bpow (-5)); [|lra].
    apply bpow_le. lia. }
  apply widen_root in Hmn; [|lra|exact Hnur].
  apply square_bounds in Hmn; [|lra|exact Hr].
  rewrite Hrr in Hmn.
  replace (2 * (2 * u)) with (4 * u) in Hmn by ring.
  replace (3 * (2 * u)) with (6 * u) in Hmn by ring.
  pose proof (compose_bounds u (3 * u * INR (List.length fs)) t s (m * m) Hu Hc Ht Hacc Hmn) as Hfinal.
  split; [exact Hmf|]. split; [|exact Hfinal].
  assert (Hmm_lo : / 2 * t <= m * m) by lra.
  assert (Hmm_hi : m * m <= 2 * t) by lra.
  split.
  - apply square_le_inv; [pose proof (bpow_pos (-5)); lra|exact Hmpos|].
    rewrite bpow_square. change (2 * -5)%Z with (-10)%Z.
    replace (bpow (-10)) with (/ 4 * bpow (-8)); [lra|].
    change (-10)%Z with (-2 + -8)%Z. rewrite bpow_add. f_equal.
    unfold bpow. simpl. lra.
  - apply square_le_inv; [exact Hmpos|pose proof (bpow_pos 101); lra|].
    rewrite bpow_square. change (2 * 101)%Z with (2 + 200)%Z. rewrite bpow_add.
    replace (bpow 2) with 4 by (unfold bpow; simpl; lra). lra.
Qed.

(** ** The division by the magnitude *)
(** [(a (1 + u) + w)^2] and [a^2 - 2 a (u a + w)] against [a^2]. *)
Lemma square_near (u a w k d v : R) :
  0 < u <= / 4 -> 0 <= a -> 0 <= w ->
  2 * a * (1 + u) * w + w * w <= u * k ->
  a * a = v * v ->
  Rabs (d - v) <= u * a + w ->
  (1 - 3 * u) * (v * v) - u * k <= d * d <= (1 + 3 * u) * (v * v) + u * k.
Proof.
  intros Hu Ha Hw Hk Hav Hd.
  assert (Haa : 0 <= a * a) by (apply Rmult_le_pos; lra).
  assert (Hvabs : Rabs v = a).
  { assert (Rabs v * Rabs v = a * a).
    { rewrite <- Rabs_mult, Rabs_right; [lra|]. rewrite <- Hav. lra. }
    pose proof (Rabs_pos v).
    assert (Rabs v <= a) by (apply square_le_inv; lra).
    assert (a <= Rabs v) by (apply square_le_inv; lra).
    lra. }
  assert (Hdabs : Rabs d <= a * (1 + u) + w).
  { replace d with ((d - v) + v) by ring.
    apply Rle_trans with (Rabs (d - v) + Rabs v); [apply Rabs_triang|]. lra. }
  assert (Hdd : d * d = Rabs d * Rabs d).
  { rewrite <- Rabs_mult, Rabs_right; [reflexivity|]. apply Rle_ge, Rle_0_sqr. }
  assert (Huaa : 0 <= u * (a * a)) by (apply Rmult_le_pos; lra).
  assert (Huuaa : u * (u * (a * a)) <= / 4 * (u * (a * a)))
    by (apply Rmult_le_compat_r; lra).
  assert (Haw : 0 <= a * w) by (apply Rmult_le_pos; lra).
  assert (Huaw : 0 <= u * (a * w)) by (apply Rmult_le_pos; lra).
  assert (Hww : 0 <= w * w) by (apply Rmult_le_pos; lra).
  split.
  - (* d^2 >= v^2 - 2 |v| |d - v| *)
    assert (Hexp : d * d = v * v + 2 * v * (d - v) + (d - v) * (d - v)) by ring.
    assert (H1 : 0 <= (d - v) * (d - v)) by apply Rle_0_sqr.
    assert (H2 : - (a * (u * a + w)) <= v * (d - v)).
    { assert (Rabs (v * (d - v)) <= a * (u * a + w)).
      { rewrite Rabs_mult, Hvabs. apply Rmult_le_compat_l; lra. }
      pose proof (Rle_abs (- (v * (d - v)))). rewrite Rabs_Ropp in *. lra. }
    rewrite <- Hav in *.
    replace (a * (u * a + w)) with (u * (a * a) + a * w) in H2 by ring.
    replace (2 * a * (1 + u) * w) with (2 * (a * w) + 2 * (u * (a * w))) in Hk by ring.
    lra.
  - rewrite Hdd.
    apply Rle_trans with ((a * (1 + u) + w) * (a * (1 + u) + w)).
    + apply square_le. split; [apply Rabs_pos|exact Hdabs].
    + rewrite <- Hav.
      replace ((a * (1 + u) + w) * (a * (1 + u) + w))
        with (a * a + 2 * (u * (a * a)) + u * (u * (a * a))
              + (2 * a * (1 + u) * w + w * w)) by ring.
      lra.
Qed.

Lemma div_element (v m : spec_float) :
  finite v = true -> Rabs (value v) <= bpow 60 ->
  finite m = true -> bpow (-5) <= value m <= bpow 101 ->
  finite (SFdiv 53 1024 v m) = true
  /\ (1 - 3 * unit_roundoff) * (value v * value v) - unit_roundoff * kappa
     <= (value m * value (SFdiv 53 1024 v m)) * (value m * value (SFdiv 53 1024 v m))
     <= (1 + 3 * unit_roundoff) * (value v * value v) + unit_roundoff * kappa.
Proof.
  intros Hv Hvb Hm [Hmlo Hmhi].
  pose proof unit_roundoff_tiny as Hu. set (u := unit_roundoff) in *.
  pose proof (bpow_pos (-5)) as H5.
  assert (Hmpos : 0 < value m) by lra.
  assert (Hinv : / value m <= bpow 5).
  { change 5%Z with (- (-5))%Z. rewrite bpow_opp. apply Rinv_le_contravar; lra. }
  assert (Hinvpos : 0 < / value m) by now apply Rinv_0_lt_compat.
  assert (Hquot : Rabs (value v / value m) <= bpow 65).
  { unfold Rdiv. rewrite Rabs_mult, (Rabs_right (/ value m)) by lra.
    change 65%Z with (60 + 5)%Z. rewrite bpow_add.
    apply Rmult_le_compat; try lra. apply Rabs_pos. }
  destruct (div_spec v m Hv Hm) as (Hf & Hn & _).
  { lra. }
  { apply Rle_lt_trans with (bpow 65); [exact Hquot|]. apply bpow_lt. lia. }
  split; [exact Hf|].
  set (e := value (SFdiv 53 1024 v m)) in *.
  unfold near in Hn. rewrite tiny_nu in Hn. fold u in Hn.
  (* scale by the magnitude *)
  assert (Hscaled : Rabs (value m * e - value v)
                    <= u * Rabs (value v) + u * nu * value m).
  { replace (value m * e - value v) with (value m * (e - value v / value m))
      by (field; lra).
    rewrite Rabs_mult, (Rabs_right (value m)) by lra.
    apply Rle_trans with (value m * (u * Rabs (value v / value m) + u * nu)).
    - apply Rmult_le_compat_l; lra.
    - unfold Rdiv. rewrite Rabs_mult, (Rabs_right (/ value m)) by lra.
      replace (value m * (u * (Rabs (value v) * / value m) + u * nu))
        with (u * Rabs (value v) * (value m * / value m) + u * nu * value m) by ring.
      rewrite Rinv_r by lra. lra. }
  pose proof nu_pos as Hnu.
  assert (Hw : 0 <= u * nu * value m).
  { apply Rmult_le_pos; [apply Rmult_le_pos|]; lra. }
  assert (Hnum : nu * value m <= bpow (-921)).
  { unfold nu. change (-921)%Z with (-1022 + 101)%Z. rewrite bpow_add.
    apply Rmult_le_compat_l; [pose proof (bpow_pos (-1022)); lra|exact Hmhi]. }
  assert (Hnum0 : 0 <= nu * value m) by (apply Rmult_le_pos; lra).
  apply (square_near u (Rabs (value v)) (u * nu * value m) kappa).
  - lra.
  - apply Rabs_pos.
  - exact Hw.
  - (* the cross terms are negligible *)
    pose proof (Rabs_pos (value v)) as Ha.
    assert (H921 : bpow (-921) <= 1).
    { replace 1 with (bpow 0) by reflexivity. apply bpow_le. lia. }
    assert (H1 : 2 * Rabs (value v) * (1 + u) * (u * nu * value m)
                 <= u * (4 * bpow 60 * bpow (-921))).
    { replace (2 * Rabs (value v) * (1 + u) * (u * nu * value m))
        with (u * ((2 * (1 + u)) * Rabs (value v) * (nu * value m))) by ring.
      apply Rmult_le_compat_l; [lra|].
      apply Rmult_le_compat;
        [apply Rmult_le_pos; lra|exact Hnum0| |exact Hnum].
      apply Rmult_le_compat; lra. }
    assert (H2 : u * nu * value m * (u * nu * value m) <= u * bpow (-921)).
    { replace (u * nu * value m * (u * nu * value m))
        with (u * ((nu * value m) * (u * (nu * value m)))) by ring.
      apply Rmult_le_compat_l; [lra|].
      rewrite <- (Rmult_1_r (bpow (-921))).
      apply Rmult_le_compat;
        [exact Hnum0|apply Rmult_le_pos; lra|exact Hnum|].
      apply Rle_trans with (1 * 1); [|lra]. apply Rmult_le_compat; lra. }
    assert (H3 : 4 * bpow 60 * bpow (-921) + bpow (-921) <= kappa).
    { unfold kappa. rewrite Rmult_assoc, <- bpow_add.
      replace 4 with (bpow 2) by (unfold bpow; simpl; lra). rewrite <- bpow_add.
      assert (bpow (2 + (60 + -921)) <= bpow (-801)) by (apply bpow_le; lia).
      assert (bpow (-921) <= bpow (-801)) by (apply bpow_le; lia).
      replace (bpow (-800)) with (2 * bpow (-801)); [lra|].
      change (-800)%Z with (-801 + 1)%Z. now rewrite bpow_succ. }
    assert (u * (4 * bpow 60 * bpow (-921) + bpow (-921)) <= u * kappa)
      by (apply Rmult_le_compat_l; lra).
    lra.
  - rewrite <- Rabs_mult. apply Rabs_right. apply Rle_ge, Rle_0_sqr.
  - exact Hscaled.
Qed.

Lemma normalised_sumsq (m : spec_float) (fs : list spec_float) :
  Forall (fun v => finite v = true /\ Rabs (value v) <= bpow 60) fs ->
  finite m = true -> bpow (-5) <= value m <= bpow 101 ->
  Forall (fun e => finite e = true) (map (fun v => SFdiv 53 1024 v m) fs)
  /\ (1 - 3 * unit_roundoff) * sumsq fs - INR (List.length fs) * (unit_roundoff * kappa)
     <= value m * value m * sumsq (map (fun v => SFdiv 53 1024 v m) fs)
     <= (1 + 3 * unit_roundoff) * sumsq fs + INR (List.length fs) * (unit_roundoff * kappa).
Proof.
  intros Hall Hm Hmb. induction Hall as [|v fs [Hv Hvb] Hfs IH].
  - cbn [map sumsq fold_right List.length INR]. split; [constructor|]. lra.
  - destruct IH as (IHf & IHb).
    destruct (div_element v m Hv Hvb Hm Hmb) as (Hf & Hb).
    cbn [map].
    split; [constructor; assumption|].
    cbn [sumsq fold_right]. fold (sumsq fs). fold (sumsq (map (fun v => SFdiv 53 1024 v m) fs)).
    change (List.length (v :: fs)) with (S (List.length fs)). rewrite S_INR.
    set (e := value (SFdiv 53 1024 v m)) in *.
    replace (value m * value m * (e * e + sumsq (map (fun v => SFdiv 53 1024 v m) fs)))
      with (value m * e * (value m * e) + value m * value m * sumsq (map (fun v => SFdiv 53 1024 v m) fs))
      by ring.
    lra.
Qed.

(** ** The norm of the quotient *)
Lemma sumsq_bound (fs : list spec_float) (b : R) :
  0 <= b ->
  Forall (fun v => Rabs (value v) <= b) fs ->
  sumsq fs <= INR (List.length fs) * (b * b).
Proof.
  intros Hb Hall. induction Hall as [|v fs Hv Hfs IH].
  - cbn [sumsq fold_right List.length INR]. lra.
  - cbn [sumsq fold_right]. fold (sumsq fs).
    change (List.length (v :: fs)) with (S (List.length fs)). rewrite S_INR.
    assert (value v * value v <= b * b).
    { replace (value v * value v) with (Rabs (value v) * Rabs (value v)).
      - apply square_le. split; [apply Rabs_pos|exact Hv].
      - rewrite <- Rabs_mult. apply Rabs_right. apply Rle_ge, Rle_0_sqr. }
    lra.
Qed.

Lemma quotient_near_one (u t m2 q : R) :
  0 < u <= / 1000000000000000 -> 0 < t -> 0 <= q ->
  (1 - 6200 * u) * t <= m2 <= (1 + 6200 * u) * t ->
  (1 - 4 * u) * t <= m2 * q <= (1 + 4 * u) * t ->
  1 - / 1000000000 <= q <= 1 + / 1000000000.
Proof.
  intros Hu Ht Hq Hm Hmq.
  assert (Hup : q * (1 - 6200 * u) <= 1 + 4 * u).
  { apply Rmult_le_reg_r with t; [exact Ht|].
    apply Rle_trans with (m2 * q); [|lra].
    replace (q * (1 - 6200 * u) * t) with (((1 - 6200 * u) * t) * q) by ring.
    apply Rmult_le_compat_r; lra. }
  assert (Hlo : 1 - 4 * u <= q * (1 + 6200 * u)).
  { apply Rmult_le_reg_r with t; [exact Ht|].
    apply Rle_trans with (m2 * q); [lra|].
    replace (q * (1 + 6200 * u) * t) with (((1 + 6200 * u) * t) * q) by ring.
    apply Rmult_le_compat_r; lra. }
  assert (Hqu : 0 <= q * u) by (apply Rmult_le_pos; lra).
  assert (Hqu' : q * u <= q * / 1000000000000000) by (apply Rmult_le_compat_l; lra).
  lra.
Qed.

Lemma root_near_one (q : R) :
  1 - / 1000000000 <= q <= 1 + / 1000000000 ->
  Rabs (sqrt q - 1) <= / 1000000.
Proof.
  intros [Hlo Hhi].
  assert (H1 : sqrt q <= 1 + / 1000000000).
  { rewrite <- (sqrt_square (1 + / 1000000000)) by lra. apply sqrt_le_1_alt. lra. }
  assert (H2 : 1 - / 1000000000 <= sqrt q).
  { rewrite <- (sqrt_square (1 - / 1000000000)) by lra. apply sqrt_le_1_alt. lra. }
  apply Rabs_le. lra.
Qed.

Lemma root_of_square_near_one (u q m : R) :
  0 < u <= / 1000000000000000 -> 0 <= m ->
  1 - / 1000000000 <= q <= 1 + / 1000000000 ->
  (1 - 6200 * u) * q <= m * m <= (1 + 6200 * u) * q ->
  Rabs (m - 1) <= / 1000000.
Proof.
  intros Hu Hm Hq Hmm.
  assert (Huq : 0 <= u * q) by (apply Rmult_le_pos; lra).
  assert (Huq' : u * q <= / 1000000000000000 * q) by (apply Rmult_le_compat_r; lra).
  assert (H1 : m <= 1 + / 1000000).
  { apply square_le_inv; [exact Hm|lra|]. lra. }
  assert (H2 : 1 - / 1000000 <= m).
  { apply square_le_inv; [lra|exact Hm|]. lra. }
  apply Rabs_le. lra.
Qed.

(** The normalised vector has norm 1 within 10^-6, in exact arithmetic and
    as [magnitude] computes it. *)
Theorem normalised_unit (fs : list spec_float) :
  Forall (fun v => finite v = true /\ Rabs (value v) <= bpow 60) fs ->
  INR (List.length fs) <= 1024 ->
  bpow (-8) <= sumsq fs ->
  let es := map (fun v => SFdiv 53 1024 v (SimpleEmbedding.magnitude fs)) fs in
  Forall (fun e => finite e = true) es
  /\ Rabs (norm es - 1) <= / 1000000
  /\ Rabs (value (SimpleEmbedding.magnitude es) - 1) <= / 1000000.
Proof.
  intros Hall Hlen Hlow. cbv zeta.
  pose proof unit_roundoff_tiny as Hu.
  pose proof (pos_INR (List.length fs)) as Hlen0.
  assert (Hfin : Forall (fun v => finite v = true) fs).
  { eapply Forall_impl; [|exact Hall]. intros v [H _]. exact H. }
  assert (Hbnd : Forall (fun v => Rabs (value v) <= bpow 60) fs).
  { eapply Forall_impl; [|exact Hall]. intros v [_ H]. exact H. }
  assert (Hhigh : sumsq fs <= bpow 200).
  { apply Rle_trans with (INR (List.length fs) * (bpow 60 * bpow 60)).
    - apply sumsq_bound; [pose proof (bpow_pos 60); lra|exact Hbnd].
    - rewrite bpow_square. change (2 * 60)%Z with 120%Z.
      apply Rle_trans with (1024 * bpow 120).
      + apply Rmult_le_compat_r; [pose proof (bpow_pos 120); lra|exact Hlen].
      + replace 1024 with (bpow 10) by (unfold bpow; simpl; lra).
        rewrite <- bpow_add. apply bpow_le. lia. }
  destruct (magnitude_accurate fs Hfin Hlen (conj Hlow Hhigh)) as (Hmf & Hmb & Hmm).
  destruct (normalised_sumsq (SimpleEmbedding.magnitude fs) fs Hall Hmf Hmb) as (Hef & Heb).
  set (es := map (fun v => SFdiv 53 1024 v (SimpleEmbedding.magnitude fs)) fs) in *.
  set (t := sumsq fs) in *. set (u := unit_roundoff) in *.
  set (m2 := value (SimpleEmbedding.magnitude fs) * value (SimpleEmbedding.magnitude fs)) in *.
  pose proof (bpow_pos (-8)) as H8.
  assert (Ht : 0 < t) by lra.
  assert (Hk : INR (List.length fs) * (u * kappa) <= u * t).
  { replace (INR (List.length fs) * (u * kappa)) with (u * (INR (List.length fs) * kappa)) by ring.
    apply Rmult_le_compat_l; [lra|].
    apply Rle_trans with (1024 * kappa).
    - apply Rmult_le_compat_r; [unfold kappa; pose proof (bpow_pos (-800)); lra|exact Hlen].
    - apply Rle_trans with (bpow (-8)); [|lra].
      unfold kappa. replace 1024 with (bpow 10) by (unfold bpow; simpl; lra).
      rewrite <- bpow_add. apply bpow_le. lia. }
  assert (Hut : 0 <= u * t) by (apply Rmult_le_pos; lra).
  assert (Hq : 1 - / 1000000000 <= sumsq es <= 1 + / 1000000000).
  { apply (quotient_near_one u t m2); try assumption.
    - apply sumsq_nonneg.
    - lra. }
  split; [exact Hef|]. split.
  - now apply root_near_one.
  - assert (Hlen' : INR (List.length es) <= 1024).
    { unfold es. now rewrite length_map. }
    assert (Hrange : bpow (-8) <= sumsq es <= bpow 200).
    { split.
      - apply Rle_trans with (/ 2); [|lra].
        replace (/ 2) with (bpow (-1)) by apply bpow_m1. apply bpow_le. lia.
      - apply Rle_trans with 2; [lra|].
        replace 2 with (bpow 1) by apply bpow_1. apply bpow_le. lia. }
    destruct (magnitude_accurate es Hef Hlen' Hrange) as (_ & Hb' & Hmm').
    apply (root_of_square_near_one u (sumsq es)); try assumption.
    pose proof (bpow_pos (-5)). lra.
Qed.

End RoundingFacts.

(* ================================================================== *)
(** * The embedding has unit length *)
(* ================================================================== *)

Section UnitNormFacts.

Import JsString Embeddings SimpleEmbedding Rounding.
Local Open Scope R_scope.

(** ** The counts that the features are made of *)

Lemma len_String (a : ascii) (r : string) : len (String a r) = (1 + len r)%Z.
Proof. unfold len. cbn [String.length]. lia. Qed.

Lemma countChar_bounds (c : ascii) (s : string) : (0 <= countChar c s <= len s)%Z.
Proof.
  induction s as [|a r IH]; [cbn; lia|].
  rewrite len_String. cbn [countChar]. destruct (Ascii.eqb a c); lia.
Qed.

Lemma countRuns_bounds (sep : ascii -> bool) (s : string) :
  forall inRun, (0 <= countRuns sep s inRun <= len s)%Z.
Proof.
  induction s as [|a r IH]; intros inRun; [cbn; lia|].
  rewrite len_String. cbn [countRuns].
  pose proof (IH true). pose proof (IH false).
  destruct (sep a); [destruct inRun|]; lia.
Qed.

Lemma countWord_bounds (word s : string) :
  forall afterWord, (0 <= countWord word s afterWord <= len s)%Z.
Proof.
  induction s as [|a r IH]; intros afterWord; [cbn; lia|].
  rewrite len_String. cbn [countWord].
  pose proof (IH (is_word_char a)).
  destruct (negb afterWord && word_here word (String a r)); lia.
Qed.

Lemma len_strip (s : string) : (len (strip s) <= len s)%Z.
Proof.
  induction s as [|a r IH]; [cbn; lia|].
  cbn [strip]. destruct (kept a); rewrite !len_String; lia.
Qed.

Lemma len_toLowerCase (s : string) : len (ParseDocuments.toLowerCase s) = len s.
Proof.
  induction s as [|a r IH]; [reflexivity|].
  cbn [ParseDocuments.toLowerCase]. rewrite !len_String. now rewrite IH.
Qed.

Lemma len_normalizeText (text : string) : (len (normalizeText text) <= len text)%Z.
Proof.
  unfold normalizeText. rewrite <- (len_toLowerCase text). apply len_strip.
Qed.

Lemma hashCode_range (str : string) : (0 <= hashCode str <= 2 ^ 31)%Z.
Proof.
  unfold hashCode. rewrite (hash_loop_polynomial str 0 0) by reflexivity.
  pose proof (to_int32_range (polynomial31 str 0)). lia.
Qed.

(** ** The size of one rounded result *)

Lemma tiny_small : 0 < tiny <= / 4.
Proof.
  split; [apply bpow_pos|].
  replace (/ 4) with (bpow (-2)) by (unfold bpow; simpl; lra).
  apply bpow_le. lia.
Qed.

Lemma Rabs_bounds (a b : R) : Rabs a <= b -> - b <= a <= b.
Proof.
  intros H. pose proof (Rle_abs a). pose proof (Rle_abs (- a)) as Hn.
  rewrite Rabs_Ropp in Hn. lra.
Qed.

Lemma rounded_bound (r : spec_float) (x b : R) :
  rounds_to r x -> Rabs x <= b ->
  finite r = true /\ Rabs (value r) <= 2 * b + 1.
Proof.
  intros (Hf & Hn & _) Hb. split; [exact Hf|].
  unfold near in Hn.
  pose proof unit_roundoff_small as Hu. pose proof tiny_small as Ht.
  pose proof (Rabs_pos x) as Hx.
  assert (Hux : unit_roundoff * Rabs x <= / 1024 * Rabs x)
    by (apply Rmult_le_compat_r; lra).
  replace (value r) with ((value r - x) + x) by ring.
  eapply Rle_trans; [apply Rabs_triang|]. lra.
Qed.

Lemma bpow_60 : bpow 60 = 1152921504606846976.
Proof. rewrite bpow_IZR by lia. reflexivity. Qed.

Lemma bpow_900_large : 1152921504606846976 < bpow 900.
Proof. rewrite <- bpow_60. apply bpow_lt. lia. Qed.

(** The conversion of an integer between 0 and 2^53 gives a double that
    is not negative and at most twice as large, and at least a half when
    the integer is at least 1. *)
Lemma of_Z_bounds (z : Z) :
  (0 <= z <= 2 ^ 53)%Z ->
  finite (JsNumber.of_Z z) = true
  /\ 0 <= value (JsNumber.of_Z z) <= 18014398509481985
  /\ ((1 <= z)%Z -> / 2 <= value (JsNumber.of_Z z)).
Proof.
  intros [Hlo Hhi].
  assert (H0 : 0 <= IZR z) by now apply IZR_le.
  assert (H1 : IZR z <= 9007199254740992) by now apply IZR_le in Hhi.
  pose proof bpow_900_large as Hbig.
  assert (Hr : rounds_to (JsNumber.of_Z z) (IZR z)).
  { apply of_Z_spec. rewrite Rabs_right by lra. lra. }
  destruct (rounded_bound _ _ 9007199254740992 Hr) as [Hf Hb].
  { rewrite Rabs_right by lra. exact H1. }
  destruct Hr as (_ & Hn & Hpos & _). specialize (Hpos H0).
  rewrite Rabs_right in Hb by lra.
  split; [exact Hf|]. split; [lra|].
  intros Hz. apply IZR_le in Hz.
  apply near_abs in Hn; [|exact H0].
  pose proof unit_roundoff_small as Hu. pose proof tiny_small as Ht.
  assert (Huz : unit_roundoff * IZR z <= / 1024 * IZR z)
    by (apply Rmult_le_compat_r; lra).
  pose proof (Rle_abs (- (value (JsNumber.of_Z z) - IZR z))) as Ha.
  rewrite Rabs_Ropp in Ha. lra.
Qed.

(** The quotient of two counts. *)
Lemma ratio_bounded (a b : Z) :
  (0 <= a <= 2 ^ 53)%Z -> (1 <= b <= 2 ^ 53)%Z ->
  finite (JsNumber.div (JsNumber.of_Z a) (JsNumber.of_Z b)) = true
  /\ Rabs (value (JsNumber.div (JsNumber.of_Z a) (JsNumber.of_Z b))) <= bpow 60.
Proof.
  intros Ha Hb.
  destruct (of_Z_bounds a Ha) as (Hfa & [Ha0 Ha1] & _).
  destruct (of_Z_bounds b ltac:(lia)) as (Hfb & [Hb0 Hb1] & Hb2).
  specialize (Hb2 ltac:(lia)).
  set (x := value (JsNumber.of_Z a)) in *. set (y := value (JsNumber.of_Z b)) in *.
  assert (Hinv : 0 < / y <= 2).
  { split; [apply Rinv_0_lt_compat; lra|].
    replace 2 with (/ / 2) by lra. apply Rinv_le_contravar; lra. }
  assert (Hq : 0 <= x / y <= 36028797018963970).
  { unfold Rdiv. split; [apply Rmult_le_pos; lra|].
    apply Rle_trans with (18014398509481985 * 2); [|lra].
    apply Rmult_le_compat; lra. }
  pose proof bpow_900_large as Hbig.
  destruct (rounded_bound (JsNumber.div (JsNumber.of_Z a) (JsNumber.of_Z b)) (x / y)
              36028797018963970) as [Hf Hbd].
  - apply div_spec; try assumption; [fold y; lra|].
    fold x y. rewrite Rabs_right by lra. lra.
  - rewrite Rabs_right by lra. lra.
  - split; [exact Hf|]. rewrite bpow_60. lra.
Qed.

(** [Math.min(1, b)] is one of its arguments. *)
Lemma one_eq : JsNumber.one = S754_finite false 4503599627370496 (-52).
Proof. vm_compute. reflexivity. Qed.

Lemma math_min_one (b : spec_float) :
  finite b = true ->
  JsNumber.math_min JsNumber.one b = JsNumber.one
  \/ JsNumber.math_min JsNumber.one b = b.
Proof.
  intros Hb. rewrite one_eq. unfold JsNumber.math_min.
  destruct b; try discriminate; cbn [JsNumber.is_nan orb];
    destruct (JsNumber.lt _ _); auto.
Qed.

(** ** The sine *)

Lemma within_one_spec (y : spec_float) :
  within_one y = true -> finite y = true /\ Rabs (value y) <= 1.
Proof.
  destruct y as [s|s| |s m e]; cbn [within_one finite value]; try discriminate.
  - intros _. split; [reflexivity|]. rewrite Rabs_R0. lra.
  - intros H. apply andb_true_iff in H as [He Hm].
    apply Z.leb_le in He. apply Z.leb_le in Hm.
    split; [reflexivity|].
    apply IZR_le in Hm. rewrite <- bpow_IZR in Hm by lia.
    pose proof (bpow_pos e) as He0.
    assert (Hm0 : 0 < IZR (Z.pos m)) by (apply IZR_lt; lia).
    assert (Hle : IZR (Z.pos m) * bpow e <= 1).
    { apply Rle_trans with (bpow (- e) * bpow e).
      - apply Rmult_le_compat_r; lra.
      - rewrite <- bpow_add. replace (- e + e)%Z with 0%Z by lia.
        rewrite bpow_0. lra. }
    assert (Hge : 0 <= IZR (Z.pos m) * bpow e) by (apply Rmult_le_pos; lra).
    apply Rabs_le. destruct s; lra.
Qed.

Lemma value_half : value half = / 2.
Proof.
  unfold half. cbn [value]. change (-53)%Z with (- (53))%Z.
  rewrite bpow_opp, bpow_IZR by lia.
  change (2 ^ 53)%Z with 9007199254740992%Z. lra.
Qed.

(** [Math.sin(z) * 0.5 + 0.5]. *)
Lemma filler_bounded (math_sin : spec_float -> spec_float) (z : Z) :
  (forall x, finite x = true -> within_one (math_sin x) = true) ->
  (0 <= z <= 2 ^ 53)%Z ->
  finite (JsNumber.add (JsNumber.mul (math_sin (JsNumber.of_Z z)) half) half) = true
  /\ Rabs (value (JsNumber.add (JsNumber.mul (math_sin (JsNumber.of_Z z)) half) half))
     <= bpow 60.
Proof.
  intros Hsin Hz.
  destruct (of_Z_bounds z Hz) as (Hfz & _).
  destruct (within_one_spec _ (Hsin _ Hfz)) as [Hfs Hs].
  set (s := math_sin (JsNumber.of_Z z)) in *.
  apply Rabs_bounds in Hs.
  pose proof bpow_900_large as Hbig. pose proof value_half as Hh.
  assert (Hfh : finite half = true) by reflexivity.
  destruct (rounded_bound (JsNumber.mul s half) (value s * value half) (/ 2)) as [Hft Ht].
  { apply mul_spec; try assumption. rewrite Hh.
    apply Rle_lt_trans with (/ 2); [apply Rabs_le; lra|lra]. }
  { rewrite Hh. apply Rabs_le. lra. }
  apply Rabs_bounds in Ht.
  destruct (rounded_bound (JsNumber.add (JsNumber.mul s half) half)
              (value (JsNumber.mul s half) + value half) (5 / 2)) as [Hf Hb].
  { apply add_spec; try assumption. rewrite Hh.
    apply Rle_lt_trans with (5 / 2); [apply Rabs_le; lra|lra]. }
  { rewrite Hh. apply Rabs_le. lra. }
  split; [exact Hf|]. rewrite bpow_60. lra.
Qed.

(** ** The features *)

Lemma sumsq_In (v : spec_float) (fs : list spec_float) :
  In v fs -> value v * value v <= sumsq fs.
Proof.
  induction fs as [|w fs IH]; intros Hin; [destruct Hin|].
  cbn [sumsq fold_right]. fold (sumsq fs).
  pose proof (sumsq_nonneg fs). pose proof (Rle_0_sqr (value w)) as Hw.
  unfold Rsqr in Hw.
  destruct Hin as [-> | Hin]; [lra|]. specialize (IH Hin). lra.
Qed.

Lemma tenth_eq :
  JsNumber.div (JsNumber.of_Z 1) (JsNumber.of_Z 10)
  = S754_finite false 7205759403792794 (-56).
Proof. vm_compute. reflexivity. Qed.

Lemma tenth_square : bpow (-8) <= value (S754_finite false 7205759403792794 (-56))
                                  * value (S754_finite false 7205759403792794 (-56)).
Proof.
  assert (H : bpow (-4) <= value (S754_finite false 7205759403792794 (-56))).
  { cbn [value]. change (-56)%Z with (- (56))%Z. change (-4)%Z with (- (4))%Z.
    rewrite !bpow_opp, !bpow_IZR by lia.
    change (2 ^ 56)%Z with 72057594037927936%Z. change (2 ^ 4)%Z with 16%Z. lra. }
  pose proof (bpow_pos (-4)).
  change (-8)%Z with (2 * -4)%Z. rewrite <- bpow_square.
  apply Rmult_le_compat; lra.
Qed.

Section Features.

Variable math_sin : spec_float -> spec_float.
Hypothesis math_sin_within_one :
  forall x, finite x = true -> within_one (math_sin x) = true.

Lemma features_bounded (normalizedText : string) :
  (len normalizedText < 2 ^ 53)%Z ->
  Forall (fun v => finite v = true /\ Rabs (value v) <= bpow 60)
         (features math_sin normalizedText).
Proof.
  intros Hlen. pose proof (len_nonneg normalizedText) as Hn.
  pose proof (countRuns_bounds is_space normalizedText false) as Hw.
  pose proof (countRuns_bounds is_sentence_mark normalizedText false) as Hs.
  pose proof (hashCode_range normalizedText) as Hh.
  change (2 ^ 31)%Z with 2147483648%Z in Hh.
  change (2 ^ 53)%Z with 9007199254740992%Z in Hlen.
  unfold features. cbv zeta.
  repeat (apply Forall_app; split).
  - apply Forall_forall. intros v Hin. apply in_map_iff in Hin as (c & <- & _).
    pose proof (countChar_bounds c normalizedText).
    apply ratio_bounded; change (2 ^ 53)%Z with 9007199254740992%Z; lia.
  - assert (Hq : finite (JsNumber.div (JsNumber.of_Z (len normalizedText))
                                      (JsNumber.of_Z 1000)) = true
                 /\ Rabs (value (JsNumber.div (JsNumber.of_Z (len normalizedText))
                                              (JsNumber.of_Z 1000))) <= bpow 60)
      by (apply ratio_bounded; change (2 ^ 53)%Z with 9007199254740992%Z; lia).
    assert (Ho : finite JsNumber.one = true /\ Rabs (value JsNumber.one) <= bpow 60).
    { destruct (of_Z_bounds 1) as (Hf & Hb & _);
        [change (2 ^ 53)%Z with 9007199254740992%Z; lia|].
      split; [exact Hf|]. rewrite bpow_60. apply Rabs_le.
      change JsNumber.one with (JsNumber.of_Z 1). lra. }
    apply Forall_cons; [|apply Forall_cons; [|apply Forall_cons; [|apply Forall_nil]]].
    + destruct (math_min_one _ (proj1 Hq)) as [-> | ->]; [exact Ho|exact Hq].
    + apply ratio_bounded; unfold wordPieces;
        change (2 ^ 53)%Z with 9007199254740992%Z; lia.
    + apply ratio_bounded; unfold sentencePieces;
        change (2 ^ 53)%Z with 9007199254740992%Z; lia.
  - apply Forall_forall. intros v Hin. apply in_map_iff in Hin as (word & <- & _).
    pose proof (countWord_bounds word normalizedText false).
    apply ratio_bounded; unfold wordPieces;
      change (2 ^ 53)%Z with 9007199254740992%Z; lia.
  - apply Forall_forall. intros v Hin. apply in_map_iff in Hin as (idx & <- & Hidx).
    apply in_seq in Hidx.
    apply filler_bounded; [exact math_sin_within_one|].
    change (2 ^ 53)%Z with 9007199254740992%Z. lia.
Qed.

Lemma features_not_small (text : string) :
  bpow (-8) <= sumsq (features math_sin (normalizeText text)).
Proof.
  eapply Rle_trans; [apply tenth_square|]. apply sumsq_In.
  rewrite <- tenth_eq.
  replace 1%Z with (sentencePieces (normalizeText text)) at 1.
  - unfold features. cbv zeta.
    apply in_or_app. right. apply in_or_app. left. cbn [In]. auto.
  - unfold sentencePieces, normalizeText.
    now rewrite countRuns_sentence_marks by apply strip_all_kept.
Qed.

(** C7.  Every embedding has 384 entries, all of them finite numbers, and
    its Euclidean norm is 1 within 10^-6, both as a real number and as the
    double that [Math.sqrt(embedding.reduce(...))] computes for it.  This
    holds for every text (of the length that the language allows, less than
    2^53 characters), on every platform whose [Math.sin] returns a number
    between -1 and 1 for a finite argument; for a text that is not empty
    [embedText] returns that vector with the dimension 384. *)
Theorem embedding_unit_norm (text : string) :
  (len text < 2 ^ 53)%Z ->
  let embedding := createSimpleEmbedding math_sin text in
  List.length embedding = 384%nat
  /\ Forall (fun val => finite val = true) embedding
  /\ Rabs (norm embedding - 1) <= / 1000000
  /\ Rabs (value (magnitude embedding) - 1) <= / 1000000
  /\ (text <> ""%string ->
      embedText (createSimpleEmbedding math_sin) (Some text) = EmbedOk embedding 384).
Proof.
  intros Hlen. cbv zeta.
  assert (Hdim : List.length (createSimpleEmbedding math_sin text) = 384%nat).
  { unfold createSimpleEmbedding. cbv zeta. rewrite length_map. apply length_features. }
  split; [exact Hdim|].
  assert (Hn : (len (normalizeText text) < 2 ^ 53)%Z).
  { pose proof (len_normalizeText text). lia. }
  destruct (normalised_unit (features math_sin (normalizeText text)))
    as (Hf & Hnorm & Hmag).
  - now apply features_bounded.
  - rewrite length_features, INR_IZR_INZ.
    change (Z.of_nat 384) with 384%Z. lra.
  - apply features_not_small.
  - split; [exact Hf|]. split; [exact Hnorm|]. split; [exact Hmag|].
    intros Hne. destruct text as [|a r]; [congruence|].
    unfold embedText. cbv zeta. now rewrite Hdim.
Qed.

End Features.

Lemma embedding_unit_norm_witness :
  (forall x, finite x = true -> within_one ((fun _ => S754_zero false) x) = true)
  /\ (len "the cat sat on the mat" < 2 ^ 53)%Z
  /\ Rabs (norm (createSimpleEmbedding (fun _ => S754_zero false)
                   "the cat sat on the mat") - 1) <= / 1000000.
Proof.
  assert (H1 : forall x, finite x = true
                         -> within_one ((fun _ => S754_zero false) x) = true)
    by (intros x _; reflexivity).
  assert (H2 : (len "the cat sat on the mat" < 2 ^ 53)%Z) by reflexivity.
  split; [exact H1|]. split; [exact H2|].
  exact (proj1 (proj2 (proj2
           (embedding_unit_norm (fun _ => S754_zero false) H1
              "the cat sat on the mat" H2)))).
Defined.

End UnitNormFacts.

(* ================================================================== *)
(** * Properties of the vector store client and of the upload *)
(* ================================================================== *)

Section StoreFacts.

Import JsString Chunker ChunkerSpec Embeddings VectorStore Rag ParseDocuments UploadRoute.

Lemma length_filter_le {A : Type} (f : A -> bool) (l : list A) :
  (List.length (filter f l) <= List.length l)%nat.
Proof. induction l as [|x l IH]; simpl; [lia|]. destruct (f x); simpl; lia. Qed.

Lemma filter_all {A : Type} (f : A -> bool) (l : list A) :
  Forall (fun x => f x = true) l -> filter f l = l.
Proof.
  induction 1 as [|x l Hx Hl IH]; simpl; [reflexivity|]. now rewrite Hx, IH.
Qed.

(** X16.  [addDocuments] succeeds exactly when at least one document has an
    id, a text and an embedding and the database call on those documents
    succeeds; the count it reports is the number of those documents, so it
    is at least 1 and at most the number of documents passed: incomplete
    documents are skipped, not reported as an error. *)
Theorem addDocuments_count (collection_add : list Document -> option string)
        (documents : list Document) (count : Z) :
  let kept := filter valid_document documents in
  (addDocuments collection_add documents = AddOk count
   <-> kept <> [] /\ collection_add kept = None
       /\ count = Z.of_nat (List.length kept))
  /\ (addDocuments collection_add documents = AddOk count ->
      1 <= count <= Z.of_nat (List.length documents)).
Proof.
  cbv zeta.
  assert (Hiff : addDocuments collection_add documents = AddOk count
                 <-> filter valid_document documents <> []
                     /\ collection_add (filter valid_document documents) = None
                     /\ count = Z.of_nat (List.length (filter valid_document documents))).
  { unfold addDocuments. destruct documents as [|d rest].
    - simpl. split; [discriminate|]. intros [H _]. now contradiction H.
    - cbv beta iota zeta.
      destruct (filter valid_document (d :: rest)) as [|k kept] eqn:E.
      + split; [discriminate|]. intros [H _]. now contradiction H.
      + destruct (collection_add _) as [message|].
        * split; [discriminate|]. intros (_ & H & _). discriminate.
        * split.
          -- intros H. injection H as <-. repeat split. discriminate.
          -- intros (_ & _ & ->). reflexivity. }
  split; [exact Hiff|].
  intros Hok. apply Hiff in Hok as (Hne & _ & ->).
  pose proof (length_filter_le valid_document documents).
  destruct (filter valid_document documents); [contradiction|]. simpl in *. lia.
Qed.

Lemma addDocuments_count_witness :
  let documents :=
    [mkDocument (Some "a") (Some "alpha") (Vector [JsNumber.one])
                (mkMetadata None None None None None);
     mkDocument None (Some "beta") (Vector [JsNumber.one])
                (mkMetadata None None None None None);
     mkDocument (Some "c") (Some "gamma") Undefined
                (mkMetadata None None None None None)] in
  addDocuments (fun _ => None) documents = AddOk 1
  /\ 1 <= 1 <= Z.of_nat (List.length documents).
Proof.
  cbv zeta.
  set (documents :=
         [mkDocument (Some "a") (Some "alpha") (Vector [JsNumber.one])
                     (mkMetadata None None None None None);
          mkDocument None (Some "beta") (Vector [JsNumber.one])
                     (mkMetadata None None None None None);
          mkDocument (Some "c") (Some "gamma") Undefined
                     (mkMetadata None None None None None)]).
  assert (Hok : addDocuments (fun _ => None) documents = AddOk 1) by reflexivity.
  split; [exact Hok|].
  exact (proj2 (addDocuments_count (fun _ => None) documents 1) Hok).
Defined.

Example addDocuments_skips_incomplete :
  addDocuments (fun _ => None)
    [mkDocument (Some "a") (Some "alpha") (Vector [JsNumber.one])
                (mkMetadata None None None None None);
     mkDocument None (Some "beta") (Vector [JsNumber.one])
                (mkMetadata None None None None None);
     mkDocument (Some "c") (Some "gamma") Undefined
                (mkMetadata None None None None None)]
  = AddOk 1.
Proof. reflexivity. Qed.

(** ** The upload route *)

Section UploadFacts.

Variable pdf_pages : Buffer -> string + list (list string).
Variable uuidv4 : nat -> string.
Variable isoDate : nat -> string.
Variable createSimpleEmbedding : string -> Embedding.
Variable collection_add : list Document -> option string.

Lemma uploaded_chunk_survives (c : EnrichedChunk) :
  e_text c <> "" -> e_id c <> "" ->
  embeds createSimpleEmbedding (as_document_chunk c) = true
  /\ valid_document (document_of createSimpleEmbedding (as_document_chunk c)) = true.
Proof.
  intros Ht Hi.
  assert (He : embeds createSimpleEmbedding (as_document_chunk c) = true).
  { unfold embeds, embedText, as_document_chunk. simpl.
    destruct (e_text c); [contradiction|reflexivity]. }
  split; [exact He|].
  rewrite (valid_document_of _ _ He). unfold as_document_chunk. simpl.
  destruct (e_id c); [contradiction|reflexivity].
Qed.

Lemma uploaded_chunks_all_kept (chunks : list EnrichedChunk) :
  Forall (fun c => e_text c <> "" /\ e_id c <> "") chunks ->
  filter valid_document
         (documentsFor createSimpleEmbedding (map as_document_chunk chunks))
  = map (document_of createSimpleEmbedding) (map as_document_chunk chunks).
Proof.
  intros Hall. rewrite documentsFor_survivors.
  rewrite (filter_all (embeds createSimpleEmbedding)).
  - apply filter_all. apply Forall_map, Forall_map.
    eapply Forall_impl; [|exact Hall]. intros c [Ht Hi].
    now apply uploaded_chunk_survives.
  - apply Forall_map. eapply Forall_impl; [|exact Hall]. intros c [Ht Hi].
    now apply uploaded_chunk_survives.
Qed.

(** X17.  An upload that is answered with success has lost no chunk: when
    the generated ids are not empty, [chunksProcessed] equals [totalChunks],
    which is at least 1; the reported type is the lower-cased extension of
    the file name, a supported one, and the file is not larger than the
    limit. *)
Theorem upload_keeps_every_chunk (maxFileSize : Z) (fuel : nat) (file : File)
        filename fileType fileSize chunksProcessed totalChunks metadata :
  (forall i, uuidv4 i <> "") ->
  POST pdf_pages uuidv4 isoDate createSimpleEmbedding collection_add maxFileSize
       fuel (Some file)
  = Some (Upload200 filename fileType fileSize chunksProcessed totalChunks metadata) ->
  chunksProcessed = totalChunks
  /\ 1 <= totalChunks
  /\ fileType = toLowerCase (lastSegment (file_name file) "")
  /\ validateFileType fileType = true
  /\ file_size file <= maxFileSize.
Proof.
  intros Hid. unfold POST.
  set (ext := toLowerCase (lastSegment (file_name file) "")).
  destruct (validateFileType ext) eqn:Hvalid; [|discriminate]. simpl negb. cbv iota.
  destruct (maxFileSize <? file_size file) eqn:Hsize; [discriminate|].
  apply Z.ltb_ge in Hsize.
  destruct (parseDocumentChunks pdf_pages uuidv4 isoDate fuel (Some (file_bytes file))
                                (file_name file) ext 1000 200)
    as [[chunks total original md fn ft date|error]|] eqn:Hparse; try discriminate.
  apply parseDocumentChunks_shape in Hparse as (plain & Hchunks & Htotal & Hplain).
  assert (Hall : Forall (fun c => e_text c <> "" /\ e_id c <> "") chunks).
  { pose proof (enrich_sound uuidv4 isoDate original plain (file_name file) (toLowerCase ext)
                  (byteLength (file_bytes file)) Hplain 0) as Hsound.
    destruct (enrich_indices uuidv4 isoDate plain (file_name file) (toLowerCase ext)
                             (byteLength (file_bytes file)) 0) as (_ & _ & Hids & _).
    rewrite <- Hchunks in Hsound, Hids.
    apply Forall_forall. intros c Hin. split.
    - rewrite Forall_forall in Hsound. now destruct (Hsound c Hin).
    - assert (Hin' : In (e_id c) (map e_id chunks)) by now apply in_map.
      rewrite Hids in Hin'. apply in_map_iff in Hin' as (i & <- & _). apply Hid. }
  unfold addDocumentToKnowledgeBase.
  destruct chunks as [|c chunks]; [discriminate|].
  remember (c :: chunks) as all eqn:Hallq.
  replace (map as_document_chunk all)
    with (as_document_chunk c :: map as_document_chunk chunks) by now subst all.
  cbv beta iota. unfold embedBatch. cbn [map].
  change (prepareDocuments
            (as_document_chunk c :: map as_document_chunk chunks)
            (embedEach createSimpleEmbedding
               (chunk_text (as_document_chunk c)
                  :: map chunk_text (map as_document_chunk chunks))))
    with (documentsFor createSimpleEmbedding
            (as_document_chunk c :: map as_document_chunk chunks)).
  replace (as_document_chunk c :: map as_document_chunk chunks)
    with (map as_document_chunk all) by now subst all.
  pose proof (uploaded_chunks_all_kept all Hall) as Hkept.
  unfold addDocuments.
  destruct (documentsFor createSimpleEmbedding (map as_document_chunk all))
    as [|d docs] eqn:Hdocs.
  - discriminate.
  - rewrite Hkept.
    destruct (map (document_of createSimpleEmbedding) (map as_document_chunk all))
      as [|k kept] eqn:Hmap.
    + subst all. discriminate.
    + assert (Hlen : List.length (k :: kept) = List.length all)
        by (rewrite <- Hmap; now rewrite !length_map).
      rewrite Hlen.
      destruct (collection_add (k :: kept)); [discriminate|].
      intros Hresp. injection Hresp as _ Hft _ Hadded Htot _.
      assert (Hpos : (0 < List.length all)%nat) by (subst all; simpl; lia).
      subst. repeat split; try lia; assumption.
Qed.

End UploadFacts.

Lemma upload_keeps_every_chunk_witness :
  let uuid := fun i : nat => ("id-" ++ NilZero.string_of_uint (Nat.to_uint i))%string in
  let file := mkFile "Notes.TXT" 17 (mkBuffer "Line one line two" 17) in
  (forall i, uuid i <> "")
  /\ POST (fun _ => inl "no pdf") uuid (fun _ => "2024-01-01T00:00:00.000Z")
          (fun _ => [JsNumber.one]) (fun _ => None) 10485760 1 (Some file)
     = Some (Upload200 "Notes.TXT" "txt" 17 1 1 (mkParseMetadata None 17 17))
  /\ 1 = 1.
Proof.
  cbv zeta.
  set (uuid := fun i : nat => ("id-" ++ NilZero.string_of_uint (Nat.to_uint i))%string).
  set (file := mkFile "Notes.TXT" 17 (mkBuffer "Line one line two" 17)).
  assert (Hid : forall i, uuid i <> "") by (intros i; discriminate).
  assert (Hrun : POST (fun _ => inl "no pdf") uuid (fun _ => "2024-01-01T00:00:00.000Z")
                      (fun _ => [JsNumber.one]) (fun _ => None) 10485760 1 (Some file)
                 = Some (Upload200 "Notes.TXT" "txt" 17 1 1 (mkParseMetadata None 17 17)))
    by (vm_compute; reflexivity).
  split; [exact Hid|]. split; [exact Hrun|].
  exact (proj1 (upload_keeps_every_chunk (fun _ => inl "no pdf") uuid _ _ _ _ 1 file
                  _ _ _ _ _ _ Hid Hrun)).
Defined.

End StoreFacts.

(* ================================================================== *)
(** * Properties of the query pipeline *)
(* ================================================================== *)

Section QueryFacts.

Import JsNumber Embeddings VectorStore Rag RagQuery.

Variable createSimpleEmbedding : string -> Embedding.
Variable collection_query : Embedding -> Z -> QueryOutcome.
Variable chat : list Message -> ChatReply.
Variable model : string.
Variable systemPrompt : string.
Variable big : number -> string.

(** X18.  For a query that is a string and not empty, [processQuery] fails
    only when the database query throws, with ["Failed to search
    documents: "] and the database's message; the embedding step cannot
    fail.  When the database answers, the result is a success whose context
    is [prepareContext] of the retrieved documents, whose sources are those
    documents and whose [documentsRetrieved] is their number -- also when
    the LLM call fails: the response is then absent, and no error is
    reported.  An empty query and a value that is not a string are rejected
    with ["Invalid query provided"]. *)
Theorem processQuery_outcomes (a : ascii) (r : string) (k : Z) :
  let query := String a r in
  let run := processQuery createSimpleEmbedding collection_query chat model
                          systemPrompt big in
  (forall message,
      collection_query (createSimpleEmbedding query) k = QueryThrew message ->
      run (Some query) k = QueryError ("Failed to search documents: " ++ message))
  /\ (forall documents0 metadatas0 distances0 ids0,
         collection_query (createSimpleEmbedding query) k
         = QueryReturned documents0 metadatas0 distances0 ids0 ->
         let sources := or_empty documents0 in
         let context :=
           prepareContext big (mkSearchResult (Some sources) (or_empty metadatas0)
                                              (or_empty distances0)) in
         let reply :=
           chat (formatMessages [mkMessage "user" (buildPrompt query context)]
                                (Some systemPrompt)) in
         run (Some query) k
         = QueryOk (match reply with
                    | ChatAnswered content => content
                    | ChatFailed _ => None
                    end)
                   context sources query (Z.of_nat (List.length sources)) model)
  /\ (forall error,
         run (Some query) k <> QueryError ("Failed to generate query embedding: " ++ error))
  /\ run (Some "") k = QueryError "Invalid query provided"
  /\ run None k = QueryError "Invalid query provided".
Proof.
  cbv zeta. unfold processQuery, search, embedText.
  split; [|split; [|split; [|split; reflexivity]]].
  - intros message Hq. now rewrite Hq.
  - intros documents0 metadatas0 distances0 ids0 Hq. rewrite Hq.
    unfold ollama_generateResponse, as_search_result. cbn [hit_results hit_metadatas hit_distances].
    destruct (chat _); reflexivity.
  - intros error.
    destruct (collection_query (createSimpleEmbedding (String a r)) k) as [message|d m ds i].
    + intros H. discriminate H.
    + discriminate.
Qed.

End QueryFacts.

Lemma processQuery_outcomes_witness :
  let embed := fun _ : string => [JsNumber.one] in
  let database :=
    fun (_ : Embeddings.Embedding) (_ : Z) =>
      RagQuery.QueryReturned (Some ["alpha"]) None None None in
  let llm := fun _ : list RagQuery.Message => RagQuery.ChatFailed "connection refused" in
  database (embed "hi") 5 = RagQuery.QueryReturned (Some ["alpha"]) None None None
  /\ RagQuery.processQuery embed database llm "mistral" "Be kind." (fun _ => "?")
                            (Some "hi") 5
     = RagQuery.QueryOk None
         ("Based on the following documents:" ++ Rag.nl ++ Rag.nl
          ++ "Document 1 (100% relevant):" ++ Rag.nl ++ "alpha" ++ Rag.nl ++ Rag.nl)
         ["alpha"] "hi" 1 "mistral".
Proof.
  cbv zeta.
  set (embed := fun _ : string => [JsNumber.one]).
  set (database := fun (_ : Embeddings.Embedding) (_ : Z) =>
                     RagQuery.QueryReturned (Some ["alpha"]) None None None).
  set (llm := fun _ : list RagQuery.Message => RagQuery.ChatFailed "connection refused").
  assert (Hq : database (embed "hi") 5
               = RagQuery.QueryReturned (Some ["alpha"]) None None None) by reflexivity.
  split; [exact Hq|].
  exact (proj1 (proj2 (processQuery_outcomes embed database llm "mistral" "Be kind."
                         (fun _ => "?") "h" "i" 5))
               _ _ _ _ Hq).
Defined.

(* ================================================================== *)
(** * Further properties of the task orchestration *)
(* ================================================================== *)

Section TaskFacts.

Import JsNumber Runtime VectorStore Webhooks TriggerRoute.
Local Open Scope run_scope.

(** ** A clock that is not set back *)

Lemma keeps_steady_ret {A : Type} (a : A) : keeps_steady (ret a).
Proof. intros w H. exact H. Qed.

Lemma keeps_steady_bind {A B : Type} (m : Run A) (k : A -> Run B) :
  keeps_steady m -> (forall a, keeps_steady (k a)) -> keeps_steady (bind m k).
Proof.
  intros Hm Hk w H. unfold bind. specialize (Hm w H).
  destruct (m w) as [a w1]. apply Hk. exact Hm.
Qed.

Lemma keeps_steady_date_now : keeps_steady date_now.
Proof.
  intros w H. unfold steady_clock in *. rewrite date_now_elapse.
  destruct (elapse w) as [|d rest]; [reflexivity|].
  simpl in H. apply andb_true_iff in H. tauto.
Qed.

Lemma keeps_steady_random36 : keeps_steady random36.
Proof. intros w H. exact H. Qed.

Lemma keeps_steady_sleep (ms : Z) : keeps_steady (sleep ms).
Proof. intros w H. exact H. Qed.

Lemma keeps_steady_axios_post : keeps_steady axios_post.
Proof.
  intros w H. unfold axios_post.
  destruct (http w) as [|[exchange latency] rest]; [exact H|].
  destruct (10000 <? latency); exact H.
Qed.

Lemma keeps_steady_taskId_or_fresh (taskId : option string) :
  keeps_steady (taskId_or_fresh taskId).
Proof.
  destruct taskId as [[|a r]|]; try apply keeps_steady_ret;
    (apply keeps_steady_bind; [apply keeps_steady_date_now|]; intros t;
     apply keeps_steady_bind; [apply keeps_steady_random36|]; intros r0;
     apply keeps_steady_ret).
Qed.

Lemma keeps_steady_trigger_begin (cfg : Config) (taskData : TaskData) :
  keeps_steady (triggerN8nTask_begin cfg taskData).
Proof.
  unfold triggerN8nTask_begin.
  destruct (truthy_string (n8nWebhookUrl cfg)); [|apply keeps_steady_ret].
  apply keeps_steady_bind; [apply keeps_steady_date_now|]. intros t.
  apply keeps_steady_bind; [apply keeps_steady_taskId_or_fresh|]. intros i.
  apply keeps_steady_ret.
Qed.

Lemma keeps_steady_trigger_finish (started : option Envelope) :
  keeps_steady (triggerN8nTask_finish started).
Proof.
  destruct started as [payload|]; [|apply keeps_steady_ret].
  apply keeps_steady_bind; [apply keeps_steady_axios_post|].
  intros [status|message]; [|apply keeps_steady_ret].
  cbv beta iota. destruct ((200 <=? status) && (status <? 300)); apply keeps_steady_ret.
Qed.

Lemma keeps_steady_report_to (onProgress : Callback) startTime taskId status events :
  keeps_steady (report_to onProgress startTime taskId status events).
Proof.
  destruct onProgress as [call|]; [|apply keeps_steady_ret].
  apply keeps_steady_bind; [apply keeps_steady_date_now|]. intros t.
  cbv beta zeta. destruct (call _); apply keeps_steady_ret.
Qed.

(** With such a clock, observing it, sleeping and reporting progress never
    move the time back. *)
Lemma steady_clock_head (w : World) : steady_clock w = true -> 0 <= hd 0 (elapse w).
Proof.
  unfold steady_clock. destruct (elapse w) as [|d rest]; simpl; [lia|].
  intros H. apply andb_true_iff in H as [H _]. now apply Z.leb_le.
Qed.

Lemma date_now_steady (w : World) :
  steady_clock w = true ->
  now w <= fst (date_now w)
  /\ now (snd (date_now w)) = fst (date_now w)
  /\ steady_clock (snd (date_now w)) = true.
Proof.
  intros H. split; [apply date_now_later, steady_clock_head, H|].
  split; [reflexivity|now apply keeps_steady_date_now].
Qed.

Lemma report_to_later (onProgress : Callback) startTime taskId status events (w : World) :
  steady_clock w = true ->
  now w <= now (snd (report_to onProgress startTime taskId status events w)).
Proof.
  intros H. unfold report_to. destruct onProgress as [call|]; [|simpl; lia].
  unfold bind. destruct (date_now_steady w H) as (Hl & Hn & _).
  destruct (date_now w) as [t w1]. cbn [fst snd] in Hl, Hn.
  cbv zeta. destruct (call _); simpl; lia.
Qed.

(** A progress report ends in an error only through a callback that threw
    at the call just made. *)
Lemma report_to_threw (onProgress : Callback) startTime taskId status events (w : World)
      events' message w' :
  report_to onProgress startTime taskId status events w = ((events', Some message), w') ->
  exists call, onProgress = Some call /\ call events' = Threw message.
Proof.
  unfold report_to. destruct onProgress as [call|]; [|discriminate].
  unfold bind. destruct (date_now w) as [t w1]. cbv zeta.
  destruct (call _) as [|thrown] eqn:Hcall; unfold ret; [discriminate|].
  intros Hrun. injection Hrun as <- <- _. now exists call.
Qed.

(** ** The polling loop with any callback *)

Lemma poll_calling_step (fuel : nat) timeout startTime taskId taskData onProgress events :
  poll_calling (S fuel) timeout startTime taskId taskData onProgress events
  = (t <- date_now ;;
     if t - startTime <? timeout then
       sleep 2000 ;;;
       t2 <- date_now ;;
       if 5000 <? t2 - startTime then
         t3 <- date_now ;;
         completedAt <- date_now ;;
         let result :=
           mkTaskResult taskId "completed" taskData (t3 - startTime) completedAt in
         reported <- report_to onProgress startTime taskId "completed" events ;;
         match reported with
         | (events', Some message) => ret (Some (Interrupted message, events'))
         | (events', None) => ret (Some (Completed result, events'))
         end
       else
         reported <- report_to onProgress startTime taskId "processing" events ;;
         match reported with
         | (events', Some message) => ret (Some (Interrupted message, events'))
         | (events', None) =>
             poll_calling fuel timeout startTime taskId taskData onProgress events'
         end
     else ret (Some (TimedOut, events))).
Proof. reflexivity. Qed.

(** With a callback that returns, the loop is the one of [poll]. *)
Lemma report_to_quiet (onProgress : bool) startTime taskId status events (w : World) :
  report_to (quiet onProgress) startTime taskId status events w
  = ((fst (report onProgress startTime taskId status events w), None),
     snd (report onProgress startTime taskId status events w)).
Proof.
  unfold report_to, report, quiet. destruct onProgress; [|reflexivity].
  unfold bind. destruct (date_now w) as [t w1]. reflexivity.
Qed.

Lemma poll_calling_quiet (fuel : nat) :
  forall timeout startTime taskId taskData onProgress events w,
    poll_calling fuel timeout startTime taskId taskData (quiet onProgress) events w
    = (match fst (poll fuel timeout startTime taskId taskData onProgress events w) with
       | Some (result, events') => Some (waited_of result, events')
       | None => None
       end,
       snd (poll fuel timeout startTime taskId taskData onProgress events w)).
Proof.
  induction fuel as [|fuel IH];
    intros timeout startTime taskId taskData onProgress events w.
  - simpl. unfold bind. destruct (date_now w) as [t w1].
    destruct (t - startTime <? timeout); reflexivity.
  - rewrite poll_calling_step, poll_unfold. unfold bind.
    destruct (date_now w) as [t w1].
    destruct (t - startTime <? timeout); [|reflexivity].
    destruct (sleep 2000 w1) as [u w2]. destruct (date_now w2) as [t2 w3].
    destruct (5000 <? t2 - startTime).
    + destruct (date_now w3) as [t3 w4]. destruct (date_now w4) as [t4 w5].
      rewrite report_to_quiet.
      destruct (report onProgress startTime taskId "completed" events w5) as [ev w6].
      reflexivity.
    + rewrite report_to_quiet.
      destruct (report onProgress startTime taskId "processing" events w3) as [ev w4].
      cbn [fst snd]. apply IH.
Qed.

(** With a clock that is not set back the loop ends: [k + 1] iterations are
    enough once the clock is within [2000 * (k + 1)] of the simulated
    completion. *)
Lemma poll_calling_returns (fuel : nat) :
  forall timeout startTime taskId taskData onProgress events w,
    steady_clock w = true ->
    5000 - 2000 * Z.of_nat (S fuel) < now w - startTime ->
    fst (poll_calling (S fuel) timeout startTime taskId taskData onProgress events w)
    <> None.
Proof.
  induction fuel as [|fuel IH];
    intros timeout startTime taskId taskData onProgress events w Hsteady Hclock;
    rewrite poll_calling_step; unfold bind;
    destruct (date_now_steady w Hsteady) as (Hl1 & Hn1 & Hs1);
    destruct (date_now w) as [t w1]; cbn [fst snd] in Hl1, Hn1, Hs1;
    (destruct (t - startTime <? timeout); [|simpl; discriminate]);
    pose proof (sleep_later 2000 w1) as Hl2;
    pose proof (keeps_steady_sleep 2000 w1 Hs1) as Hs2;
    destruct (sleep 2000 w1) as [u w2]; cbn [fst snd] in Hl2, Hs2;
    destruct (date_now_steady w2 Hs2) as (Hl3 & Hn3 & Hs3);
    destruct (date_now w2) as [t2 w3]; cbn [fst snd] in Hl3, Hn3, Hs3;
    destruct (5000 <? t2 - startTime) eqn:Hdone.
  - destruct (date_now w3) as [t3 w4]. destruct (date_now w4) as [t4 w5].
    destruct (report_to onProgress startTime taskId "completed" events w5)
      as [[ev [m|]] w6]; simpl; discriminate.
  - apply Z.ltb_ge in Hdone. lia.
  - destruct (date_now w3) as [t3 w4]. destruct (date_now w4) as [t4 w5].
    destruct (report_to onProgress startTime taskId "completed" events w5)
      as [[ev [m|]] w6]; simpl; discriminate.
  - apply Z.ltb_ge in Hdone.
    pose proof (report_to_later onProgress startTime taskId "processing" events w3 Hs3)
      as Hl4.
    pose proof (keeps_steady_report_to onProgress startTime taskId "processing" events
                  w3 Hs3) as Hs4.
    destruct (report_to onProgress startTime taskId "processing" events w3)
      as [[ev [m|]] w4]; cbn [fst snd] in Hl4, Hs4; [simpl; discriminate|].
    apply IH; [exact Hs4|lia].
Qed.

(** How the loop is left: with a result that carries the task's id, the
    status "completed", the payload and, when the clock is not set back, a
    processing time above the 5000 ms of the simulation; or at a clock
    observation at least [timeout] after the start; or by a callback that
    threw at its last call. *)
Lemma poll_calling_outcome (fuel : nat) :
  forall timeout startTime taskId taskData onProgress events w waited events' w',
    poll_calling fuel timeout startTime taskId taskData onProgress events w
    = (Some (waited, events'), w') ->
    match waited with
    | Completed result =>
        res_taskId result = taskId
        /\ res_status result = "completed"
        /\ res_processedData result = taskData
        /\ (steady_clock w = true -> 5000 < res_processingTime result)
    | TimedOut => timeout <= now w' - startTime
    | Interrupted message =>
        exists call, onProgress = Some call /\ call events' = Threw message
    end.
Proof.
  induction fuel as [|fuel IH];
    intros timeout startTime taskId taskData onProgress events w waited events' w' Hrun.
  - simpl in Hrun. unfold bind in Hrun.
    pose proof (date_now_now w) as Hnow.
    destruct (date_now w) as [t w1]. simpl in Hnow.
    destruct (t - startTime <? timeout) eqn:Hguard; [discriminate|].
    unfold ret in Hrun. injection Hrun as <- _ <-.
    apply Z.ltb_ge in Hguard. lia.
  - rewrite poll_calling_step in Hrun. unfold bind in Hrun.
    pose proof (date_now_now w) as Hnow.
    pose proof (keeps_steady_date_now w) as Hs1.
    destruct (date_now w) as [t w1]. cbn [fst snd] in Hnow, Hs1.
    destruct (t - startTime <? timeout) eqn:Hguard.
    + pose proof (keeps_steady_sleep 2000 w1) as Hs2.
      destruct (sleep 2000 w1) as [u w2]. cbn [snd] in Hs2.
      pose proof (date_now_steady w2) as Hd3.
      destruct (date_now w2) as [t2 w3]. cbn [fst snd] in Hd3.
      destruct (5000 <? t2 - startTime) eqn:Hdone.
      * apply Z.ltb_lt in Hdone.
        pose proof (date_now_steady w3) as Hd4.
        destruct (date_now w3) as [t3 w4]. cbn [fst snd] in Hd4.
        destruct (date_now w4) as [t4 w5].
        destruct (report_to onProgress startTime taskId "completed" events w5)
          as [[ev [m|]] w6] eqn:Hreport; unfold ret in Hrun;
          injection Hrun as <- <- _.
        -- eapply report_to_threw. exact Hreport.
        -- cbn [res_taskId res_status res_processedData res_processingTime].
           repeat split. intros Hsteady.
           destruct (Hd3 (Hs2 (Hs1 Hsteady))) as (_ & Hn3 & Hs3).
           destruct (Hd4 Hs3) as (Hl4 & _ & _). lia.
      * destruct (report_to onProgress startTime taskId "processing" events w3)
          as [[ev [m|]] w4] eqn:Hreport.
        -- unfold ret in Hrun. injection Hrun as <- <- _.
           eapply report_to_threw. exact Hreport.
        -- specialize (IH _ _ _ _ _ _ _ _ _ _ Hrun).
           destruct waited as [result| |message]; try exact IH.
           destruct IH as (H1 & H2 & H3 & H4). repeat split; try assumption.
           intros Hsteady. apply H4.
           destruct (Hd3 (Hs2 (Hs1 Hsteady))) as (_ & _ & Hs3).
           pose proof (keeps_steady_report_to onProgress startTime taskId "processing"
                         events w3 Hs3) as Hs4.
           now rewrite Hreport in Hs4.
    + unfold ret in Hrun. injection Hrun as <- _ <-.
      apply Z.ltb_ge in Hguard. lia.
Qed.

(** X19.  With a wall clock that is not set back, [processLongRunningTask]
    returns, and its polling loop runs at most three times: every sleep
    lasts at least 2000 ms and the simulated task counts as completed once
    5000 ms have passed.  This holds for every timeout, callback and HTTP
    exchange. *)
Theorem processLongRunningTask_returns (cfg : Config) (taskData : TaskData)
        (onProgress : Callback) (w : World) :
  steady_clock w = true ->
  fst (processLongRunningTask 3 cfg taskData onProgress w) <> None.
Proof.
  intros Hsteady.
  unfold processLongRunningTask, processLongRunningTask_continue, bind.
  pose proof (keeps_steady_trigger_begin cfg taskData w Hsteady) as Hs1.
  destruct (triggerN8nTask_begin cfg taskData w) as [started w1]. cbn [snd] in Hs1.
  pose proof (keeps_steady_trigger_finish started w1 Hs1) as Hs2.
  destruct (triggerN8nTask_finish started w1) as [[taskId|reason] w2]; cbn [snd] in Hs2.
  - destruct (date_now_steady w2 Hs2) as (_ & Hn3 & Hs3).
    destruct (date_now w2) as [startTime w3]. cbn [fst snd] in Hn3, Hs3.
    pose proof (poll_calling_returns 2 (taskTimeout cfg) startTime taskId taskData
                  onProgress [] w3 Hs3) as Hret.
    destruct (poll_calling 3 (taskTimeout cfg) startTime taskId taskData onProgress [] w3)
      as [[[[result| |message] events]|] w4]; unfold ret.
    + destruct (notifyFlowiseTaskComplete cfg result w4) as [notified w5].
      simpl. discriminate.
    + simpl. discriminate.
    + simpl. discriminate.
    + exfalso. apply Hret; [lia|reflexivity].
  - unfold ret. simpl. discriminate.
Qed.

Lemma processLongRunningTask_returns_witness :
  let cfg := mkConfig (Some "http://localhost:5678/webhook/trigger-task") None 300000 in
  let taskData := mkTaskData "summarise" 1700000000000 "long-running-task" None in
  let w := mkWorld 1700000000000 [3; 0; 12] ["k3j9x0q2a"] [40] [(Answered 200, 35)] in
  steady_clock w = true
  /\ fst (processLongRunningTask 3 cfg taskData (Some (fun _ => Returned)) w) <> None.
Proof.
  cbv zeta.
  set (cfg := mkConfig (Some "http://localhost:5678/webhook/trigger-task") None 300000).
  set (taskData := mkTaskData "summarise" 1700000000000 "long-running-task" None).
  set (w := mkWorld 1700000000000 [3; 0; 12] ["k3j9x0q2a"] [40] [(Answered 200, 35)]).
  assert (H : steady_clock w = true) by reflexivity.
  split; [exact H|].
  exact (processLongRunningTask_returns cfg taskData (Some (fun _ => Returned)) w H).
Defined.

(** When the wall clock is set back 2000 ms during every sleep the elapsed
    time never grows, and the loop is still running after three
    iterations. *)
Example clock_set_back_prolongs_polling :
  let cfg := mkConfig (Some "http://localhost:5678/webhook/trigger-task") None 300000 in
  let taskData := mkTaskData "summarise" 1700000000000 "report" (Some "job-42") in
  let w := mkWorld 1700000000000 [0; 0; 0; -2000; 0; -2000; 0; -2000] [] []
                   [(Answered 200, 35)] in
  steady_clock w = false
  /\ fst (processLongRunningTask 3 cfg taskData None w) = None.
Proof. split; vm_compute; reflexivity. Qed.

(** X20.  [processLongRunningTask] fails in three ways only: the trigger
    failed, the wait timed out, or the progress callback threw, in which
    case the error is the message thrown at the last call made; a
    notification that fails never makes the task fail.  A success carries
    the id under which the task was triggered in its result, the status
    "completed", the payload that was passed and, when the wall clock is not
    set back, a processing time above 5000 ms. *)
Theorem processLongRunningTask_outcomes (fuel : nat) (cfg : Config)
        (taskData : TaskData) (onProgress : Callback) (w : World) :
  (forall error events w',
      processLongRunningTask fuel cfg taskData onProgress w
      = (Some (TaskError error, events), w') ->
      error = "Task timeout exceeded"
      \/ (exists reason, error = ("Failed to trigger task: " ++ reason)%string)
      \/ (exists call, onProgress = Some call /\ call events = Threw error))
  /\ (forall taskId result notified events w',
         processLongRunningTask fuel cfg taskData onProgress w
         = (Some (TaskOk taskId result notified, events), w') ->
         res_taskId result = taskId
         /\ res_status result = "completed"
         /\ res_processedData result = taskData
         /\ (steady_clock w = true -> 5000 < res_processingTime result)).
Proof.
  unfold processLongRunningTask, processLongRunningTask_continue, bind.
  pose proof (keeps_steady_trigger_begin cfg taskData w) as Hs1.
  destruct (triggerN8nTask_begin cfg taskData w) as [started w1]. cbn [snd] in Hs1.
  pose proof (keeps_steady_trigger_finish started w1) as Hs2.
  destruct (triggerN8nTask_finish started w1) as [[taskId|reason] w2]; cbn [snd] in Hs2.
  - pose proof (keeps_steady_date_now w2) as Hs3.
    destruct (date_now w2) as [startTime w3]. cbn [snd] in Hs3.
    destruct (poll_calling fuel (taskTimeout cfg) startTime taskId taskData onProgress
                           [] w3)
      as [[[[result| |message] events]|] w4] eqn:Hpoll; unfold ret.
    + destruct (notifyFlowiseTaskComplete cfg result w4) as [notified w5].
      split; [discriminate|].
      intros id res n ev w' H. injection H as <- <- _ _ _.
      destruct (poll_calling_outcome _ _ _ _ _ _ _ _ _ _ _ Hpoll)
        as (H1 & H2 & H3 & H4).
      repeat split; try assumption. intros Hsteady. apply H4. auto.
    + split; [|discriminate].
      intros error ev w' H. injection H as <- _ _. now left.
    + split; [|discriminate].
      intros error ev w' H. injection H as <- <- _. right. right.
      exact (poll_calling_outcome _ _ _ _ _ _ _ _ _ _ _ Hpoll).
    + split; discriminate.
  - unfold ret. split; [|discriminate].
    intros error ev w' H. injection H as <- _ _. right. left. now exists reason.
Qed.

Lemma processLongRunningTask_outcomes_witness :
  let cfg := mkConfig (Some "http://localhost:5678/webhook/trigger-task") None 300000 in
  let taskData := mkTaskData "summarise" 1700000000000 "long-running-task" None in
  let w := mkWorld 1700000000000 [] ["k3j9x0q2a"] [] [(Answered 200, 35)] in
  let onProgress := Some (fun _ : list Progress => Returned) in
  steady_clock w = true
  /\ exists result events w',
      processLongRunningTask 3 cfg taskData onProgress w
      = (Some (TaskOk "task_1700000000000_k3j9x0q2a" result false, events), w')
      /\ res_taskId result = "task_1700000000000_k3j9x0q2a"
      /\ 5000 < res_processingTime result.
Proof.
  cbv zeta.
  set (cfg := mkConfig (Some "http://localhost:5678/webhook/trigger-task") None 300000).
  set (taskData := mkTaskData "summarise" 1700000000000 "long-running-task" None).
  set (w := mkWorld 1700000000000 [] ["k3j9x0q2a"] [] [(Answered 200, 35)]).
  set (onProgress := Some (fun _ : list Progress => Returned)).
  assert (Hsteady : steady_clock w = true) by reflexivity.
  assert (Hrun : exists result events w',
             processLongRunningTask 3 cfg taskData onProgress w
             = (Some (TaskOk "task_1700000000000_k3j9x0q2a" result false, events), w'))
    by (do 3 eexists; vm_compute; reflexivity).
  destruct Hrun as (result & events & w' & Hrun).
  split; [exact Hsteady|].
  exists result, events, w'. split; [exact Hrun|].
  destruct (proj2 (processLongRunningTask_outcomes 3 cfg taskData onProgress w)
              _ _ _ _ _ Hrun) as (Hid & _ & _ & Htime).
  split; [exact Hid|exact (Htime Hsteady)].
Defined.

(** A callback that throws at its second call: the task fails with the
    message thrown, after two progress reports. *)
Example throwing_callback_fails_task :
  let cfg := mkConfig (Some "http://localhost:5678/webhook/trigger-task") None 300000 in
  let taskData := mkTaskData "summarise" 1700000000000 "report" (Some "job-42") in
  let w := mkWorld 1700000000000 [] [] [] [(Answered 200, 35)] in
  let onProgress :=
    Some (fun calls : list Progress =>
            if (List.length calls =? 2)%nat then Threw "socket closed" else Returned) in
  fst (processLongRunningTask 3 cfg taskData onProgress w)
  = Some (TaskError "socket closed",
          [mkProgress "job-42" "processing" (of_Z 40);
           mkProgress "job-42" "processing" (of_Z 80)]).
Proof. vm_compute. reflexivity. Qed.

(** ** The timeline without scheduling delays *)

Lemma date_now_quiet (m : Z) rs lt ht :
  date_now (mkWorld m [] rs lt ht) = (m, mkWorld m [] rs lt ht).
Proof. apply (date_now_still (mkWorld m [] rs lt ht)). reflexivity. Qed.

Lemma sleep_quiet (m : Z) rs ht :
  sleep 2000 (mkWorld m [] rs [] ht) = (tt, mkWorld (m + 2000) [] rs [] ht).
Proof. reflexivity. Qed.

(** An iteration that does not see the completion. *)
Lemma poll_step_processing (fuel : nat) (timeout startTime m : Z) taskId taskData
      events rs ht :
  m - startTime < timeout -> m + 2000 - startTime <= 5000 ->
  poll (S fuel) timeout startTime taskId taskData true events (mkWorld m [] rs [] ht)
  = poll fuel timeout startTime taskId taskData true
         (events ++ [mkProgress taskId "processing"
                                (progress_of (m + 2000 - startTime))])%list
         (mkWorld (m + 2000) [] rs [] ht).
Proof.
  intros Hguard Hnot. rewrite poll_unfold. unfold bind at 1.
  rewrite date_now_quiet.
  replace (m - startTime <? timeout) with true by (symmetry; apply Z.ltb_lt; lia).
  unfold bind at 1. rewrite sleep_quiet.
  unfold bind at 1. rewrite date_now_quiet.
  replace (5000 <? m + 2000 - startTime) with false by (symmetry; apply Z.ltb_ge; lia).
  unfold bind at 1. unfold report. unfold bind at 1. rewrite date_now_quiet.
  reflexivity.
Qed.

(** The iteration that sees the completion. *)
Lemma poll_step_completed (fuel : nat) (timeout startTime m : Z) taskId taskData
      events rs ht :
  m - startTime < timeout -> 5000 < m + 2000 - startTime ->
  poll (S fuel) timeout startTime taskId taskData true events (mkWorld m [] rs [] ht)
  = (Some (Some (mkTaskResult taskId "completed" taskData (m + 2000 - startTime)
                              (m + 2000)),
           (events ++ [mkProgress taskId "completed"
                                  (progress_of (m + 2000 - startTime))])%list),
     mkWorld (m + 2000) [] rs [] ht).
Proof.
  intros Hguard Hdone. rewrite poll_unfold. unfold bind at 1.
  rewrite date_now_quiet.
  replace (m - startTime <? timeout) with true by (symmetry; apply Z.ltb_lt; lia).
  unfold bind at 1. rewrite sleep_quiet.
  unfold bind at 1. rewrite date_now_quiet.
  replace (5000 <? m + 2000 - startTime) with true by (symmetry; apply Z.ltb_lt; lia).
  unfold bind at 1. rewrite date_now_quiet.
  unfold bind at 1. rewrite date_now_quiet.
  unfold bind at 1. unfold report. unfold bind at 1. rewrite date_now_quiet.
  reflexivity.
Qed.



(** ** The trigger *)

(** The client library resolves with a status from 200 to 299 only. *)
Lemma axios_post_resolved (w : World) (status : Z) :
  fst (axios_post w) = Resolved status -> 200 <= status < 300.
Proof.
  unfold axios_post. destruct (http w) as [|[exchange latency] rest]; [discriminate|].
  destruct (10000 <? latency); [discriminate|]. cbn [fst].
  destruct exchange as [answered|message]; [|discriminate]. unfold settle.
  destruct ((200 <=? answered) && (answered <? 300)) eqn:Hok; [|discriminate].
  intros H. injection H as <-.
  apply andb_true_iff in Hok as [H1 H2].
  apply Z.leb_le in H1. apply Z.ltb_lt in H2. lia.
Qed.

(** An exchange that ends within the 10000 ms of the request's timeout. *)
Lemma axios_post_answered (w : World) (exchange : Exchange) (latency : Z) rest :
  http w = (exchange, latency) :: rest ->
  latency <= 10000 ->
  fst (axios_post w) = settle exchange
  /\ randoms (snd (axios_post w)) = randoms w
  /\ http (snd (axios_post w)) = rest.
Proof.
  intros Hhttp Hlatency. unfold axios_post. rewrite Hhttp.
  replace (10000 <? latency) with false by (symmetry; apply Z.ltb_ge; lia).
  repeat split.
Qed.

Lemma triggerN8nTask_unconfigured (cfg : Config) (taskData : TaskData) (w : World) :
  truthy_string (n8nWebhookUrl cfg) = false ->
  triggerN8nTask cfg taskData w
  = (TriggerError "N8N webhook URL not configured", w).
Proof.
  intros Hurl. unfold triggerN8nTask, triggerN8nTask_begin, bind.
  now rewrite Hurl.
Qed.

Lemma triggerN8nTask_supplied_id (cfg : Config) (taskData : TaskData) (w : World)
      a r status latency rest :
  truthy_string (n8nWebhookUrl cfg) = true ->
  td_taskId taskData = Some (String a r) ->
  http w = (Answered status, latency) :: rest ->
  latency <= 10000 ->
  randoms (snd (triggerN8nTask cfg taskData w)) = randoms w
  /\ http (snd (triggerN8nTask cfg taskData w)) = rest
  /\ fst (triggerN8nTask cfg taskData w)
     = if (200 <=? status) && (status <? 300)
       then TriggerOk (String a r)
       else TriggerError ("Request failed with status code " ++ decimal status).
Proof.
  intros Hurl Hid Hhttp Hlatency.
  unfold triggerN8nTask, triggerN8nTask_begin, bind. rewrite Hurl, Hid.
  unfold bind, taskId_or_fresh, ret.
  destruct (date_now w) as [timestamp w1] eqn:Hnow.
  assert (Hw1 : randoms w1 = randoms w /\ http w1 = http w).
  { unfold date_now in Hnow. injection Hnow as _ <-. split; reflexivity. }
  destruct Hw1 as [Hr Hh]. rewrite Hhttp in Hh.
  destruct (axios_post_answered w1 _ _ _ Hh Hlatency) as (Hout & Hrs & Hrest).
  unfold triggerN8nTask_finish, bind.
  destruct (axios_post w1) as [response w2]. cbn [fst snd] in Hout, Hrs, Hrest.
  subst response. unfold settle. cbn [env_taskId].
  destruct ((200 <=? status) && (status <? 300)) eqn:Hok.
  - rewrite Hok. unfold ret. cbn [fst snd]. rewrite Hrs, Hr. auto.
  - unfold ret. cbn [fst snd]. rewrite Hrs, Hr. auto.
Qed.

(** The error of a failed trigger is never the one the program builds from
    the status of a response. *)
Lemma triggerN8nTask_error (cfg : Config) (taskData : TaskData) (w : World)
      (error : string) :
  fst (triggerN8nTask cfg taskData w) = TriggerError error ->
  error = "N8N webhook URL not configured"
  \/ exists w1, fst (axios_post w1) = Rejected error.
Proof.
  unfold triggerN8nTask, bind.
  destruct (triggerN8nTask_begin cfg taskData w) as [[payload|] w1].
  - unfold triggerN8nTask_finish, bind. intros Hrun. right. exists w1.
    pose proof (axios_post_resolved w1) as Hres.
    destruct (axios_post w1) as [[status|message] w2]; cbn [fst] in *.
    + specialize (Hres status eq_refl).
      replace ((200 <=? status) && (status <? 300)) with true in Hrun
        by (symmetry; apply andb_true_iff; split;
            [apply Z.leb_le|apply Z.ltb_lt]; lia).
      discriminate.
    + unfold ret in Hrun. cbn [fst] in Hrun. now injection Hrun as ->.
  - unfold triggerN8nTask_finish, ret. cbn [fst]. intros Hrun.
    left. now injection Hrun.
Qed.





End TaskFacts.
